(** * HashMap: a Robin Hood hash table over a linked list of entries

    Shallow embedding of [task1.cpp] (class [HashMap<KeyType, ValueType, Hash>])
    and the verification of its specification.

    Modelling conventions.
    - [size_t] values (sizes, positions, distances, hash values) are natural
      numbers: every counter of the class is bounded by the number of
      allocated list nodes or vector slots, so no wrap-around is reachable.
    - [std::vector<HashTableData>] is a [list HashTableData], read with
      [!!] and written with [<[ _ := _ ]>].
    - [std::list<std::pair<const Key, Value>>] is a list of nodes; a node is
      its address (a natural number, never reused) paired with its entry.
      A list iterator is the address of the node it points to.
    - Every member function with a [while (true)] loop, and [insert] which
      recurses through [rebuild_], takes a [fuel] argument.  The outcome
      [OutOfFuel] says that the budget was too small; [Undefined] says that
      the C++ program has undefined behaviour (remainder by zero, reading
      a vector out of range, dereferencing an erased node). *)

From stdpp Require Import base list strings.
From Stdlib Require Import Lia Arith.

(** ** Outcomes *)

Inductive exception : Type :=
  | out_of_range.

Inductive outcome (A : Type) : Type :=
  | Done (a : A)
  | Throw (e : exception)
  | Undefined
  | OutOfFuel.

Arguments Done {A} a.
Arguments Throw {A} e.
Arguments Undefined {A}.
Arguments OutOfFuel {A}.

Definition bind {A B : Type} (c : outcome A) (k : A → outcome B) : outcome B :=
  match c with
  | Done a => k a
  | Throw e => Throw e
  | Undefined => Undefined
  | OutOfFuel => OutOfFuel
  end.

Notation "'let*' x ':=' c 'in' k" := (bind c (λ x, k))
  (at level 10, x name, c at level 100, k at level 200).

(** ** The class *)

Record HashTableData : Type := mkSlot {
  is_empty : bool;
  distance : nat;
  iterator : nat
}.

(** The default member initialisers of [HashTableData]; the iterator of a
    fresh slot is singular and is never read while [is_empty] holds. *)
Definition HashTableData_new : HashTableData :=
  {| is_empty := true; distance := 0; iterator := 0 |}.

Definition REBUILD_CONSTANT : nat := 3.
Definition EXTENDED_CONSTANT : nat := 2.
Definition EXTENDED_SHIFT : nat := 3.

Section HashMap.

Context {KeyType ValueType : Type} `{EqDecision KeyType}.

(** [ValueType()], the value-initialised value used by [operator[]]. *)
Variable ValueType_new : ValueType.

(** A list node: its address and the entry it holds. *)
Abbreviation node := (nat * (KeyType * ValueType))%type.

Record HashMap : Type := mkMap {
  hasher_ : KeyType → nat;
  data_ : list HashTableData;
  size_ : nat;
  elemets_ : list node;
  (** address of the next list node to be allocated *)
  next_node_ : nat
}.

(** *** The linked list *)

(** [it->first], [it->second]: [None] when no node lives at that address. *)
Fixpoint deref (l : list node) (it : nat) : option (KeyType * ValueType) :=
  match l with
  | [] => None
  | n :: l' => if decide (n.1 = it) then Some n.2 else deref l' it
  end.

(** [std::list::erase(it)] *)
Definition list_erase (l : list node) (it : nat) : list node :=
  filter (λ n : node, n.1 ≠ it) l.

(** The entries in iteration order, from [begin()] to [end()]. *)
Definition entries (m : HashMap) : list (KeyType * ValueType) :=
  snd <$> elemets_ m.

Definition size (m : HashMap) : nat := size_ m.
Definition empty (m : HashMap) : bool := bool_decide (size_ m = 0).
Definition hash_function (m : HashMap) : KeyType → nat := hasher_ m.

(** [data_.size()] *)
Definition capacity (m : HashMap) : nat := length (data_ m).

(** *** Constructors *)

Definition HashMap_new (hasher : KeyType → nat) : HashMap :=
  {| hasher_ := hasher; data_ := []; size_ := 0; elemets_ := [];
     next_node_ := 1 |}.

(** [next_]: advance a position with wrap-around. *)
Definition next_ (cap position : nat) : nat :=
  if decide (S position = cap) then 0 else S position.

(** [reserve_]: [data_.resize(EXTENDED_CONSTANT * size)]. *)
Definition reserve_ (m : HashMap) (n : nat) : HashMap :=
  {| hasher_ := hasher_ m;
     data_ := resize (EXTENDED_CONSTANT * n) HashTableData_new (data_ m);
     size_ := size_ m; elemets_ := elemets_ m; next_node_ := next_node_ m |}.

(** [hasher_(key) % data_.size()] *)
Definition home (hasher : KeyType → nat) (cap : nat) (key : KeyType)
  : outcome nat :=
  if decide (cap = 0) then Undefined else Done (hasher key mod cap).

(** *** insert *)

(** The probe loop of [insert] (the [else] branch). *)
Fixpoint insert_loop (fuel : nat) (elems : list node)
    (data : list HashTableData) (position distance0 current_elemet : nat)
  : outcome (list HashTableData) :=
  match fuel with
  | 0 => OutOfFuel
  | S fuel' =>
    match data !! position with
    | None => Undefined
    | Some slot =>
      if is_empty slot then
        Done (<[position := mkSlot false distance0 current_elemet]> data)
      else
        match deref elems (iterator slot), deref elems current_elemet with
        | Some kv1, Some kv2 =>
          if decide (kv1.1 = kv2.1) then Done data
          else if decide (distance slot < distance0) then
            insert_loop fuel' elems
              (<[position := mkSlot false distance0 current_elemet]> data)
              (next_ (length data) position) (S (distance slot))
              (iterator slot)
          else
            insert_loop fuel' elems data
              (next_ (length data) position) (S distance0) current_elemet
        | _, _ => Undefined
        end
    end
  end.

(** The body of [rebuild_], over the [insert] it calls back. *)
Definition rebuild_with (ins : HashMap → KeyType * ValueType → outcome HashMap)
    (m : HashMap) : outcome HashMap :=
  let current_elements := elemets_ m in
  foldl (λ acc value, let* m' := acc in ins m' value)
    (Done {| hasher_ := hasher_ m; data_ := data_ m; size_ := 0;
             elemets_ := []; next_node_ := next_node_ m |})
    (snd <$> current_elements).

Fixpoint insert (fuel : nat) (m : HashMap) (new_value : KeyType * ValueType)
  : outcome HashMap :=
  match fuel with
  | 0 => OutOfFuel
  | S fuel' =>
    let size1 := S (size_ m) in
    let elems1 := elemets_ m ++ [(next_node_ m, new_value)] in
    if decide (length (data_ m) < size1 * REBUILD_CONSTANT) then
      rebuild_with (insert fuel')
        {| hasher_ := hasher_ m;
           data_ := replicate
             (EXTENDED_CONSTANT * length (data_ m) + EXTENDED_SHIFT)
             HashTableData_new;
           size_ := size1; elemets_ := elems1;
           next_node_ := S (next_node_ m) |}
    else
      let* position := home (hasher_ m) (length (data_ m)) new_value.1 in
      let* data' :=
        insert_loop fuel' elems1 (data_ m) position 0 (next_node_ m) in
      Done {| hasher_ := hasher_ m; data_ := data'; size_ := size1;
              elemets_ := elems1; next_node_ := S (next_node_ m) |}
  end.

Definition rebuild_ (fuel : nat) (m : HashMap) : outcome HashMap :=
  rebuild_with (insert fuel) m.

(** *** erase *)

(** The backward-shift loop of [erase]. *)
Fixpoint erase_shift (fuel : nat) (data : list HashTableData)
    (prev_position position : nat) : outcome (list HashTableData) :=
  match fuel with
  | 0 => OutOfFuel
  | S fuel' =>
    match data !! position with
    | None => Undefined
    | Some slot =>
      if negb (is_empty slot) && bool_decide (0 < distance slot) then
        match data !! prev_position with
        | None => Undefined
        | Some prev_slot =>
          let data1 :=
            <[prev_position :=
                mkSlot false (distance slot - 1) (iterator slot)]> data in
          match data1 !! position with
          | None => Undefined
          | Some slot1 =>
            let data2 :=
              <[position :=
                  mkSlot true (distance slot1) (iterator slot1)]> data1 in
            erase_shift fuel' data2 position (next_ (length data) position)
          end
        end
      else Done data
    end
  end.

Fixpoint erase_loop (fuel : nat) (m : HashMap) (key : KeyType)
    (position distance0 : nat) : outcome HashMap :=
  match fuel with
  | 0 => OutOfFuel
  | S fuel' =>
    match data_ m !! position with
    | None => Undefined
    | Some slot =>
      if is_empty slot then Done m
      else if decide (distance slot = distance0) then
        match deref (elemets_ m) (iterator slot) with
        | None => Undefined
        | Some kv =>
          if decide (kv.1 = key) then
            let data1 :=
              <[position :=
                  mkSlot true (distance slot) (iterator slot)]> (data_ m) in
            let* data' := erase_shift fuel' data1 position
                      (next_ (length (data_ m)) position) in
            Done {| hasher_ := hasher_ m; data_ := data';
                    size_ := size_ m - 1;
                    elemets_ := list_erase (elemets_ m) (iterator slot);
                    next_node_ := next_node_ m |}
          else erase_loop fuel' m key
                 (next_ (length (data_ m)) position) (S distance0)
        end
      else erase_loop fuel' m key
             (next_ (length (data_ m)) position) (S distance0)
    end
  end.

Definition erase (fuel : nat) (m : HashMap) (key : KeyType)
  : outcome HashMap :=
  if decide (size_ m = 0) then Done m
  else
    let* position := home (hasher_ m) (length (data_ m)) key in
    erase_loop fuel m key position 0.

(** *** find, operator[], at *)

(** [find] returns an iterator: [Some it] for a node, [None] for [end()]. *)
Fixpoint find_loop (fuel : nat) (m : HashMap) (key : KeyType)
    (position distance0 : nat) : outcome (option nat) :=
  match fuel with
  | 0 => OutOfFuel
  | S fuel' =>
    match data_ m !! position with
    | None => Undefined
    | Some slot =>
      if is_empty slot then Done None
      else if decide (distance slot = distance0) then
        match deref (elemets_ m) (iterator slot) with
        | None => Undefined
        | Some kv =>
          if decide (kv.1 = key) then Done (Some (iterator slot))
          else find_loop fuel' m key
                 (next_ (length (data_ m)) position) (S distance0)
        end
      else find_loop fuel' m key
             (next_ (length (data_ m)) position) (S distance0)
    end
  end.

Definition find (fuel : nat) (m : HashMap) (key : KeyType)
  : outcome (option nat) :=
  if decide (size_ m = 0) then Done None
  else
    let* position := home (hasher_ m) (length (data_ m)) key in
    find_loop fuel m key position 0.

(** [*find(key)]: the entry the returned iterator points to. *)
Definition find_entry (fuel : nat) (m : HashMap) (key : KeyType)
  : outcome (option (KeyType * ValueType)) :=
  let* it := find fuel m key in
  match it with
  | None => Done None
  | Some i =>
    match deref (elemets_ m) i with
    | None => Undefined
    | Some kv => Done (Some kv)
    end
  end.

(** [operator[]]: the map afterwards, the node whose value is returned by
    reference, and that value. *)
Definition index (fuel : nat) (m : HashMap) (key : KeyType)
  : outcome (HashMap * nat * ValueType) :=
  let* it := find fuel m key in
  match it with
  | Some i =>
    match deref (elemets_ m) i with
    | None => Undefined
    | Some kv => Done (m, i, kv.2)
    end
  | None =>
    let* m' := insert fuel m (key, ValueType_new) in
    let* it' := find fuel m' key in
    match it' with
    | None => Undefined
    | Some i =>
      match deref (elemets_ m') i with
      | None => Undefined
      | Some kv => Done (m', i, kv.2)
      end
    end
  end.

(** [at] is a const member: it yields a value or throws, and has no map to
    return. *)
Definition at_ (fuel : nat) (m : HashMap) (key : KeyType)
  : outcome ValueType :=
  let* it := find fuel m key in
  match it with
  | None => Throw out_of_range
  | Some i =>
    match deref (elemets_ m) i with
    | None => Undefined
    | Some kv => Done kv.2
    end
  end.

(** *** clear *)

(** The inner [while (!data_[position].is_empty)] loop. *)
Fixpoint clear_run (fuel : nat) (data : list HashTableData) (position : nat)
  : outcome (list HashTableData) :=
  match fuel with
  | 0 => OutOfFuel
  | S fuel' =>
    match data !! position with
    | None => Undefined
    | Some slot =>
      if is_empty slot then Done data
      else
        clear_run fuel'
          (<[position := mkSlot true (distance slot) (iterator slot)]> data)
          (next_ (length data) position)
    end
  end.

Definition clear_keys (fuel : nat) (hasher : KeyType → nat)
    (keys : list KeyType) (data : list HashTableData)
  : outcome (list HashTableData) :=
  foldl (λ acc key,
           let* d := acc in
           let* position := home hasher (length d) key in
           clear_run fuel d position)
    (Done data) keys.

Definition clear (fuel : nat) (m : HashMap) : outcome HashMap :=
  let* data' := clear_keys fuel (hasher_ m) ((λ n : node, n.2.1) <$> elemets_ m)
            (data_ m) in
  Done {| hasher_ := hasher_ m; data_ := data'; size_ := 0; elemets_ := [];
          next_node_ := next_node_ m |}.

(** *** Bulk construction and copy assignment *)

Definition insert_all (fuel : nat) (m : HashMap)
    (values : list (KeyType * ValueType)) : outcome HashMap :=
  foldl (λ acc value, let* m' := acc in insert fuel m' value) (Done m) values.

(** The range and initializer-list constructors. *)
Definition HashMap_of_list (fuel : nat) (hasher : KeyType → nat)
    (values : list (KeyType * ValueType)) : outcome HashMap :=
  insert_all fuel (reserve_ (HashMap_new hasher) (length values)) values.

(** The copy constructor. *)
Definition HashMap_copy (fuel : nat) (another : HashMap) : outcome HashMap :=
  insert_all fuel
    (reserve_ (HashMap_new (hasher_ another)) (size another))
    (entries another).

(** [operator=] between two distinct objects ([this != &another]). *)
Definition assign (fuel : nat) (m another : HashMap) : outcome HashMap :=
  let m1 := {| hasher_ := hasher_ another; data_ := data_ m;
               size_ := size_ m; elemets_ := elemets_ m;
               next_node_ := next_node_ m |} in
  insert_all fuel (reserve_ m1 (size another)) (entries another).

End HashMap.

Arguments HashMap : clear implicits.

(** * Verification *)

(** ** Walking around the probe index *)

(** The slot before [p], cyclically: the inverse of [next_]. *)
Definition pred_pos (cap p : nat) : nat :=
  if decide (p = 0) then cap - 1 else p - 1.

(** The position reached from hash value [a] after [i] calls of [next_]. *)
Definition walk (cap a i : nat) : nat := (a + i) mod cap.

Lemma walk_lt cap a i : 0 < cap → walk cap a i < cap.
Proof. intros. apply Nat.mod_upper_bound. lia. Qed.

Lemma walk_0 cap p : p < cap → walk cap p 0 = p.
Proof. intros. unfold walk. rewrite Nat.add_0_r. apply Nat.mod_small. lia. Qed.

Lemma mod_succ cap n : 0 < cap → S n mod cap = next_ cap (n mod cap).
Proof.
  intros Hc. unfold next_.
  pose proof (Nat.mod_upper_bound n cap ltac:(lia)) as Hlt.
  pose proof (Nat.div_mod_eq n cap) as Hn.
  case_decide as Hd.
  - symmetry. apply (Nat.mod_unique _ _ (S (n / cap)) 0); [lia|]. nia.
  - symmetry. apply (Nat.mod_unique _ _ (n / cap) (S (n mod cap))); [lia|]. nia.
Qed.

Lemma walk_next cap a i : 0 < cap → walk cap a (S i) = next_ cap (walk cap a i).
Proof. intros. unfold walk. rewrite Nat.add_succ_r. by apply mod_succ. Qed.

Lemma pred_next cap p : p < cap → pred_pos cap (next_ cap p) = p.
Proof. unfold pred_pos, next_. intros. repeat case_decide; lia. Qed.

Lemma next_pred cap p : p < cap → next_ cap (pred_pos cap p) = p.
Proof. unfold pred_pos, next_. intros. repeat case_decide; lia. Qed.

Lemma next_lt cap p : p < cap → next_ cap p < cap.
Proof. unfold next_. intros. case_decide; lia. Qed.

Lemma pred_lt cap p : p < cap → pred_pos cap p < cap.
Proof. unfold pred_pos. intros. case_decide; lia. Qed.

Lemma walk_pred cap a i : 0 < cap → pred_pos cap (walk cap a (S i)) = walk cap a i.
Proof. intros. rewrite walk_next by done. apply pred_next. by apply walk_lt. Qed.

Lemma walk_shift cap p j : p < cap → walk cap (next_ cap p) j = walk cap p (S j).
Proof.
  intros Hp. unfold walk, next_. case_decide as Hd.
  - replace (p + S j) with (j + 1 * cap) by lia.
    by rewrite Nat.Div0.mod_add.
  - f_equal. lia.
Qed.

Lemma walk_inj cap a i j : i < j → j - i < cap → walk cap a i ≠ walk cap a j.
Proof.
  unfold walk. intros Hij Hlt Heq.
  pose proof (Nat.div_mod_eq (a + i) cap) as H1.
  pose proof (Nat.div_mod_eq (a + j) cap) as H2.
  pose proof (Nat.mod_upper_bound (a + i) cap ltac:(lia)) as H3.
  rewrite Heq in H1.
  assert (Hd : cap * ((a + j) / cap) = cap * ((a + i) / cap) + (j - i)) by lia.
  assert (Hle : (a + i) / cap ≤ (a + j) / cap) by (apply Nat.Div0.div_le_mono; lia).
  assert (Hne: (a + j) / cap = (a + i) / cap ∨ (a + i) / cap < (a + j) / cap) by lia.
  destruct Hne as [He|Hl]; [rewrite He in Hd; lia|]. nia.
Qed.

Lemma walk_surj cap a e : e < cap → ∃ i, i < cap ∧ walk cap a i = e.
Proof.
  intros He. pose proof (Nat.mod_upper_bound a cap ltac:(lia)) as Hlt.
  pose proof (Nat.div_mod_eq a cap) as Ha.
  destruct (decide (a mod cap ≤ e)) as [Hle|Hgt].
  - exists (e - a mod cap). split; [lia|]. unfold walk.
    symmetry. apply (Nat.mod_unique _ _ (a / cap) e); [lia|]. lia.
  - exists (cap + e - a mod cap). split; [lia|]. unfold walk.
    symmetry. apply (Nat.mod_unique _ _ (S (a / cap)) e); [lia|]. nia.
Qed.

(** ** Invariants of the probe index *)

Section Index.

Context {KeyType ValueType : Type} `{EqDecision KeyType}.

Abbreviation node := (nat * (KeyType * ValueType))%type.
Abbreviation HashMap := (HashMap KeyType ValueType).

Implicit Types (data : list HashTableData) (elems : list node).
Implicit Types (h : KeyType → nat) (s t : HashTableData) (m : HashMap).

Definition occupied data (p : nat) s : Prop :=
  data !! p = Some s ∧ is_empty s = false.

Definition vacant data (p : nat) : Prop :=
  ∃ s, data !! p = Some s ∧ is_empty s = true.

(** The list node [it] is referenced from some occupied slot. *)
Definition in_index data (it : nat) : Prop :=
  ∃ p s, occupied data p s ∧ iterator s = it.

(** Number of occupied slots. *)
Definition occupied_count data : nat :=
  length (filter (λ s, is_empty s = false) data).

(** The Robin Hood invariant of the index [data] over the list [elems]:
    - every occupied slot refers to a live node and sits [distance] steps
      after the home position of that node's key;
    - a displaced slot follows an occupied slot that is displaced by at
      least one step less;
    - no key is held by two slots. *)
Record index_ok h elems data : Prop := {
  io_live : ∀ p s, occupied data p s →
    ∃ kv, deref elems (iterator s) = Some kv ∧
          walk (length data) (h kv.1) (distance s) = p;
  io_local : ∀ p s, occupied data p s → 0 < distance s →
    ∃ s', occupied data (pred_pos (length data) p) s' ∧
          distance s ≤ S (distance s');
  io_uniq : ∀ p q s t kv kv',
    occupied data p s → occupied data q t →
    deref elems (iterator s) = Some kv →
    deref elems (iterator t) = Some kv' →
    kv.1 = kv'.1 → p = q
}.

Lemma occupied_lt data p s : occupied data p s → p < length data.
Proof. intros [Hp _]. by eapply lookup_lt_Some. Qed.

Lemma vacant_lt data p : vacant data p → p < length data.
Proof. intros (s & Hp & _). by eapply lookup_lt_Some. Qed.

Lemma occupied_vacant data p s : occupied data p s → vacant data p → False.
Proof. intros [H1 H2] (s' & H3 & H4). congruence. Qed.

Lemma occupied_fun data p s t : occupied data p s → occupied data p t → s = t.
Proof. intros [H1 _] [H2 _]. congruence. Qed.

Lemma slot_cases data p :
  p < length data → vacant data p ∨ ∃ s, occupied data p s.
Proof.
  intros Hp. destruct (lookup_lt_is_Some_2 _ _ Hp) as [s Hs].
  destruct (is_empty s) eqn:He; [left | right]; exists s; by split.
Qed.

(** *** Writing one slot *)

Lemma occupied_insert_eq data p s :
  p < length data → is_empty s = false → occupied (<[p := s]> data) p s.
Proof. intros. split; [by apply list_lookup_insert_eq | done]. Qed.

Lemma occupied_insert_ne data p q s t :
  p ≠ q → occupied (<[p := s]> data) q t ↔ occupied data q t.
Proof. intros. unfold occupied. by rewrite list_lookup_insert_ne. Qed.

Lemma occupied_insert_inv data p q s t :
  occupied (<[p := s]> data) q t →
  (q = p ∧ t = s ∧ is_empty s = false) ∨ (q ≠ p ∧ occupied data q t).
Proof.
  intros Ho. destruct (decide (q = p)) as [->|Hne].
  - left. destruct Ho as [Hl He].
    assert (p < length data).
    { apply lookup_lt_Some in Hl. by rewrite length_insert in Hl. }
    rewrite list_lookup_insert_eq in Hl by done. by simplify_eq.
  - right. split; [done|]. by apply (occupied_insert_ne data p q s t).
Qed.

Lemma vacant_insert_ne data p q s :
  p ≠ q → vacant (<[p := s]> data) q ↔ vacant data q.
Proof. intros. unfold vacant. by rewrite list_lookup_insert_ne. Qed.

Lemma vacant_insert_eq data p s :
  p < length data → is_empty s = true → vacant (<[p := s]> data) p.
Proof. intros. exists s. split; [by apply list_lookup_insert_eq | done]. Qed.

Lemma occupied_count_insert data p s s0 :
  data !! p = Some s0 →
  occupied_count (<[p := s]> data) + (if is_empty s0 then 0 else 1)
  = occupied_count data + (if is_empty s then 0 else 1).
Proof.
  unfold occupied_count. revert p. induction data as [|x data IH]; intros p Hp.
  - done.
  - destruct p as [|p]; simpl in *.
    + simplify_eq. rewrite !filter_cons.
      destruct (is_empty s0), (is_empty s); repeat case_decide;
        simpl; try done; lia.
    + rewrite !filter_cons. specialize (IH p Hp).
      case_decide; simpl; lia.
Qed.

Lemma occupied_count_le data : occupied_count data ≤ length data.
Proof. apply length_filter. Qed.

Lemma occupied_count_replicate n :
  occupied_count (replicate n HashTableData_new) = 0.
Proof.
  unfold occupied_count. induction n as [|n IH]; [done|].
  simpl. rewrite filter_cons. by case_decide.
Qed.

Lemma exists_vacant data :
  occupied_count data < length data → ∃ p, vacant data p.
Proof.
  unfold occupied_count. induction data as [|x data IH]; simpl; [lia|].
  rewrite filter_cons. destruct (is_empty x) eqn:Hx.
  - intros _. exists 0, x. by split.
  - case_decide; [|done]. simpl. intros Hlt.
    destruct IH as [p (s & Hs & He)]; [lia|]. exists (S p), s. by split.
Qed.

(** *** Probe sequences *)

Lemma deref_key_walk h elems data p s kv :
  index_ok h elems data → occupied data p s →
  deref elems (iterator s) = Some kv →
  walk (length data) (h kv.1) (distance s) = p.
Proof.
  intros Hok Ho Hd. destruct (io_live _ _ _ Hok p s Ho) as (kv' & Hd' & Hw).
  by simplify_eq.
Qed.

(** Every slot between the home position of a stored key and the slot that
    holds it is occupied, by an entry displaced at least as far as the
    probe has walked. *)
Lemma probe_path_back h elems data p s kv :
  index_ok h elems data → occupied data p s →
  deref elems (iterator s) = Some kv →
  ∀ j, j ≤ distance s →
    ∃ t, occupied data (walk (length data) (h kv.1) (distance s - j)) t ∧
         distance s - j ≤ distance t.
Proof.
  intros Hok Ho Hd. induction j as [|j IH]; intros Hj.
  - exists s. rewrite Nat.sub_0_r. split; [|done].
    by rewrite (deref_key_walk h elems data p s kv).
  - destruct IH as (t & Ht & Hle); [lia|].
    destruct (io_local _ _ _ Hok _ _ Ht) as (t' & Ht' & Hle'); [lia|].
    exists t'. split; [|lia].
    assert (Hcap : 0 < length data) by (apply occupied_lt in Ho; lia).
    replace (distance s - j) with (S (distance s - S j)) in Ht' by lia.
    by rewrite walk_pred in Ht'.
Qed.

Lemma probe_path h elems data p s kv i :
  index_ok h elems data → occupied data p s →
  deref elems (iterator s) = Some kv → i ≤ distance s →
  ∃ t, occupied data (walk (length data) (h kv.1) i) t ∧ i ≤ distance t.
Proof.
  intros Hok Ho Hd Hi.
  destruct (probe_path_back h elems data p s kv Hok Ho Hd (distance s - i))
    as (t & Ht & Hle); [lia|].
  replace (distance s - (distance s - i)) with i in * by lia. eauto.
Qed.

(** With one vacant slot in the index, displacements stay below the
    capacity. *)
Lemma distance_lt_capacity h elems data p s e :
  index_ok h elems data → occupied data p s → vacant data e →
  distance s < length data.
Proof.
  intros Hok Ho Hv. destruct (io_live _ _ _ Hok p s Ho) as (kv & Hd & _).
  destruct (decide (distance s < length data)) as [|Hge]; [done|].
  destruct (walk_surj (length data) (h kv.1) e) as (i & Hi & Hw).
  { by eapply vacant_lt. }
  destruct (probe_path h elems data p s kv i Hok Ho Hd) as (t & Ht & _);
    [lia|].
  rewrite Hw in Ht. destruct (occupied_vacant _ _ _ Ht Hv).
Qed.

(** *** find *)

Lemma find_loop_present m key x s kv e :
  index_ok (hasher_ m) (elemets_ m) (data_ m) →
  occupied (data_ m) x s → deref (elemets_ m) (iterator s) = Some kv →
  kv.1 = key → vacant (data_ m) e →
  ∀ n i fuel, i + n = distance s → n < fuel →
    find_loop fuel m key (walk (length (data_ m)) (hasher_ m key) i) i
    = Done (Some (iterator s)).
Proof.
  intros Hok Ho Hd Hk Hv.
  assert (Hcap : 0 < length (data_ m)) by (apply occupied_lt in Ho; lia).
  pose proof (distance_lt_capacity _ _ _ _ _ _ Hok Ho Hv) as Hlt.
  induction n as [|n IH]; intros i fuel Hi Hf;
    (destruct fuel as [|fuel]; [lia|]); simpl.
  - assert (i = distance s) as -> by lia.
    rewrite <- Hk, (deref_key_walk _ _ _ _ _ _ Hok Ho Hd).
    destruct Ho as [-> ->]. rewrite decide_True by done.
    rewrite Hd. by rewrite decide_True.
  - destruct (probe_path _ _ _ _ _ _ i Hok Ho Hd) as (t & Ht & Hle); [lia|].
    rewrite Hk in Ht. pose proof Ht as [-> ->].
    rewrite <- walk_next by done.
    case_decide as Hdist; [|apply IH; lia].
    destruct (io_live _ _ _ Hok _ _ Ht) as (kv' & Hd' & _). rewrite Hd'.
    case_decide as Hkey; [|apply IH; lia].
    exfalso. assert (Heq : walk (length (data_ m)) (hasher_ m key) i = x).
    { eapply (io_uniq _ _ _ Hok); eauto. congruence. }
    rewrite <- (deref_key_walk _ _ _ _ _ _ Hok Ho Hd), Hk in Heq.
    revert Heq. apply walk_inj; lia.
Qed.

Lemma find_loop_absent m key :
  index_ok (hasher_ m) (elemets_ m) (data_ m) →
  (∀ p s kv, occupied (data_ m) p s →
     deref (elemets_ m) (iterator s) = Some kv → kv.1 ≠ key) →
  ∀ j p d fuel, p < length (data_ m) →
    vacant (data_ m) (walk (length (data_ m)) p j) → j < fuel →
    find_loop fuel m key p d = Done None.
Proof.
  intros Hok Habs. induction j as [|j IH]; intros p d fuel Hp Hv Hf;
    (destruct fuel as [|fuel]; [lia|]); simpl.
  - rewrite walk_0 in Hv by done. by destruct Hv as (s & -> & ->).
  - destruct (slot_cases _ _ Hp) as [(s & -> & ->)|(s & Hs)]; [done|].
    pose proof Hs as [-> ->].
    rewrite <- walk_shift in Hv by done.
    pose proof (next_lt _ _ Hp) as Hn.
    case_decide; [|apply IH; [done..|lia]].
    destruct (io_live _ _ _ Hok _ _ Hs) as (kv & Hd & _). rewrite Hd.
    rewrite decide_False by eauto. apply IH; [done..|lia].
Qed.

(** *** The probe loop of insert *)

(** The key of the candidate is already stored: the loop reaches the slot
    that holds it without a single swap and returns there. *)
Lemma insert_loop_duplicate h elems data x s kv cur kvc e :
  index_ok h elems data →
  occupied data x s → deref elems (iterator s) = Some kv →
  deref elems cur = Some kvc → kv.1 = kvc.1 → vacant data e →
  ∀ n i fuel, i + n = distance s → n < fuel →
    insert_loop fuel elems data (walk (length data) (h kvc.1) i) i cur
    = Done data.
Proof.
  intros Hok Ho Hd Hc Hk Hv.
  assert (Hcap : 0 < length data) by (apply occupied_lt in Ho; lia).
  pose proof (distance_lt_capacity _ _ _ _ _ _ Hok Ho Hv) as Hlt.
  induction n as [|n IH]; intros i fuel Hi Hf;
    (destruct fuel as [|fuel]; [lia|]); simpl.
  - assert (i = distance s) as -> by lia.
    rewrite <- Hk, (deref_key_walk _ _ _ _ _ _ Hok Ho Hd).
    destruct Ho as [-> ->]. rewrite Hd, Hc. by rewrite decide_True.
  - destruct (probe_path _ _ _ _ _ _ i Hok Ho Hd) as (t & Ht & Hle); [lia|].
    rewrite Hk in Ht. pose proof Ht as [-> ->].
    destruct (io_live _ _ _ Hok _ _ Ht) as (kv' & Hd' & _). rewrite Hd', Hc.
    rewrite <- walk_next by done.
    case_decide as Hkey.
    + exfalso. assert (Heq : walk (length data) (h kvc.1) i = x).
      { eapply (io_uniq _ _ _ Hok); eauto. congruence. }
      rewrite <- (deref_key_walk _ _ _ _ _ _ Hok Ho Hd), Hk in Heq.
      revert Heq. apply walk_inj; lia.
    + rewrite decide_False by lia. apply IH; lia.
Qed.

(** The state of the probe loop while the candidate's key is not stored. *)
Definition candidate_ok h elems data (p d cur : nat) : Prop :=
  ∃ kv, deref elems cur = Some kv ∧
    walk (length data) (h kv.1) d = p ∧
    (∀ q t kv', occupied data q t →
       deref elems (iterator t) = Some kv' → kv'.1 ≠ kv.1) ∧
    (0 < d → ∃ s', occupied data (pred_pos (length data) p) s' ∧
                   d ≤ S (distance s')).

Lemma index_ok_write h elems data p d cur :
  index_ok h elems data → candidate_ok h elems data p d cur →
  vacant data p ∨ (∃ s0, occupied data p s0 ∧ distance s0 ≤ d) →
  index_ok h elems (<[p := mkSlot false d cur]> data).
Proof.
  intros Hok (kv & Hc & Hw & Hfresh & Hloc) Hp.
  assert (Hlt : p < length data).
  { destruct Hp as [Hv|(s0 & Hs0 & _)];
      [by eapply vacant_lt | by eapply occupied_lt]. }
  split; rewrite ?length_insert.
  - intros q t Hq. apply occupied_insert_inv in Hq as [(-> & -> & _)|[Hne Hq]].
    + exists kv. by split.
    + by apply (io_live _ _ _ Hok).
  - intros q t Hq Hpos.
    apply occupied_insert_inv in Hq as [(-> & -> & _)|[Hne Hq]]; simpl in *.
    + destruct (Hloc Hpos) as (s' & Hs' & Hle).
      destruct (decide (pred_pos (length data) p = p)) as [Heq|Hneq].
      * rewrite Heq. eexists. split; [by apply occupied_insert_eq|]. simpl. lia.
      * exists s'. split; [|done]. by apply occupied_insert_ne.
    + destruct (io_local _ _ _ Hok _ _ Hq Hpos) as (s' & Hs' & Hle).
      destruct (decide (pred_pos (length data) q = p)) as [Heq|Hneq].
      * rewrite Heq in *. eexists. split; [by apply occupied_insert_eq|].
        simpl. destruct Hp as [Hv|(s0 & Hs0 & Hle0)].
        -- destruct (occupied_vacant _ _ _ Hs' Hv).
        -- rewrite (occupied_fun _ _ _ _ Hs' Hs0) in Hle. lia.
      * exists s'. split; [|done]. by apply occupied_insert_ne.
  - intros q1 q2 t1 t2 kv1 kv2 H1 H2 Hd1 Hd2 Hk.
    apply occupied_insert_inv in H1 as [(-> & -> & _)|[Hne1 H1]];
      apply occupied_insert_inv in H2 as [(-> & -> & _)|[Hne2 H2]];
      simpl in *; simplify_eq.
    + done.
    + destruct (Hfresh _ _ _ H2 Hd2). congruence.
    + destruct (Hfresh _ _ _ H1 Hd1). congruence.
    + by eapply (io_uniq _ _ _ Hok).
Qed.

Lemma in_index_write data p s s0 it :
  data !! p = Some s0 → is_empty s = false →
  (in_index (<[p := s]> data) it ∨ (is_empty s0 = false ∧ it = iterator s0))
  ↔ (in_index data it ∨ it = iterator s).
Proof.
  intros Hp Hs. assert (Hlt : p < length data) by by eapply lookup_lt_Some.
  split.
  - intros [(q & t & Hq & Hit)|[He ->]].
    + apply occupied_insert_inv in Hq as [(-> & -> & _)|[Hne Hq]];
        [by right|]. left. by exists q, t.
    + left. by exists p, s0.
  - intros [(q & t & Hq & Hit)| ->].
    + destruct (decide (q = p)) as [->|Hne].
      * right. destruct Hq as [Hq He]. by simplify_eq.
      * left. exists q, t. split; [|done]. by apply occupied_insert_ne.
    + left. exists p, s. split; [|done]. by apply occupied_insert_eq.
Qed.

(** The key of the candidate is not stored: the loop ends at the first
    vacant slot, with every entry it met still in the index. *)
Lemma insert_loop_fresh h elems :
  ∀ j data p d cur,
    index_ok h elems data → candidate_ok h elems data p d cur →
    vacant data (walk (length data) p j) → j < length data →
    ∃ data',
      (∀ fuel, j < fuel → insert_loop fuel elems data p d cur = Done data') ∧
      length data' = length data ∧
      index_ok h elems data' ∧
      occupied_count data' = S (occupied_count data) ∧
      (∀ it, in_index data' it ↔ in_index data it ∨ it = cur).
Proof.
  assert (Hplace : ∀ data p d cur,
    index_ok h elems data → candidate_ok h elems data p d cur →
    vacant data p →
    ∃ data',
      (∀ fuel, 0 < fuel → insert_loop fuel elems data p d cur = Done data') ∧
      length data' = length data ∧
      index_ok h elems data' ∧
      occupied_count data' = S (occupied_count data) ∧
      (∀ it, in_index data' it ↔ in_index data it ∨ it = cur)).
  { intros data p d cur Hok Hc Hv.
    exists (<[p := mkSlot false d cur]> data). split_and!.
    - intros [|fuel] Hf; [lia|]. simpl. by destruct Hv as (s & -> & ->).
    - by rewrite length_insert.
    - apply index_ok_write; auto.
    - destruct Hv as (s & Hs & He).
      pose proof (occupied_count_insert data p (mkSlot false d cur) s Hs) as Hn.
      rewrite He in Hn. simpl in Hn. lia.
    - intros it. destruct Hv as (s & Hs & He).
      pose proof (in_index_write data p (mkSlot false d cur) s it Hs eq_refl)
        as Hw. simpl in Hw. rewrite <- Hw. split; [tauto|].
      intros [?|[? _]]; [done|congruence]. }
  induction j as [|j IH]; intros data p d cur Hok Hc Hv Hj.
  { assert (Hp : p < length data).
    { destruct Hc as (kv & _ & <- & _). apply walk_lt. lia. }
    rewrite walk_0 in Hv by done.
    destruct (Hplace data p d cur Hok Hc Hv) as (data' & Hrun & Hrest).
    exists data'. split; [|done]. intros fuel Hf. apply Hrun. lia. }
  assert (Hp : p < length data).
  { destruct Hc as (kv & _ & <- & _). apply walk_lt. lia. }
  destruct (slot_cases _ _ Hp) as [Hvp|(s0 & Hs0)].
  { destruct (Hplace data p d cur Hok Hc Hvp) as (data' & Hrun & Hrest).
    exists data'. split; [|done]. intros fuel Hf. apply Hrun. lia. }
  pose proof Hc as (kv & Hcur & Hw & Hfresh & Hloc).
  destruct (io_live _ _ _ Hok _ _ Hs0) as (kv0 & Hd0 & Hw0).
  pose proof (Hfresh _ _ _ Hs0 Hd0) as Hkey.
  assert (Hne : walk (length data) p (S j) ≠ p).
  { rewrite <- (walk_0 (length data) p) at 2 by done.
    apply not_eq_sym, walk_inj; lia. }
  destruct (decide (distance s0 < d)) as [Hswap|Hkeep].
  - set (data1 := <[p := mkSlot false d cur]> data).
    assert (Hlen1 : length data1 = length data) by apply length_insert.
    assert (Hok1 : index_ok h elems data1).
    { apply index_ok_write; auto. right. exists s0. split; [done|lia]. }
    destruct (IH data1 (next_ (length data) p) (S (distance s0)) (iterator s0))
      as (data' & Hrun & Hlen & Hok' & Hcnt & Hin).
    + done.
    + exists kv0. rewrite Hlen1. split_and!.
      * done.
      * rewrite walk_next by lia. by rewrite Hw0.
      * intros q t kv' Hq Hdq.
        apply occupied_insert_inv in Hq as [(-> & -> & _)|[Hneq Hq]];
          simpl in *.
        -- simplify_eq. congruence.
        -- intros Hk. apply Hneq. by eapply (io_uniq _ _ _ Hok).
      * intros _. rewrite pred_next by done.
        eexists. split; [by apply occupied_insert_eq|]. simpl. lia.
    + rewrite Hlen1, walk_shift by done. by apply vacant_insert_ne.
    + lia.
    + exists data'. split_and!.
      * intros [|fuel] Hf; [lia|]. simpl.
        destruct Hs0 as [-> ->]. rewrite Hd0, Hcur.
        rewrite decide_False by done. rewrite decide_True by done.
        apply Hrun. lia.
      * congruence.
      * done.
      * rewrite Hcnt. f_equal. destruct Hs0 as [Hl He].
        pose proof (occupied_count_insert data p (mkSlot false d cur) s0 Hl)
          as Hn. rewrite He in Hn. simpl in Hn. unfold data1. lia.
      * intros it. rewrite Hin. destruct Hs0 as [Hl He].
        pose proof (in_index_write data p (mkSlot false d cur) s0 it Hl eq_refl)
          as Hw'. simpl in Hw'. rewrite <- Hw'. unfold data1.
        split; [|tauto]. intros [?| ->]; [by left|by right].
  - destruct (IH data (next_ (length data) p) (S d) cur)
      as (data' & Hrun & Hrest).
    + done.
    + exists kv. split_and!; [done| |done|].
      * rewrite walk_next by lia. by rewrite Hw.
      * intros _. rewrite pred_next by done. exists s0. split; [done|lia].
    + by rewrite walk_shift.
    + lia.
    + exists data'. split; [|done].
      intros [|fuel] Hf; [lia|]. simpl.
      destruct Hs0 as [-> ->]. rewrite Hd0, Hcur.
      rewrite decide_False by done. rewrite decide_False by done.
      apply Hrun. lia.
Qed.

(** *** The backward shift of erase *)

Ltac pos_solve :=
  unfold next_, pred_pos in *; repeat case_decide; lia.

(** The state of the backward-shift loop: the slot [hole] has just been
    vacated, and only the slot after it may be displaced too far. *)
Record shift_ok h elems data (hole : nat) : Prop := {
  so_hole : vacant data hole;
  so_live : ∀ p s, occupied data p s →
    ∃ kv, deref elems (iterator s) = Some kv ∧
          walk (length data) (h kv.1) (distance s) = p;
  so_local : ∀ p s, occupied data p s → p ≠ next_ (length data) hole →
    0 < distance s →
    ∃ s', occupied data (pred_pos (length data) p) s' ∧
          distance s ≤ S (distance s');
  so_uniq : ∀ p q s t kv kv',
    occupied data p s → occupied data q t →
    deref elems (iterator s) = Some kv →
    deref elems (iterator t) = Some kv' →
    kv.1 = kv'.1 → p = q;
  so_next : ∀ s, occupied data (next_ (length data) hole) s →
    2 ≤ distance s →
    ∃ s', occupied data (pred_pos (length data) hole) s' ∧
          distance s ≤ S (S (distance s'))
}.

Lemma shift_ok_start h elems data x s :
  index_ok h elems data → occupied data x s →
  shift_ok h elems (<[x := mkSlot true (distance s) (iterator s)]> data) x.
Proof.
  intros Hok Hx. pose proof (occupied_lt _ _ _ Hx) as Hlt.
  split; rewrite ?length_insert.
  - by apply vacant_insert_eq.
  - intros p t Hp.
    apply occupied_insert_inv in Hp as [(_ & _ & ?)|[Hne Hp]]; [done|].
    by apply (io_live _ _ _ Hok).
  - intros p t Hp Hnx Hpos.
    apply occupied_insert_inv in Hp as [(_ & _ & ?)|[Hne Hp]]; [done|].
    destruct (io_local _ _ _ Hok _ _ Hp Hpos) as (s' & Hs' & Hle).
    exists s'. split; [|done]. apply occupied_insert_ne; [|done].
    apply occupied_lt in Hp. pos_solve.
  - intros p q t1 t2 kv kv' Hp Hq.
    apply occupied_insert_inv in Hp as [(_ & _ & ?)|[Hnep Hp]]; [done|].
    apply occupied_insert_inv in Hq as [(_ & _ & ?)|[Hneq Hq]]; [done|].
    by apply (io_uniq _ _ _ Hok).
  - intros t Ht Hd.
    apply occupied_insert_inv in Ht as [(_ & _ & ?)|[Hne Ht]]; [done|].
    destruct (io_local _ _ _ Hok _ _ Ht) as (s1 & Hs1 & Hle1); [lia|].
    rewrite pred_next in Hs1 by done.
    rewrite (occupied_fun _ _ _ _ Hs1 Hx) in Hle1.
    destruct (io_local _ _ _ Hok _ _ Hx) as (s2 & Hs2 & Hle2); [lia|].
    exists s2. split; [|lia]. apply occupied_insert_ne; [|done].
    pos_solve.
Qed.

Lemma shift_ok_stop h elems data hole :
  shift_ok h elems data hole →
  (vacant data (next_ (length data) hole) ∨
   ∃ s, occupied data (next_ (length data) hole) s ∧ distance s = 0) →
  index_ok h elems data.
Proof.
  intros Hso Hstop. split.
  - apply (so_live _ _ _ _ Hso).
  - intros p s Hp Hpos.
    destruct (decide (p = next_ (length data) hole)) as [->|Hne].
    + destruct Hstop as [Hv|(s' & Hs' & Hz)].
      * destruct (occupied_vacant _ _ _ Hp Hv).
      * rewrite (occupied_fun _ _ _ _ Hp Hs') in Hpos. lia.
    + by apply (so_local _ _ _ _ Hso).
  - apply (so_uniq _ _ _ _ Hso).
Qed.

Lemma shift_ok_step h elems data hole s :
  shift_ok h elems data hole → 3 ≤ length data →
  occupied data (next_ (length data) hole) s → 0 < distance s →
  shift_ok h elems
    (<[next_ (length data) hole :=
         mkSlot true (distance s) (iterator s)]>
       (<[hole := mkSlot false (distance s - 1) (iterator s)]> data))
    (next_ (length data) hole).
Proof.
  intros Hso Hcap Hs Hpos.
  pose proof (vacant_lt _ _ (so_hole _ _ _ _ Hso)) as Hh.
  pose proof (next_lt _ _ Hh) as Hq.
  set (q0 := next_ (length data) hole) in *.
  assert (Hqh : q0 ≠ hole) by (unfold q0; pos_solve).
  assert (Hinv : ∀ p t,
    occupied (<[q0 := mkSlot true (distance s) (iterator s)]>
      (<[hole := mkSlot false (distance s - 1) (iterator s)]> data)) p t →
    (p = hole ∧ t = mkSlot false (distance s - 1) (iterator s)) ∨
    (p ≠ hole ∧ p ≠ q0 ∧ occupied data p t)).
  { intros p t Hp.
    apply occupied_insert_inv in Hp as [(_ & _ & ?)|[Hne Hp]]; [done|].
    apply occupied_insert_inv in Hp as [(-> & -> & _)|[Hne' Hp]]; auto. }
  assert (Hkeep : ∀ p t, p ≠ hole → p ≠ q0 → occupied data p t →
    occupied (<[q0 := mkSlot true (distance s) (iterator s)]>
      (<[hole := mkSlot false (distance s - 1) (iterator s)]> data)) p t).
  { intros p t H1 H2 Hp. apply occupied_insert_ne; [done|].
    by apply occupied_insert_ne. }
  assert (Hmoved :
    occupied (<[q0 := mkSlot true (distance s) (iterator s)]>
      (<[hole := mkSlot false (distance s - 1) (iterator s)]> data)) hole
      (mkSlot false (distance s - 1) (iterator s))).
  { apply occupied_insert_ne; [done|]. by apply occupied_insert_eq. }
  destruct (so_live _ _ _ _ Hso _ _ Hs) as (kvs & Hds & Hws).
  split; rewrite ?length_insert.
  - apply vacant_insert_eq; [by rewrite length_insert | done].
  - intros p t Hp. apply Hinv in Hp as [[-> ->]|(H1 & H2 & Hp)]; simpl.
    + exists kvs. split; [done|].
      replace (distance s) with (S (distance s - 1)) in Hws by lia.
      rewrite <- (walk_pred (length data) (h kvs.1) (distance s - 1)) by lia.
      rewrite Hws. unfold q0. by apply pred_next.
    + by apply (so_live _ _ _ _ Hso).
  - intros p t Hp Hnn Hpt.
    apply Hinv in Hp as [[-> ->]|(H1 & H2 & Hp)]; simpl in *.
    + destruct (so_next _ _ _ _ Hso _ Hs) as (s' & Hs' & Hle); [lia|].
      exists s'. split; [|lia].
      pose proof (occupied_lt _ _ _ Hs') as Hs'lt.
      apply Hkeep; [unfold q0 in *; pos_solve..|done].
    + destruct (so_local _ _ _ _ Hso _ _ Hp) as (s' & Hs' & Hle);
        [done..|].
      exists s'. split; [|done].
      pose proof (occupied_lt _ _ _ Hp) as Hplt.
      apply Hkeep; [unfold q0 in *; pos_solve..|done].
  - intros p1 p2 t1 t2 kv kv' Hp1 Hp2 Hd1 Hd2 Hk.
    apply Hinv in Hp1 as [[-> ->]|(H1 & H2 & Hp1)];
      apply Hinv in Hp2 as [[-> ->]|(H3 & H4 & Hp2)]; simpl in *.
    + done.
    + exfalso. apply H4. symmetry.
      by eapply (so_uniq _ _ _ _ Hso _ _ _ _ _ _ Hs Hp2).
    + exfalso. apply H2.
      by eapply (so_uniq _ _ _ _ Hso _ _ _ _ _ _ Hp1 Hs).
    + by eapply (so_uniq _ _ _ _ Hso).
  - intros t Ht Hd2.
    apply Hinv in Ht as [[Heq _]|(H1 & H2 & Ht)];
      [unfold q0 in *; pos_solve|].
    destruct (so_local _ _ _ _ Hso _ _ Ht) as (s' & Hs' & Hle);
      [unfold q0 in *; pos_solve|lia|].
    rewrite pred_next in Hs' by done.
    rewrite (occupied_fun _ _ _ _ Hs' Hs) in Hle.
    assert (Hpq : pred_pos (length data) q0 = hole)
      by (unfold q0; by apply pred_next).
    rewrite Hpq. eexists. split; [apply Hmoved|]. simpl. lia.
Qed.

Lemma erase_shift_spec h elems :
  ∀ j data hole,
    shift_ok h elems data hole →
    vacant data (walk (length data) (next_ (length data) hole) j) →
    j + 2 ≤ length data →
    ∃ data',
      (∀ fuel, j < fuel →
         erase_shift fuel data hole (next_ (length data) hole) = Done data') ∧
      length data' = length data ∧
      index_ok h elems data' ∧
      occupied_count data' = occupied_count data ∧
      (∀ it, in_index data' it ↔ in_index data it).
Proof.
  assert (Hstop : ∀ data hole,
    shift_ok h elems data hole →
    (vacant data (next_ (length data) hole) ∨
     ∃ s, occupied data (next_ (length data) hole) s ∧ distance s = 0) →
    ∃ data',
      (∀ fuel, 0 < fuel →
         erase_shift fuel data hole (next_ (length data) hole) = Done data') ∧
      length data' = length data ∧
      index_ok h elems data' ∧
      occupied_count data' = occupied_count data ∧
      (∀ it, in_index data' it ↔ in_index data it)).
  { intros data hole Hso Hcase. exists data. split_and!; try done.
    - intros [|fuel] Hf; [lia|]. simpl.
      destruct Hcase as [(s & -> & ->)|(s & [-> ->] & Hz)]; [done|].
      simpl. rewrite bool_decide_eq_false_2 by lia. done.
    - by eapply shift_ok_stop. }
  induction j as [|j IH]; intros data hole Hso Hv Hj.
  { pose proof (vacant_lt _ _ (so_hole _ _ _ _ Hso)) as Hh.
    rewrite walk_0 in Hv by (by apply next_lt).
    destruct (Hstop data hole Hso) as (data' & Hrun & Hrest); [by left|].
    exists data'. split; [|done]. intros fuel Hf. apply Hrun. lia. }
  pose proof (vacant_lt _ _ (so_hole _ _ _ _ Hso)) as Hh.
  pose proof (next_lt _ _ Hh) as Hq.
  destruct (slot_cases _ _ Hq) as [Hvq|(s & Hs)].
  { destruct (Hstop data hole Hso) as (data' & Hrun & Hrest); [by left|].
    exists data'. split; [|done]. intros fuel Hf. apply Hrun. lia. }
  destruct (decide (distance s = 0)) as [Hz|Hnz].
  { destruct (Hstop data hole Hso) as (data' & Hrun & Hrest);
      [right; by exists s|].
    exists data'. split; [|done]. intros fuel Hf. apply Hrun. lia. }
  set (q0 := next_ (length data) hole) in *.
  set (data1 := <[hole := mkSlot false (distance s - 1) (iterator s)]> data).
  set (data2 := <[q0 := mkSlot true (distance s) (iterator s)]> data1).
  assert (Hlen2 : length data2 = length data).
  { unfold data2, data1. by rewrite !length_insert. }
  assert (Hqh : q0 ≠ hole) by (unfold q0; pos_solve).
  destruct (IH data2 q0) as (data' & Hrun & Hlen & Hok' & Hcnt & Hin).
  - apply shift_ok_step; [done|lia|done|lia].
  - rewrite Hlen2, walk_shift by done.
    assert (Hne1 : walk (length data) q0 (S j) ≠ q0).
    { rewrite <- (walk_0 (length data) q0) at 2 by done.
      apply not_eq_sym, walk_inj; lia. }
    assert (Hne2 : walk (length data) q0 (S j) ≠ hole).
    { unfold q0. rewrite walk_shift by done.
      rewrite <- (walk_0 (length data) hole) at 2 by done.
      apply not_eq_sym, walk_inj; lia. }
    apply vacant_insert_ne; [done|]. by apply vacant_insert_ne.
  - lia.
  - destruct (so_hole _ _ _ _ Hso) as (s0 & Hs0 & He0).
    exists data'. split_and!.
    + intros [|fuel] Hf; [lia|]. simpl. fold q0.
      destruct Hs as [Hl He]. rewrite Hl, He. simpl.
      rewrite bool_decide_eq_true_2 by lia. rewrite Hs0.
      fold data1. replace (data1 !! q0) with (Some s)
        by (unfold data1; by rewrite list_lookup_insert_ne).
      fold data2. rewrite <- Hlen2. apply Hrun. lia.
    + congruence.
    + done.
    + rewrite Hcnt.
      pose proof (occupied_count_insert data hole
        (mkSlot false (distance s - 1) (iterator s)) s0 Hs0) as H1.
      rewrite He0 in H1. simpl in H1. fold data1 in H1.
      assert (Hl1 : data1 !! q0 = Some s).
      { unfold data1. rewrite list_lookup_insert_ne by done. apply Hs. }
      pose proof (occupied_count_insert data1 q0
        (mkSlot true (distance s) (iterator s)) s Hl1) as H2.
      destruct Hs as [_ He]. rewrite He in H2. simpl in H2.
      fold data2 in H2. lia.
    + intros it. rewrite Hin. split.
      * intros (p & t & Hp & Hit).
        apply occupied_insert_inv in Hp as [(_ & _ & ?)|[Hne Hp]]; [done|].
        apply occupied_insert_inv in Hp as [(-> & -> & _)|[Hne' Hp]].
        -- by exists q0, s.
        -- by exists p, t.
      * intros (p & t & Hp & Hit).
        destruct (decide (p = q0)) as [->|Hne].
        -- rewrite (occupied_fun _ _ _ _ Hp Hs) in Hit.
           exists hole, (mkSlot false (distance s - 1) (iterator s)).
           split; [|done]. apply occupied_insert_ne; [done|].
           by apply occupied_insert_eq.
        -- exists p, t. split; [|done].
           assert (p ≠ hole).
           { intros ->. eapply occupied_vacant; [done|].
             apply (so_hole _ _ _ _ Hso). }
           apply occupied_insert_ne; [done|]. by apply occupied_insert_ne.
Qed.

(** ** The linked list: nodes and their addresses *)

Lemma deref_Some_elem elems it kv :
  deref elems it = Some kv → (it, kv) ∈ elems.
Proof.
  induction elems as [|[i e] elems IH]; simpl; [done|].
  case_decide; simpl in *.
  - intros. simplify_eq. apply list_elem_of_here.
  - intros. apply list_elem_of_further. auto.
Qed.

Lemma deref_None elems it :
  (∀ n, n ∈ elems → n.1 ≠ it) → deref elems it = None.
Proof.
  induction elems as [|[i e] elems IH]; simpl; [done|]. intros Hn.
  rewrite decide_False.
  - apply IH. intros n Hin. apply Hn. by apply list_elem_of_further.
  - apply (Hn (i, e)). apply list_elem_of_here.
Qed.

Lemma deref_app_l elems elems' it kv :
  deref elems it = Some kv → deref (elems ++ elems') it = Some kv.
Proof.
  induction elems as [|[i e] elems IH]; simpl; [done|]. by case_decide.
Qed.

Lemma deref_app_r elems elems' it :
  deref elems it = None → deref (elems ++ elems') it = deref elems' it.
Proof.
  induction elems as [|[i e] elems IH]; simpl; [done|]. by case_decide.
Qed.

Lemma deref_erase elems it it' :
  it' ≠ it → deref (list_erase elems it) it' = deref elems it'.
Proof.
  intros Hne. unfold list_erase.
  induction elems as [|[i e] elems IH]; simpl; [done|].
  rewrite filter_cons. simpl. destruct (decide (i ≠ it)) as [Hi|Hi].
  - simpl. by rewrite IH.
  - rewrite IH. rewrite decide_False; [done|]. simpl.
    destruct (decide (i = it)); [congruence|done].
Qed.

Lemma deref_erase_same elems it : deref (list_erase elems it) it = None.
Proof.
  apply deref_None. intros n Hn. unfold list_erase in Hn.
  by apply list_elem_of_filter in Hn as [? _].
Qed.

Lemma list_erase_length elems it kv :
  NoDup elems.*1 → deref elems it = Some kv →
  S (length (list_erase elems it)) = length elems.
Proof.
  unfold list_erase. induction elems as [|[i e] elems IH]; simpl; [done|].
  intros Hnd Hd. apply NoDup_cons in Hnd as [Hni Hnd].
  rewrite filter_cons. simpl. case_decide as Hi; simpl in *.
  - subst i. rewrite decide_False by (intros ?; done).
    f_equal. clear IH Hd Hnd.
    induction elems as [|[j e'] elems IH]; [done|].
    rewrite filter_cons. simpl in *. rewrite decide_True.
    + simpl. f_equal. apply IH. intros Hin. apply Hni.
      by apply list_elem_of_further.
    + intros ->. apply Hni. apply list_elem_of_here.
  - rewrite decide_True by done. simpl. f_equal. by apply IH.
Qed.

(** The first value bound to [k] in a list of entries. *)
Fixpoint assoc_first (l : list (KeyType * ValueType)) (k : KeyType)
  : option ValueType :=
  match l with
  | [] => None
  | kv :: l' => if decide (kv.1 = k) then Some kv.2 else assoc_first l' k
  end.

Lemma assoc_first_app l l' k :
  assoc_first (l ++ l') k =
  match assoc_first l k with
  | Some v => Some v
  | None => assoc_first l' k
  end.
Proof. induction l as [|kv l IH]; simpl; [done|]. by case_decide. Qed.

Lemma assoc_first_Some_elem l k v : assoc_first l k = Some v → (k, v) ∈ l.
Proof.
  induction l as [|[k' v'] l IH]; simpl; [done|]. case_decide; simpl in *.
  - intros. simplify_eq. apply list_elem_of_here.
  - intros. apply list_elem_of_further. auto.
Qed.

Lemma assoc_first_None l k :
  assoc_first l k = None ↔ ∀ v, (k, v) ∉ l.
Proof.
  induction l as [|[k' v'] l IH]; simpl.
  - split; [|done]. intros _ v Hv. by apply elem_of_nil in Hv.
  - case_decide; simpl in *.
    + split; [done|]. intros Hn. destruct (Hn v'). subst.
      apply list_elem_of_here.
    + rewrite IH. split.
      * intros Hn v Hv. apply elem_of_cons in Hv as [?|?];
          [simplify_eq|by apply (Hn v)].
      * intros Hn v Hv. apply (Hn v). by apply list_elem_of_further.
Qed.

Lemma assoc_first_unique l k v :
  (k, v) ∈ l → (∀ v', (k, v') ∈ l → v' = v) → assoc_first l k = Some v.
Proof.
  intros Hin Hu. destruct (assoc_first l k) as [v'|] eqn:Ha.
  - f_equal. apply Hu. by apply assoc_first_Some_elem.
  - rewrite assoc_first_None in Ha. destruct (Ha v Hin).
Qed.

(** ** Well-formed maps *)

(** The entry [(k, v)] is reachable through the probe index. *)
Definition stored m (k : KeyType) (v : ValueType) : Prop :=
  ∃ p s, occupied (data_ m) p s ∧
         deref (elemets_ m) (iterator s) = Some (k, v).

(** The index holds, for every key of the list, its first entry. *)
Definition complete m : Prop :=
  ∀ k v, stored m k v ↔ assoc_first (entries m) k = Some v.

Record wf m : Prop := {
  wf_size : size_ m = length (elemets_ m);
  wf_nodup : NoDup (elemets_ m).*1;
  wf_fresh : ∀ n, n ∈ elemets_ m → n.1 < next_node_ m;
  wf_load : REBUILD_CONSTANT * size_ m ≤ length (data_ m);
  wf_count : occupied_count (data_ m) ≤ size_ m;
  wf_index : index_ok (hasher_ m) (elemets_ m) (data_ m)
}.

Lemma deref_entries elems it kv :
  deref elems it = Some kv → kv ∈ elems.*2.
Proof.
  intros Hd. apply deref_Some_elem in Hd.
  apply list_elem_of_fmap. by exists (it, kv).
Qed.

Lemma stored_entries m k v : stored m k v → (k, v) ∈ entries m.
Proof. intros (p & s & _ & Hd). by eapply deref_entries. Qed.

Lemma index_ok_elems h elems elems' data :
  index_ok h elems data →
  (∀ p s kv, occupied data p s → deref elems (iterator s) = Some kv →
     deref elems' (iterator s) = Some kv) →
  index_ok h elems' data.
Proof.
  intros Hok Ht. split.
  - intros p s Hp. destruct (io_live _ _ _ Hok _ _ Hp) as (kv & Hd & Hw).
    exists kv. split; [by eapply Ht|done].
  - apply (io_local _ _ _ Hok).
  - intros p q s t kv kv' Hp Hq Hd Hd' Hk.
    destruct (io_live _ _ _ Hok _ _ Hp) as (kv1 & Hd1 & _).
    destruct (io_live _ _ _ Hok _ _ Hq) as (kv2 & Hd2 & _).
    pose proof (Ht _ _ _ Hp Hd1). pose proof (Ht _ _ _ Hq Hd2).
    simplify_eq. by eapply (io_uniq _ _ _ Hok).
Qed.

Lemma index_ok_vacant h elems data :
  (∀ p s, data !! p = Some s → is_empty s = true) → index_ok h elems data.
Proof.
  intros Hv. split.
  - intros p s [Hp He]. apply Hv in Hp. congruence.
  - intros p s [Hp He]. apply Hv in Hp. congruence.
  - intros p q s t kv kv' [Hp He]. apply Hv in Hp. congruence.
Qed.

Lemma lookup_replicate_new n p s :
  replicate n HashTableData_new !! p = Some s → is_empty s = true.
Proof. intros [-> _]%lookup_replicate. done. Qed.

(** Whether a key is held by some slot can be decided. *)
Lemma key_in_index_dec elems data (k : KeyType) :
  (∃ p s kv, occupied data p s ∧ deref elems (iterator s) = Some kv ∧
             kv.1 = k) ∨
  (∀ p s kv, occupied data p s → deref elems (iterator s) = Some kv →
             kv.1 ≠ k).
Proof.
  set (P := λ s, is_empty s = false ∧
                 fst <$> deref elems (iterator s) = Some k).
  assert (Hdec : ∀ s, {¬ P s} + {P s}).
  { intros s. destruct (decide (P s)); auto. }
  destruct (Forall_Exists_dec _ P Hdec data) as [Hall|Hex].
  - right. intros p s kv [Hp He] Hd Hk.
    rewrite Forall_lookup in Hall. apply (Hall _ _ Hp).
    split; [done|]. rewrite Hd. simpl. by f_equal.
  - left. apply Exists_exists in Hex as (s & Hin & He & Hk).
    apply list_elem_of_lookup in Hin as [p Hp].
    destruct (deref elems (iterator s)) as [kv|] eqn:Hd; [|done].
    exists p, s, kv. simpl in Hk. split_and!; [by split|done|congruence].
Qed.

(** ** insert without rebuild *)

Lemma insert_probe m kv :
  wf m → REBUILD_CONSTANT * S (size_ m) ≤ length (data_ m) →
  ∃ m',
    (∀ fuel, length (data_ m) < fuel → insert fuel m kv = Done m') ∧
    wf m' ∧
    hasher_ m' = hasher_ m ∧
    length (data_ m') = length (data_ m) ∧
    size_ m' = S (size_ m) ∧
    elemets_ m' = elemets_ m ++ [(next_node_ m, kv)] ∧
    next_node_ m' = S (next_node_ m) ∧
    (∀ it, in_index (data_ m) it → in_index (data_ m') it) ∧
    (∀ it, in_index (data_ m') it →
       in_index (data_ m) it ∨
       (it = next_node_ m ∧ ∀ v, ¬ stored m kv.1 v)) ∧
    ((∀ v, ¬ stored m kv.1 v) → in_index (data_ m') (next_node_ m)).
Proof.
  intros Hwf Hroom. unfold REBUILD_CONSTANT in Hroom.
  pose proof (wf_count _ Hwf) as Hcnt.
  pose proof (wf_index _ Hwf) as Hok.
  set (elems1 := elemets_ m ++ [(next_node_ m, kv)]).
  assert (Hnew0 : deref (elemets_ m) (next_node_ m) = None).
  { apply deref_None. intros n Hn. apply (wf_fresh _ Hwf) in Hn. lia. }
  assert (Hnew : deref elems1 (next_node_ m) = Some kv).
  { unfold elems1. rewrite deref_app_r by done. simpl.
    by rewrite decide_True. }
  assert (Hok1 : index_ok (hasher_ m) elems1 (data_ m)).
  { eapply index_ok_elems; [done|]. intros p s kv' _ Hd.
    by apply deref_app_l. }
  assert (Hnd1 : NoDup elems1.*1).
  { unfold elems1. rewrite fmap_app. simpl. apply NoDup_app. split_and!.
    - apply (wf_nodup _ Hwf).
    - intros i Hi Hi'. apply list_elem_of_singleton in Hi'. subst i.
      apply list_elem_of_fmap in Hi as (n & Hn1 & Hn).
      apply (wf_fresh _ Hwf) in Hn. lia.
    - apply NoDup_singleton. }
  assert (Hfresh1 : ∀ n, n ∈ elems1 → n.1 < S (next_node_ m)).
  { intros n Hn. unfold elems1 in Hn. apply elem_of_app in Hn as [Hn|Hn].
    - apply (wf_fresh _ Hwf) in Hn. lia.
    - apply list_elem_of_singleton in Hn. subst n. simpl. lia. }
  destruct (exists_vacant (data_ m)) as [e He]; [lia|].
  assert (Hhome : home (hasher_ m) (length (data_ m)) kv.1
                  = Done (walk (length (data_ m)) (hasher_ m kv.1) 0)).
  { unfold home, walk. rewrite decide_False by lia. by rewrite Nat.add_0_r. }
  destruct (key_in_index_dec elems1 (data_ m) kv.1)
    as [(x & s & kv0 & Hx & Hd0 & Hk0)|Habs].
  - (* the key is already stored *)
    exists {| hasher_ := hasher_ m; data_ := data_ m; size_ := S (size_ m);
              elemets_ := elems1; next_node_ := S (next_node_ m) |}.
    simpl. split_and!; try done.
    + intros [|fuel] Hf; [lia|]. simpl.
      rewrite decide_False by (unfold REBUILD_CONSTANT; lia).
      rewrite Hhome. simpl. fold elems1.
      rewrite (insert_loop_duplicate (hasher_ m) elems1 (data_ m) x s kv0
                 (next_node_ m) kv e Hok1 Hx Hd0 Hnew Hk0 He (distance s) 0);
        [done|lia|].
      pose proof (distance_lt_capacity _ _ _ _ _ _ Hok1 Hx He). lia.
    + split; simpl;
        [|done|done|unfold REBUILD_CONSTANT; lia|lia|done].
      unfold elems1. rewrite length_app. simpl.
      pose proof (wf_size _ Hwf). lia.
    + intros it Hit. by left.
    + intros Hns. exfalso.
      destruct (io_live _ _ _ Hok _ _ Hx) as (kv1 & Hd1 & _).
      pose proof (deref_app_l _ [(next_node_ m, kv)] _ _ Hd1) as Hd1'.
      fold elems1 in Hd1'. simplify_eq.
      apply (Hns kv0.2). exists x, s. split; [done|].
      rewrite Hd1. f_equal. destruct kv0; simpl in *. by subst.
  - (* the key is new *)
    destruct (walk_surj (length (data_ m))
                (walk (length (data_ m)) (hasher_ m kv.1) 0) e)
      as (j & Hj & Hwj); [by eapply vacant_lt|].
    destruct (insert_loop_fresh (hasher_ m) elems1 j (data_ m)
                (walk (length (data_ m)) (hasher_ m kv.1) 0) 0 (next_node_ m))
      as (data' & Hrun & Hlen & Hok' & Hcnt' & Hin); [done| |by rewrite Hwj|done|].
    { exists kv. split_and!; [done|done|done|lia]. }
    exists {| hasher_ := hasher_ m; data_ := data'; size_ := S (size_ m);
              elemets_ := elems1; next_node_ := S (next_node_ m) |}.
    simpl. split_and!; try done.
    + intros [|fuel] Hf; [lia|]. simpl.
      rewrite decide_False by (unfold REBUILD_CONSTANT; lia).
      rewrite Hhome. simpl. fold elems1. rewrite Hrun by lia. done.
    + split; simpl;
        [|done|done|unfold REBUILD_CONSTANT; lia|lia|done].
      unfold elems1. rewrite length_app. simpl.
      pose proof (wf_size _ Hwf). lia.
    + intros it Hit. apply Hin. by left.
    + intros it Hit. apply Hin in Hit as [?| ->]; [by left|right].
      split; [done|]. intros v (p & s & Hp & Hd).
      apply (Habs p s (kv.1, v) Hp); [|done]. by apply deref_app_l.
    + intros _. apply Hin. by right.
Qed.

Lemma entries_snoc (elems : list node) n kv :
  (elems ++ [(n, kv)]).*2 = elems.*2 ++ [kv].
Proof. by rewrite fmap_app. Qed.

(** What [insert] guarantees, with or without a rebuild. *)
Record insert_post m (kv : KeyType * ValueType) m' : Prop := {
  ip_wf : wf m';
  ip_hasher : hasher_ m' = hasher_ m;
  ip_size : size_ m' = S (size_ m);
  ip_entries : entries m' = entries m ++ [kv];
  ip_capacity :
    length (data_ m') =
    if decide (length (data_ m) < S (size_ m) * REBUILD_CONSTANT)
    then EXTENDED_CONSTANT * length (data_ m) + EXTENDED_SHIFT
    else length (data_ m);
  ip_complete : complete m → complete m';
  ip_stored : ∀ k v, stored m k v →
    (∀ v', (k, v') ∈ entries m → v' = v) → stored m' k v;
  ip_new : (∀ v, (kv.1, v) ∉ entries m) → stored m' kv.1 kv.2
}.

Lemma insert_probe_post m kv :
  wf m → REBUILD_CONSTANT * S (size_ m) ≤ length (data_ m) →
  ∃ m',
    (∀ fuel, length (data_ m) < fuel → insert fuel m kv = Done m') ∧
    insert_post m kv m' ∧
    length (data_ m') = length (data_ m) ∧
    next_node_ m' = S (next_node_ m) ∧
    (∀ k v, stored m k v → stored m' k v).
Proof.
  intros Hwf Hroom.
  destruct (insert_probe m kv Hwf Hroom)
    as (m' & Hrun & Hwf' & Hh & Hlen & Hsz & Hel & Hnx & Hkeep & Hinv & Hnew).
  pose proof (wf_index _ Hwf) as Hok.
  assert (Hnewd : deref (elemets_ m') (next_node_ m) = Some kv).
  { rewrite Hel. rewrite deref_app_r; [simpl; by rewrite decide_True|].
    apply deref_None. intros n Hn. apply (wf_fresh _ Hwf) in Hn. lia. }
  assert (Hst : ∀ k v, stored m k v → stored m' k v).
  { intros k v (p & s & Hp & Hd).
    destruct (Hkeep (iterator s)) as (p' & s' & Hp' & Hit); [by exists p, s|].
    exists p', s'. split; [done|]. rewrite Hit, Hel. by apply deref_app_l. }
  assert (Hst' : ∀ k v, stored m' k v →
            stored m k v ∨ (kv = (k, v) ∧ ∀ v', ¬ stored m k v')).
  { intros k v (p' & s' & Hp' & Hd').
    destruct (Hinv (iterator s')) as [(p & s & Hp & Hit)|[Hit Hns]];
      [by exists p', s'| |].
    - left. exists p, s. split; [done|].
      destruct (io_live _ _ _ Hok _ _ Hp) as (kv1 & Hd1 & _).
      pose proof (deref_app_l _ [(next_node_ m, kv)] _ _ Hd1) as Hd1'.
      rewrite <- Hel, Hit, Hd' in Hd1'. by simplify_eq.
    - right. rewrite Hit, Hnewd in Hd'. simplify_eq. by split. }
  assert (Hent : entries m' = entries m ++ [kv]).
  { unfold entries. rewrite Hel. apply entries_snoc. }
  exists m'. split_and!; try done. split; try done.
  - rewrite decide_False; [done|]. unfold REBUILD_CONSTANT in *. lia.
  - intros Hc k v. rewrite Hent, assoc_first_app. split.
    + intros [Hs|[-> Hns]]%Hst'.
      * apply Hc in Hs. by rewrite Hs.
      * destruct (assoc_first (entries m) k) as [v'|] eqn:Ha.
        -- apply Hc in Ha. destruct (Hns _ Ha).
        -- simpl. by rewrite decide_True.
    + destruct (assoc_first (entries m) k) as [v'|] eqn:Ha.
      * intros. simplify_eq. apply Hst. by apply Hc.
      * simpl. case_decide as Hk; [|done]. intros. simplify_eq.
        destruct (Hnew) as (p & s & Hp & Hit).
        { intros v' Hs. apply Hc in Hs. congruence. }
        exists p, s. split; [done|]. rewrite Hit, Hnewd.
        by destruct kv.
  - intros k v Hs _. by apply Hst.
  - intros Habs. destruct Hnew as (p & s & Hp & Hit).
    { intros v Hs. apply stored_entries in Hs. by apply (Habs v). }
    exists p, s. split; [done|]. rewrite Hit, Hnewd. by destruct kv.
Qed.

Lemma insert_all_cons fuel m kv l :
  insert_all fuel m (kv :: l) =
  let* m' := insert fuel m kv in insert_all fuel m' l.
Proof.
  unfold insert_all. simpl. destruct (insert fuel m kv) as [m'| | |]; simpl;
    try done; induction l as [|x l IH]; simpl; done.
Qed.

(** Inserting a list of entries into a map that has room for all of them:
    no rebuild happens. *)
Lemma insert_all_room l :
  ∀ m, wf m →
    REBUILD_CONSTANT * (size_ m + length l) ≤ length (data_ m) →
    ∃ m',
      (∀ fuel, length (data_ m) < fuel → insert_all fuel m l = Done m') ∧
      wf m' ∧
      hasher_ m' = hasher_ m ∧
      length (data_ m') = length (data_ m) ∧
      size_ m' = size_ m + length l ∧
      entries m' = entries m ++ l ∧
      (complete m → complete m').
Proof.
  induction l as [|kv l IH]; intros m Hwf Hroom.
  - exists m. split_and!; try done. by rewrite app_nil_r.
  - simpl in Hroom.
    destruct (insert_probe_post m kv Hwf) as (m1 & Hrun1 & Hp1 & Hlen1 & _);
      [unfold REBUILD_CONSTANT in *; lia|].
    destruct (IH m1 (ip_wf _ _ _ Hp1))
      as (m' & Hrun & Hwf' & Hh & Hlen & Hsz & Hent & Hc).
    { rewrite Hlen1, (ip_size _ _ _ Hp1).
      unfold REBUILD_CONSTANT in *. lia. }
    exists m'. split_and!.
    + intros fuel Hf. rewrite insert_all_cons, Hrun1 by done. simpl.
      apply Hrun. by rewrite Hlen1.
    + done.
    + by rewrite Hh, (ip_hasher _ _ _ Hp1).
    + by rewrite Hlen, Hlen1.
    + rewrite Hsz, (ip_size _ _ _ Hp1). simpl. lia.
    + rewrite Hent, (ip_entries _ _ _ Hp1). by rewrite <- app_assoc.
    + intros Hcm. apply Hc. by apply (ip_complete _ _ _ Hp1).
Qed.

(** ** insert with rebuild *)

(** The map on which [rebuild_] starts re-inserting: a fresh index of the
    extended capacity and an empty list. *)
Definition rebuild_start m : HashMap :=
  {| hasher_ := hasher_ m;
     data_ := replicate (EXTENDED_CONSTANT * length (data_ m) + EXTENDED_SHIFT)
                HashTableData_new;
     size_ := 0; elemets_ := []; next_node_ := S (next_node_ m) |}.

Lemma rebuild_start_wf m : wf (rebuild_start m).
Proof.
  split; simpl.
  - done.
  - apply NoDup_nil_2.
  - intros n Hn. by apply elem_of_nil in Hn.
  - unfold REBUILD_CONSTANT. lia.
  - by rewrite occupied_count_replicate.
  - apply index_ok_vacant. apply lookup_replicate_new.
Qed.

Lemma rebuild_start_complete m : complete (rebuild_start m).
Proof.
  intros k v. simpl. split; [|done].
  intros (p & s & [Hp He] & _). simpl in Hp.
  apply lookup_replicate_new in Hp. congruence.
Qed.

Lemma insert_rebuild_eq fuel m kv :
  length (data_ m) < S (size_ m) * REBUILD_CONSTANT →
  insert (S fuel) m kv = insert_all fuel (rebuild_start m) (entries m ++ [kv]).
Proof.
  intros Hlt. simpl. rewrite decide_True by done.
  unfold rebuild_with, insert_all, rebuild_start, entries. simpl.
  by rewrite fmap_app.
Qed.

(** Fuel that is enough for [insert]: one level of rebuild when the map
    keeps the load factor, and room for the rebuilds nested in a rebuild
    when it does not. *)
Definition insert_fuel m : nat :=
  EXTENDED_CONSTANT * length (data_ m) + EXTENDED_SHIFT + 2
  + 13 * (REBUILD_CONSTANT * size_ m - length (data_ m)).

Lemma insert_fuel_wf m : wf m → insert_fuel m = 2 * length (data_ m) + 5.
Proof.
  intros Hwf. pose proof (wf_load _ Hwf).
  unfold insert_fuel, REBUILD_CONSTANT, EXTENDED_CONSTANT, EXTENDED_SHIFT in *.
  lia.
Qed.

Lemma insert_spec m kv :
  wf m →
  ∃ m', (∀ fuel, insert_fuel m ≤ fuel → insert fuel m kv = Done m') ∧
        insert_post m kv m'.
Proof.
  intros Hwf. unfold insert_fuel, EXTENDED_CONSTANT, EXTENDED_SHIFT.
  destruct (decide (length (data_ m) < S (size_ m) * REBUILD_CONSTANT))
    as [Hre|Hroom].
  - destruct (insert_all_room (entries m ++ [kv]) (rebuild_start m)
                (rebuild_start_wf m))
      as (m' & Hrun & Hwf' & Hh & Hlen & Hsz & Hent & Hc).
    { simpl. rewrite length_app, length_replicate. simpl.
      pose proof (wf_load _ Hwf) as Hl. pose proof (wf_size _ Hwf) as Hs.
      unfold entries. rewrite length_fmap.
      unfold REBUILD_CONSTANT, EXTENDED_CONSTANT, EXTENDED_SHIFT in *. lia. }
    simpl in *. rewrite length_replicate in *.
    specialize (Hc (rebuild_start_complete m)).
    exists m'. split.
    + intros [|fuel] Hf; [lia|]. rewrite insert_rebuild_eq by done.
      apply Hrun. unfold EXTENDED_CONSTANT, EXTENDED_SHIFT. lia.
    + split; try done.
      * rewrite Hsz, length_app. simpl. unfold entries.
        rewrite length_fmap. pose proof (wf_size _ Hwf). lia.
      * by rewrite decide_True.
      * intros k v Hs Hu. apply Hc. rewrite Hent, assoc_first_app.
        rewrite (assoc_first_unique (entries m) k v); [done| |done].
        by apply stored_entries.
      * intros Habs. apply Hc. rewrite Hent, assoc_first_app.
        destruct (assoc_first (entries m) kv.1) as [v|] eqn:Ha.
        -- apply assoc_first_Some_elem in Ha. destruct (Habs _ Ha).
        -- simpl. by rewrite decide_True.
  - destruct (insert_probe_post m kv Hwf) as (m' & Hrun & Hp & _).
    { unfold REBUILD_CONSTANT in *. lia. }
    exists m'. split; [|done]. intros fuel Hf. apply Hrun. lia.
Qed.

(** ** find and erase on well-formed maps *)

Lemma wf_vacant m : wf m → size_ m ≠ 0 → ∃ e, vacant (data_ m) e.
Proof.
  intros Hwf Hs. apply exists_vacant.
  pose proof (wf_count _ Hwf). pose proof (wf_load _ Hwf).
  unfold REBUILD_CONSTANT in *. lia.
Qed.

Lemma stored_size m k v : wf m → stored m k v → size_ m ≠ 0.
Proof.
  intros Hwf (p & s & _ & Hd). rewrite (wf_size _ Hwf).
  apply deref_Some_elem in Hd. by destruct (elemets_ m); [apply elem_of_nil in Hd|].
Qed.

Lemma home_walk h cap k :
  cap ≠ 0 → home h cap k = Done (walk cap (h k) 0).
Proof.
  intros. unfold home, walk. rewrite decide_False by done.
  by rewrite Nat.add_0_r.
Qed.

Lemma find_stored m k v :
  wf m → stored m k v →
  ∃ it, (∀ fuel, length (data_ m) ≤ fuel → find fuel m k = Done (Some it)) ∧
        deref (elemets_ m) it = Some (k, v).
Proof.
  intros Hwf Hst. pose proof (stored_size _ _ _ Hwf Hst) as Hsz.
  destruct Hst as (x & s & Hx & Hd).
  destruct (wf_vacant _ Hwf Hsz) as [e He].
  pose proof (wf_index _ Hwf) as Hok.
  pose proof (distance_lt_capacity _ _ _ _ _ _ Hok Hx He) as Hlt.
  exists (iterator s). split; [|done]. intros fuel Hf.
  unfold find. rewrite decide_False by done.
  rewrite home_walk by lia. simpl.
  eapply (find_loop_present m k x s (k, v) e Hok Hx Hd eq_refl He
            (distance s) 0); lia.
Qed.

Lemma find_not_stored m k :
  wf m → (∀ v, ¬ stored m k v) →
  ∀ fuel, length (data_ m) ≤ fuel → find fuel m k = Done None.
Proof.
  intros Hwf Hns fuel Hf. unfold find. case_decide as Hsz; [done|].
  destruct (wf_vacant _ Hwf Hsz) as [e He].
  pose proof (vacant_lt _ _ He) as Hlt.
  rewrite home_walk by lia. simpl.
  destruct (walk_surj (length (data_ m))
              (walk (length (data_ m)) (hasher_ m k) 0) e Hlt)
    as (j & Hj & Hw).
  eapply (find_loop_absent m k (wf_index _ Hwf)) with (j := j).
  - intros p s [k' v'] Hp Hd Hk. simpl in Hk. subst k'.
    apply (Hns v'). by exists p, s.
  - apply walk_lt. lia.
  - by rewrite Hw.
  - lia.
Qed.

Lemma erase_loop_absent m key :
  index_ok (hasher_ m) (elemets_ m) (data_ m) →
  (∀ p s kv, occupied (data_ m) p s →
     deref (elemets_ m) (iterator s) = Some kv → kv.1 ≠ key) →
  ∀ j p d fuel, p < length (data_ m) →
    vacant (data_ m) (walk (length (data_ m)) p j) → j < fuel →
    erase_loop fuel m key p d = Done m.
Proof.
  intros Hok Habs. induction j as [|j IH]; intros p d fuel Hp Hv Hf;
    (destruct fuel as [|fuel]; [lia|]); simpl.
  - rewrite walk_0 in Hv by done. by destruct Hv as (s & -> & ->).
  - destruct (slot_cases _ _ Hp) as [(s & -> & ->)|(s & Hs)]; [done|].
    pose proof Hs as [-> ->].
    rewrite <- walk_shift in Hv by done.
    pose proof (next_lt _ _ Hp) as Hn.
    case_decide; [|apply IH; [done..|lia]].
    destruct (io_live _ _ _ Hok _ _ Hs) as (kv & Hd & _). rewrite Hd.
    rewrite decide_False by eauto. apply IH; [done..|lia].
Qed.

Lemma erase_loop_present m key x s kv e :
  index_ok (hasher_ m) (elemets_ m) (data_ m) →
  occupied (data_ m) x s → deref (elemets_ m) (iterator s) = Some kv →
  kv.1 = key → vacant (data_ m) e →
  ∀ n i fuel, i + n = distance s →
    erase_loop (n + S fuel) m key
      (walk (length (data_ m)) (hasher_ m key) i) i
    = let* data' :=
        erase_shift fuel
          (<[x := mkSlot true (distance s) (iterator s)]> (data_ m))
          x (next_ (length (data_ m)) x) in
      Done {| hasher_ := hasher_ m; data_ := data'; size_ := size_ m - 1;
              elemets_ := list_erase (elemets_ m) (iterator s);
              next_node_ := next_node_ m |}.
Proof.
  intros Hok Ho Hd Hk Hv.
  assert (Hcap : 0 < length (data_ m)) by (apply occupied_lt in Ho; lia).
  pose proof (distance_lt_capacity _ _ _ _ _ _ Hok Ho Hv) as Hlt.
  induction n as [|n IH]; intros i fuel Hi; simpl.
  - assert (i = distance s) as -> by lia.
    rewrite <- Hk, (deref_key_walk _ _ _ _ _ _ Hok Ho Hd).
    destruct Ho as [-> ->]. rewrite decide_True by done.
    rewrite Hd. by rewrite decide_True.
  - destruct (probe_path _ _ _ _ _ _ i Hok Ho Hd) as (t & Ht & Hle); [lia|].
    rewrite Hk in Ht. pose proof Ht as [-> ->].
    rewrite <- walk_next by done.
    case_decide as Hdist; [|apply IH; lia].
    destruct (io_live _ _ _ Hok _ _ Ht) as (kv' & Hd' & _). rewrite Hd'.
    case_decide as Hkey; [|apply IH; lia].
    exfalso. assert (Heq : walk (length (data_ m)) (hasher_ m key) i = x).
    { eapply (io_uniq _ _ _ Hok); eauto. congruence. }
    rewrite <- (deref_key_walk _ _ _ _ _ _ Hok Ho Hd), Hk in Heq.
    revert Heq. apply walk_inj; lia.
Qed.

Lemma walk_full cap p : p < cap → walk cap p cap = p.
Proof.
  intros Hp. unfold walk. replace (p + cap) with (p + 1 * cap) by lia.
  rewrite Nat.Div0.mod_add. apply Nat.mod_small. lia.
Qed.

Lemma list_erase_NoDup (elems : list node) it :
  NoDup elems.*1 → NoDup (list_erase elems it).*1.
Proof.
  unfold list_erase. induction elems as [|[i e] elems IH]; simpl; [done|].
  intros [Hni Hnd]%NoDup_cons. rewrite filter_cons. simpl.
  case_decide; [|by apply IH]. simpl. apply NoDup_cons. split; [|by apply IH].
  intros Hin. apply Hni. apply list_elem_of_fmap in Hin as (n & -> & Hn).
  apply list_elem_of_filter in Hn as [_ Hn].
  apply list_elem_of_fmap. by exists n.
Qed.

(** What [erase] guarantees. *)
Record erase_post m (key : KeyType) m' : Prop := {
  ep_wf : wf m';
  ep_hasher : hasher_ m' = hasher_ m;
  ep_capacity : length (data_ m') = length (data_ m);
  ep_gone : ∀ v, ¬ stored m' key v;
  ep_keep : ∀ k v, k ≠ key → stored m k v → stored m' k v;
  ep_back : ∀ k v, stored m' k v → stored m k v;
  ep_entries : ∀ e, e ∈ entries m' → e ∈ entries m
}.

Lemma erase_not_stored m key :
  wf m → (∀ v, ¬ stored m key v) →
  ∀ fuel, length (data_ m) ≤ fuel → erase fuel m key = Done m.
Proof.
  intros Hwf Hns fuel Hf. unfold erase. case_decide as Hsz; [done|].
  destruct (wf_vacant _ Hwf Hsz) as [e He].
  pose proof (vacant_lt _ _ He) as Hlt.
  rewrite home_walk by lia. simpl.
  destruct (walk_surj (length (data_ m))
              (walk (length (data_ m)) (hasher_ m key) 0) e Hlt)
    as (j & Hj & Hw).
  eapply (erase_loop_absent m key (wf_index _ Hwf)) with (j := j).
  - intros p s [k' v'] Hp Hd Hk. simpl in Hk. subst k'.
    apply (Hns v'). by exists p, s.
  - apply walk_lt. lia.
  - by rewrite Hw.
  - lia.
Qed.

Lemma erase_stored m key v :
  wf m → stored m key v →
  ∃ m' it,
    (∀ fuel, 2 * length (data_ m) ≤ fuel → erase fuel m key = Done m') ∧
    erase_post m key m' ∧
    S (size_ m') = size_ m ∧
    deref (elemets_ m) it = Some (key, v) ∧
    elemets_ m' = list_erase (elemets_ m) it ∧
    next_node_ m' = next_node_ m.
Proof.
  intros Hwf Hst. pose proof (stored_size _ _ _ Hwf Hst) as Hsz.
  destruct Hst as (x & s & Hx & Hd).
  destruct (wf_vacant _ Hwf Hsz) as [e He].
  pose proof (wf_index _ Hwf) as Hok.
  pose proof (distance_lt_capacity _ _ _ _ _ _ Hok Hx He) as Hlt.
  pose proof (occupied_lt _ _ _ Hx) as Hxlt.
  pose proof (vacant_lt _ _ He) as Helt.
  set (data1 := <[x := mkSlot true (distance s) (iterator s)]> (data_ m)).
  assert (Hlen1 : length data1 = length (data_ m)) by apply length_insert.
  assert (Hex : e ≠ x).
  { intros ->. by eapply occupied_vacant. }
  destruct (walk_surj (length (data_ m)) (next_ (length (data_ m)) x) e Helt)
    as (j & Hj & Hw).
  assert (Hj2 : j + 2 ≤ length (data_ m)).
  { destruct (decide (S j = length (data_ m))) as [Heq|]; [|lia].
    rewrite walk_shift, Heq, walk_full in Hw by done. congruence. }
  destruct (erase_shift_spec (hasher_ m) (elemets_ m) j data1 x)
    as (data' & Hrun & Hlen & Hok' & Hcnt & Hin).
  { by apply shift_ok_start. }
  { rewrite Hlen1, Hw. by apply vacant_insert_ne. }
  { by rewrite Hlen1. }
  assert (Hin1 : ∀ it, in_index data' it →
            ∃ q t, q ≠ x ∧ occupied (data_ m) q t ∧ iterator t = it).
  { intros it (q & t & Hq & Hit)%Hin.
    apply occupied_insert_inv in Hq as [(_ & _ & ?)|[Hne Hq]]; [done|].
    by exists q, t. }
  assert (Hin2 : ∀ q t, q ≠ x → occupied (data_ m) q t →
            in_index data' (iterator t)).
  { intros q t Hne Hq. apply Hin. exists q, t. split; [|done].
    by apply occupied_insert_ne. }
  assert (Hother : ∀ q t, q ≠ x → occupied (data_ m) q t →
            iterator t ≠ iterator s).
  { intros q t Hne Hq Hit.
    destruct (io_live _ _ _ Hok _ _ Hq) as (kv' & Hd' & _).
    apply Hne. eapply (io_uniq _ _ _ Hok); eauto. congruence. }
  set (elems' := list_erase (elemets_ m) (iterator s)).
  assert (Hok2 : index_ok (hasher_ m) elems' data').
  { eapply index_ok_elems; [done|]. intros p t kv Hp Hdp.
    destruct (Hin1 (iterator t)) as (q & t' & Hne & Hq & Hit);
      [by exists p, t|].
    unfold elems'. rewrite deref_erase; [done|].
    rewrite <- Hit. by eapply Hother. }
  exists {| hasher_ := hasher_ m; data_ := data'; size_ := size_ m - 1;
            elemets_ := elems'; next_node_ := next_node_ m |}, (iterator s).
  split_and!; simpl; try done.
  - intros fuel Hf. unfold erase. rewrite decide_False by done.
    rewrite home_walk by lia. simpl.
    replace fuel with (distance s + S (fuel - distance s - 1)) by lia.
    rewrite (erase_loop_present m key x s (key, v) e Hok Hx Hd eq_refl He
               (distance s) 0) by lia.
    fold data1. rewrite <- Hlen1, Hrun by lia. done.
  - split; simpl; try done.
    + split; simpl; try done.
      * pose proof (list_erase_length _ _ _ (wf_nodup _ Hwf) Hd).
        pose proof (wf_size _ Hwf). fold elems' in H. lia.
      * apply list_erase_NoDup, (wf_nodup _ Hwf).
      * intros n Hn. apply list_elem_of_filter in Hn as [_ Hn].
        by apply (wf_fresh _ Hwf).
      * pose proof (wf_load _ Hwf). unfold REBUILD_CONSTANT in *. lia.
      * rewrite Hcnt. destruct Hx as [Hl Hemp].
        pose proof (occupied_count_insert (data_ m) x
          (mkSlot true (distance s) (iterator s)) s Hl) as Hc.
        rewrite Hemp in Hc. simpl in Hc. fold data1 in Hc.
        pose proof (wf_count _ Hwf). lia.
    + by rewrite Hlen, Hlen1.
    + intros v' (p & t & Hp & Hdp). simpl in *.
      destruct (Hin1 (iterator t)) as (q & t' & Hne & Hq & Hit);
        [by exists p, t|].
      unfold elems' in Hdp. rewrite deref_erase in Hdp
        by (rewrite <- Hit; by eapply Hother).
      apply Hne.
      eapply (io_uniq _ _ _ Hok _ _ _ _ (key, v') (key, v) Hq Hx);
        [by rewrite Hit|done|done].
    + intros k v' Hk (q & t & Hq & Hdq). simpl.
      assert (Hne : q ≠ x).
      { intros ->. rewrite (occupied_fun _ _ _ _ Hq Hx) in Hdq.
        congruence. }
      destruct (Hin2 q t Hne Hq) as (p' & t' & Hp' & Hit').
      exists p', t'. split; [done|]. simpl. rewrite Hit'. unfold elems'.
      rewrite deref_erase; [done|]. by eapply Hother.
    + intros k v' (p & t & Hp & Hdp). simpl in *.
      destruct (Hin1 (iterator t)) as (q & t' & Hne & Hq & Hit);
        [by exists p, t|].
      exists q, t'. split; [done|].
      unfold elems' in Hdp. rewrite deref_erase in Hdp
        by (rewrite <- Hit; by eapply Hother).
      by rewrite Hit.
    + intros en Hen. unfold entries in *. simpl in Hen.
      apply list_elem_of_fmap in Hen as (n & -> & Hn).
      apply list_elem_of_filter in Hn as [_ Hn].
      apply list_elem_of_fmap. by exists n.
  - pose proof (wf_size _ Hwf). lia.
Qed.

(** ** clear *)

Lemma walk_walk cap a i j :
  walk cap (walk cap a i) j = walk cap a (i + j).
Proof.
  unfold walk. rewrite Nat.Div0.add_mod_idemp_l. f_equal. lia.
Qed.

(** The state of the inner loop of [clear]: only the slot about to be
    visited may have lost its predecessor. *)
Record clear_ok h elems data (position : nat) : Prop := {
  co_live : ∀ p s, occupied data p s →
    ∃ kv, deref elems (iterator s) = Some kv ∧
          walk (length data) (h kv.1) (distance s) = p;
  co_local : ∀ p s, occupied data p s → p ≠ position → 0 < distance s →
    ∃ s', occupied data (pred_pos (length data) p) s' ∧
          distance s ≤ S (distance s');
  co_uniq : ∀ p q s t kv kv',
    occupied data p s → occupied data q t →
    deref elems (iterator s) = Some kv →
    deref elems (iterator t) = Some kv' →
    kv.1 = kv'.1 → p = q
}.

Lemma clear_run_spec h elems :
  ∀ n data p,
    clear_ok h elems data p → p < length data → occupied_count data ≤ n →
    ∃ data',
      (∀ fuel, n < fuel → clear_run fuel data p = Done data') ∧
      length data' = length data ∧
      index_ok h elems data' ∧
      (∀ q, vacant data q → vacant data' q) ∧
      (∀ q t, occupied data' q t → occupied data q t) ∧
      (∀ x i, i < length data → walk (length data) p i = x →
         (∀ i', i' ≤ i → ∃ t, occupied data (walk (length data) p i') t) →
         vacant data' x).
Proof.
  assert (Hstop : ∀ data p,
    clear_ok h elems data p → p < length data → vacant data p →
    ∃ data',
      (∀ fuel, 0 < fuel → clear_run fuel data p = Done data') ∧
      length data' = length data ∧
      index_ok h elems data' ∧
      (∀ q, vacant data q → vacant data' q) ∧
      (∀ q t, occupied data' q t → occupied data q t) ∧
      (∀ x i, i < length data → walk (length data) p i = x →
         (∀ i', i' ≤ i → ∃ t, occupied data (walk (length data) p i') t) →
         vacant data' x)).
  { intros data p Hco Hp Hv. exists data. split_and!; try done.
    - intros [|fuel] Hf; [lia|]. simpl. by destruct Hv as (s & -> & ->).
    - split; [apply (co_live _ _ _ _ Hco)| |apply (co_uniq _ _ _ _ Hco)].
      intros q s Hq Hpos. apply (co_local _ _ _ _ Hco _ _ Hq); [|done].
      intros ->. by eapply occupied_vacant.
    - intros x i _ Hx Hall. destruct (Hall 0) as (t & Ht); [lia|].
      rewrite walk_0 in Ht by done. destruct (occupied_vacant _ _ _ Ht Hv). }
  assert (Hcount : ∀ data p s, occupied data p s →
    S (occupied_count (<[p := mkSlot true (distance s) (iterator s)]> data))
    = occupied_count data).
  { intros data p s [Hl He].
    pose proof (occupied_count_insert data p
      (mkSlot true (distance s) (iterator s)) s Hl) as Hc.
    rewrite He in Hc. simpl in Hc. lia. }
  induction n as [|n IH]; intros data p Hco Hp Hn;
    destruct (slot_cases _ _ Hp) as [Hv|(s & Hs)].
  - destruct (Hstop data p Hco Hp Hv) as (data' & Hrun & Hrest).
    exists data'. split; [|done]. intros fuel Hf. apply Hrun. lia.
  - pose proof (Hcount _ _ _ Hs). lia.
  - destruct (Hstop data p Hco Hp Hv) as (data' & Hrun & Hrest).
    exists data'. split; [|done]. intros fuel Hf. apply Hrun. lia.
  - pose proof (Hcount _ _ _ Hs) as Hc. pose proof Hs as [Hl He].
  set (data1 := <[p := mkSlot true (distance s) (iterator s)]> data) in *.
  assert (Hlen1 : length data1 = length data) by apply length_insert.
  destruct (IH data1 (next_ (length data) p))
    as (data' & Hrun & Hlen & Hok' & Hvac & Hocc & Hclr).
  { split; rewrite ?Hlen1.
    + intros q t Hq.
      apply occupied_insert_inv in Hq as [(_ & _ & ?)|[Hne Hq]]; [done|].
      by apply (co_live _ _ _ _ Hco).
    + intros q t Hq Hnq Hpos.
      apply occupied_insert_inv in Hq as [(_ & _ & ?)|[Hne Hq]]; [done|].
      destruct (co_local _ _ _ _ Hco _ _ Hq Hne Hpos) as (s' & Hs' & Hle).
      exists s'. split; [|done]. apply occupied_insert_ne; [|done].
      apply occupied_lt in Hq. pos_solve.
    + intros q1 q2 t1 t2 kv kv' H1 H2.
      apply occupied_insert_inv in H1 as [(_ & _ & ?)|[Hne1 H1]]; [done|].
      apply occupied_insert_inv in H2 as [(_ & _ & ?)|[Hne2 H2]]; [done|].
      by apply (co_uniq _ _ _ _ Hco). }
    { rewrite Hlen1. by apply next_lt. }
    { lia. }
    assert (Hvp : vacant data1 p) by by apply vacant_insert_eq.
    exists data'. split_and!.
    + intros [|fuel] Hf; [lia|]. simpl. rewrite Hl, He.
      apply Hrun. lia.
    + congruence.
    + done.
    + intros q Hq. apply Hvac. destruct (decide (q = p)) as [->|Hne]; [done|].
      by apply vacant_insert_ne.
    + intros q t Hq. apply Hocc in Hq.
      by apply occupied_insert_inv in Hq as [(_ & _ & ?)|[Hne Hq]].
    + intros x i Hi Hx Hall. destruct i as [|i].
      { rewrite walk_0 in Hx by done. subst x. by apply Hvac. }
      rewrite <- walk_shift in Hx by done.
      apply (Hclr x i); rewrite ?Hlen1; [lia|done|].
      intros i' Hi'. destruct (Hall (S i')) as (t & Ht); [lia|].
      exists t. rewrite walk_shift by done.
      apply occupied_insert_ne; [|done].
      rewrite <- (walk_0 (length data) p) at 1 by done.
      apply walk_inj; lia.
Qed.

Lemma index_ok_clear_ok h elems data p :
  index_ok h elems data → clear_ok h elems data p.
Proof.
  intros Hok. split.
  - apply (io_live _ _ _ Hok).
  - intros q s Hq _. apply (io_local _ _ _ Hok _ _ Hq).
  - apply (io_uniq _ _ _ Hok).
Qed.

Lemma clear_keys_cons fuel h key keys data :
  clear_keys fuel h (key :: keys) data =
  let* position := home h (length data) key in
  let* data' := clear_run fuel data position in
  clear_keys fuel h keys data'.
Proof.
  unfold clear_keys. simpl.
  destruct (home h (length data) key) as [p| | |]; simpl.
  1: destruct (clear_run fuel data p) as [d| | |]; simpl; try done.
  all: induction keys as [|x l IH]; simpl; done.
Qed.

Lemma clear_keys_spec h elems :
  ∀ keys data,
    index_ok h elems data → (∃ e, vacant data e) →
    ∃ data',
      (∀ fuel, length data < fuel → clear_keys fuel h keys data = Done data') ∧
      length data' = length data ∧
      index_ok h elems data' ∧
      (∀ q, vacant data q → vacant data' q) ∧
      (∀ x s kv, occupied data x s → deref elems (iterator s) = Some kv →
         kv.1 ∈ keys → vacant data' x).
Proof.
  induction keys as [|key keys IH]; intros data Hok [e He].
  { exists data. split_and!; try done.
    intros x s kv _ _ Hin. by apply elem_of_nil in Hin. }
  pose proof (vacant_lt _ _ He) as Helt.
  destruct (clear_run_spec h elems (length data) data
              (walk (length data) (h key) 0))
    as (data1 & Hrun1 & Hlen1 & Hok1 & Hvac1 & Hocc1 & Hclr1).
  { by apply index_ok_clear_ok. }
  { apply walk_lt. lia. }
  { apply occupied_count_le. }
  destruct (IH data1 Hok1) as (data' & Hrun & Hlen & Hok' & Hvac & Hclr).
  { exists e. by apply Hvac1. }
  exists data'. split_and!.
  - intros fuel Hf. rewrite clear_keys_cons, home_walk by lia. simpl.
    rewrite Hrun1 by done. simpl. apply Hrun. by rewrite Hlen1.
  - congruence.
  - done.
  - intros q Hq. by apply Hvac, Hvac1.
  - intros x s kv Hx Hd Hin.
    pose proof (occupied_lt _ _ _ Hx) as Hxlt.
    destruct (decide (kv.1 = key)) as [Hk|Hk].
    + apply Hvac. subst key.
      apply (Hclr1 x (distance s)).
      * by eapply distance_lt_capacity.
      * rewrite walk_walk. simpl.
        by apply (deref_key_walk h elems data x s kv).
      * intros i' Hi'. rewrite walk_walk. simpl.
        destruct (probe_path h elems data x s kv i' Hok Hx Hd Hi')
          as (t & Ht & _). by exists t.
    + apply elem_of_cons in Hin as [?|Hin]; [done|].
      rewrite <- Hlen1 in Hxlt.
      destruct (slot_cases _ _ Hxlt) as [Hv|(t & Ht)]; [by apply Hvac|].
      apply (Hclr x t kv); [done| |done].
      by rewrite (occupied_fun _ _ _ _ (Hocc1 _ _ Ht) Hx).
Qed.

Lemma occupied_count_vacant data :
  (∀ p s, data !! p = Some s → is_empty s = true) → occupied_count data = 0.
Proof.
  unfold occupied_count. induction data as [|x data IH]; intros Hv; [done|].
  rewrite filter_cons. rewrite decide_False.
  - apply IH. intros p s Hp. by apply (Hv (S p)).
  - rewrite (Hv 0 x); done.
Qed.

Lemma occupied_count_0 data p s :
  occupied_count data = 0 → data !! p = Some s → is_empty s = true.
Proof.
  intros Hc Hp. destruct (is_empty s) eqn:He; [done|].
  pose proof (occupied_count_insert data p
                (mkSlot true (distance s) (iterator s)) s Hp) as Hi.
  rewrite He in Hi. simpl in Hi. lia.
Qed.

Lemma clear_spec m :
  wf m →
  ∃ m', (∀ fuel, length (data_ m) < fuel → clear fuel m = Done m') ∧
        wf m' ∧
        hasher_ m' = hasher_ m ∧
        size_ m' = 0 ∧ elemets_ m' = [] ∧
        length (data_ m') = length (data_ m) ∧
        next_node_ m' = next_node_ m ∧
        (∀ p s, data_ m' !! p = Some s → is_empty s = true).
Proof.
  intros Hwf.
  assert (Hgoal : ∃ data',
    (∀ fuel, length (data_ m) < fuel →
       clear_keys fuel (hasher_ m) ((λ n : node, n.2.1) <$> elemets_ m)
         (data_ m) = Done data') ∧
    length data' = length (data_ m) ∧
    (∀ p s, data' !! p = Some s → is_empty s = true)).
  { destruct (decide (size_ m = 0)) as [Hz|Hnz].
    - exists (data_ m). pose proof (wf_size _ Hwf) as Hs.
      rewrite Hz in Hs. symmetry in Hs. apply length_zero_iff_nil in Hs.
      rewrite Hs. split_and!; try done.
      intros p s Hp. eapply occupied_count_0; [|done].
      pose proof (wf_count _ Hwf). lia.
    - destruct (clear_keys_spec (hasher_ m) (elemets_ m)
                  ((λ n : node, n.2.1) <$> elemets_ m) (data_ m)
                  (wf_index _ Hwf) (wf_vacant _ Hwf Hnz))
        as (data' & Hrun & Hlen & _ & Hvac & Hclr).
      exists data'. split_and!; try done.
      intros p s Hp.
      assert (Hplt : p < length (data_ m)).
      { apply lookup_lt_Some in Hp. lia. }
      assert (Hv : vacant data' p).
      { destruct (slot_cases _ _ Hplt) as [Hv|(t & Ht)]; [by apply Hvac|].
        destruct (io_live _ _ _ (wf_index _ Hwf) _ _ Ht) as (kv & Hd & _).
        apply (Hclr p t kv Ht Hd).
        apply deref_Some_elem in Hd. apply list_elem_of_fmap.
        by exists (iterator t, kv). }
      destruct Hv as (s' & Hs' & He'). congruence. }
  destruct Hgoal as (data' & Hrun & Hlen & Hall).
  exists {| hasher_ := hasher_ m; data_ := data'; size_ := 0; elemets_ := [];
            next_node_ := next_node_ m |}.
  simpl. split_and!; try done.
  - intros fuel Hf. unfold clear. by rewrite Hrun.
  - split; simpl.
    + done.
    + apply NoDup_nil_2.
    + intros n Hn. by apply elem_of_nil in Hn.
    + unfold REBUILD_CONSTANT. lia.
    + by rewrite occupied_count_vacant.
    + by apply index_ok_vacant.
Qed.

(** ** More fuel never changes a result *)

Definition outcome_le {A : Type} (a b : outcome A) : Prop :=
  ∀ r, a = Done r → b = Done r.

Lemma bind_Done {A B : Type} (c : outcome A) (k : A → outcome B) r :
  bind c k = Done r → ∃ a, c = Done a ∧ k a = Done r.
Proof. destruct c; simpl; [eauto|done..]. Qed.

Lemma bind_le {A B : Type} (c c' : outcome A) (k k' : A → outcome B) :
  outcome_le c c' → (∀ a, outcome_le (k a) (k' a)) →
  outcome_le (bind c k) (bind c' k').
Proof.
  intros Hc Hk r (a & Ha & Hr)%bind_Done.
  rewrite (Hc _ Ha). simpl. by apply Hk.
Qed.

Lemma outcome_le_refl {A : Type} (a : outcome A) : outcome_le a a.
Proof. by intros r. Qed.

Lemma foldl_le {A B : Type} (f g : A → B → outcome A) l :
  (∀ a b, outcome_le (f a b) (g a b)) →
  ∀ acc acc', outcome_le acc acc' →
    outcome_le (foldl (λ o b, let* a := o in f a b) acc l)
               (foldl (λ o b, let* a := o in g a b) acc' l).
Proof.
  intros Hfg. induction l as [|x l IH]; intros acc acc' Hacc; simpl; [done|].
  apply IH. apply bind_le; [done|]. intros a. apply Hfg.
Qed.

Lemma insert_loop_mono fuel fuel' elems data p d cur :
  fuel ≤ fuel' →
  outcome_le (insert_loop fuel elems data p d cur)
             (insert_loop fuel' elems data p d cur).
Proof.
  revert fuel' data p d cur.
  induction fuel as [|fuel IH]; intros [|fuel'] data p d cur Hle r;
    [done|done|lia|].
  simpl. repeat (case_match; try done); apply IH; lia.
Qed.

Lemma insert_mono fuel fuel' m kv :
  fuel ≤ fuel' → outcome_le (insert fuel m kv) (insert fuel' m kv).
Proof.
  revert fuel' m kv.
  induction fuel as [|fuel IH]; intros [|fuel'] m kv Hle;
    [done|done|intros r; lia|].
  simpl. case_decide.
  - unfold rebuild_with. apply foldl_le; [|apply outcome_le_refl].
    intros a b. apply IH. lia.
  - apply bind_le; [apply outcome_le_refl|]. intros position.
    apply bind_le; [|intros a; apply outcome_le_refl].
    apply insert_loop_mono. lia.
Qed.

Lemma insert_all_mono fuel fuel' m l :
  fuel ≤ fuel' → outcome_le (insert_all fuel m l) (insert_all fuel' m l).
Proof.
  intros Hle. unfold insert_all. apply foldl_le; [|apply outcome_le_refl].
  intros a b. by apply insert_mono.
Qed.

Lemma erase_shift_mono fuel fuel' data hole p :
  fuel ≤ fuel' →
  outcome_le (erase_shift fuel data hole p) (erase_shift fuel' data hole p).
Proof.
  revert fuel' data hole p.
  induction fuel as [|fuel IH]; intros [|fuel'] data hole p Hle r;
    [done|done|lia|].
  simpl. repeat (case_match; try done). apply IH; lia.
Qed.

Lemma erase_loop_mono fuel fuel' m key p d :
  fuel ≤ fuel' →
  outcome_le (erase_loop fuel m key p d) (erase_loop fuel' m key p d).
Proof.
  revert fuel' p d.
  induction fuel as [|fuel IH]; intros [|fuel'] p d Hle;
    [done|done|intros r; lia|].
  simpl. repeat (case_match; try apply outcome_le_refl);
    try (apply IH; lia).
  apply bind_le; [|intros a; apply outcome_le_refl].
  apply erase_shift_mono. lia.
Qed.

Lemma erase_mono fuel fuel' m key :
  fuel ≤ fuel' → outcome_le (erase fuel m key) (erase fuel' m key).
Proof.
  intros Hle. unfold erase. case_decide; [apply outcome_le_refl|].
  apply bind_le; [apply outcome_le_refl|]. intros p.
  by apply erase_loop_mono.
Qed.

Lemma find_loop_mono fuel fuel' m key p d :
  fuel ≤ fuel' →
  outcome_le (find_loop fuel m key p d) (find_loop fuel' m key p d).
Proof.
  revert fuel' p d.
  induction fuel as [|fuel IH]; intros [|fuel'] p d Hle;
    [done|done|intros r; lia|].
  simpl. repeat (case_match; try apply outcome_le_refl);
    apply IH; lia.
Qed.

Lemma find_mono fuel fuel' m key :
  fuel ≤ fuel' → outcome_le (find fuel m key) (find fuel' m key).
Proof.
  intros Hle. unfold find. case_decide; [apply outcome_le_refl|].
  apply bind_le; [apply outcome_le_refl|]. intros p.
  by apply find_loop_mono.
Qed.

Lemma clear_run_mono fuel fuel' data p :
  fuel ≤ fuel' → outcome_le (clear_run fuel data p) (clear_run fuel' data p).
Proof.
  revert fuel' data p.
  induction fuel as [|fuel IH]; intros [|fuel'] data p Hle r;
    [done|done|lia|].
  simpl. repeat (case_match; try done). apply IH; lia.
Qed.

Lemma clear_mono fuel fuel' m :
  fuel ≤ fuel' → outcome_le (clear fuel m) (clear fuel' m).
Proof.
  intros Hle. unfold clear.
  apply bind_le; [|intros a; apply outcome_le_refl].
  unfold clear_keys. apply foldl_le; [|apply outcome_le_refl].
  intros d key. apply bind_le; [apply outcome_le_refl|]. intros p.
  by apply clear_run_mono.
Qed.

Lemma outcome_agree {A : Type} (op : nat → outcome A) fuel r bound r0 :
  (∀ f f', f ≤ f' → outcome_le (op f) (op f')) →
  op fuel = Done r → (∀ f, bound ≤ f → op f = Done r0) → r = r0.
Proof.
  intros Hmono Hr Hr0.
  pose proof (Hmono fuel (fuel + bound) ltac:(lia) r Hr) as H1.
  rewrite Hr0 in H1 by lia. by simplify_eq.
Qed.

(** ** Sequences of inserts *)

Lemma insert_all_spec l :
  ∀ m C, wf m → length (data_ m) ≤ C + 6 * size_ m + 3 →
    ∃ m',
      (∀ fuel, 2 * (C + 6 * (size_ m + length l) + 3) + 5 ≤ fuel →
         insert_all fuel m l = Done m') ∧
      wf m' ∧
      hasher_ m' = hasher_ m ∧
      size_ m' = size_ m + length l ∧
      entries m' = entries m ++ l ∧
      (complete m → complete m') ∧
      length (data_ m') ≤ C + 6 * size_ m' + 3.
Proof.
  induction l as [|kv l IH]; intros m C Hwf Hcap.
  - exists m. split_and!; try done; try (simpl; lia).
    by rewrite app_nil_r.
  - destruct (insert_spec m kv Hwf) as (m1 & Hrun1 & Hp1).
    pose proof (ip_capacity _ _ _ Hp1) as Hc1.
    pose proof (ip_size _ _ _ Hp1) as Hs1.
    assert (Hcap1 : length (data_ m1) ≤ C + 6 * size_ m1 + 3).
    { rewrite Hc1, Hs1.
      unfold REBUILD_CONSTANT, EXTENDED_CONSTANT, EXTENDED_SHIFT.
      clear Hc1. case_decide; lia. }
    destruct (IH m1 C (ip_wf _ _ _ Hp1) Hcap1)
      as (m' & Hrun & Hwf' & Hh & Hsz & Hent & Hc & Hcap').
    exists m'. split_and!.
    + intros fuel Hf. rewrite insert_all_cons, Hrun1.
      * simpl. apply Hrun. rewrite Hs1. simpl in Hf. lia.
      * pose proof (wf_load _ Hwf) as Hload.
        unfold insert_fuel, REBUILD_CONSTANT, EXTENDED_CONSTANT,
          EXTENDED_SHIFT in *.
        simpl in Hf. lia.
    + done.
    + by rewrite Hh, (ip_hasher _ _ _ Hp1).
    + rewrite Hsz, Hs1. simpl. lia.
    + rewrite Hent, (ip_entries _ _ _ Hp1). by rewrite <- app_assoc.
    + intros Hcm. apply Hc. by apply (ip_complete _ _ _ Hp1).
    + done.
Qed.

Lemma HashMap_new_wf h : wf (HashMap_new h).
Proof.
  split; simpl; try done.
  - apply NoDup_nil_2.
  - intros n Hn. by apply elem_of_nil in Hn.
  - by apply index_ok_vacant.
Qed.

Lemma HashMap_new_complete h : complete (HashMap_new h).
Proof.
  intros k v. simpl. split; [|done]. by intros (p & s & [Hp _] & _).
Qed.

Lemma reserve_new_wf h n : wf (reserve_ (HashMap_new h) n).
Proof.
  split; simpl; try done.
  - apply NoDup_nil_2.
  - intros x Hx. by apply elem_of_nil in Hx.
  - unfold REBUILD_CONSTANT. lia.
  - rewrite resize_nil. by rewrite occupied_count_replicate.
  - apply index_ok_vacant. rewrite resize_nil. apply lookup_replicate_new.
Qed.

(** ** at and operator[] *)

Variable ValueType_new : ValueType.

Lemma at_stored m k v :
  wf m → stored m k v →
  ∀ fuel, length (data_ m) ≤ fuel → at_ fuel m k = Done v.
Proof.
  intros Hwf Hst fuel Hf.
  destruct (find_stored m k v Hwf Hst) as (it & Hfind & Hd).
  unfold at_. rewrite Hfind by done. simpl. by rewrite Hd.
Qed.

Lemma at_not_stored m k :
  wf m → (∀ v, ¬ stored m k v) →
  ∀ fuel, length (data_ m) ≤ fuel → at_ fuel m k = Throw out_of_range.
Proof.
  intros Hwf Hns fuel Hf. unfold at_.
  by rewrite (find_not_stored m k Hwf Hns fuel Hf).
Qed.

Lemma find_entry_stored m k v :
  wf m → stored m k v →
  ∀ fuel, length (data_ m) ≤ fuel →
    find_entry fuel m k = Done (Some (k, v)).
Proof.
  intros Hwf Hst fuel Hf.
  destruct (find_stored m k v Hwf Hst) as (it & Hfind & Hd).
  unfold find_entry. rewrite Hfind by done. simpl. by rewrite Hd.
Qed.

Lemma find_entry_not_stored m k :
  wf m → (∀ v, ¬ stored m k v) →
  ∀ fuel, length (data_ m) ≤ fuel → find_entry fuel m k = Done None.
Proof.
  intros Hwf Hns fuel Hf. unfold find_entry.
  by rewrite (find_not_stored m k Hwf Hns fuel Hf).
Qed.

Lemma stored_fun m k v v' : wf m → stored m k v → stored m k v' → v = v'.
Proof.
  intros Hwf (p & s & Hp & Hd) (q & t & Hq & Hd').
  assert (p = q) as ->.
  { by eapply (io_uniq _ _ _ (wf_index _ Hwf) _ _ _ _ _ _ Hp Hq Hd Hd'). }
  rewrite (occupied_fun _ _ _ _ Hp Hq) in Hd. congruence.
Qed.

Lemma stored_dec m k : wf m → (∃ v, stored m k v) ∨ (∀ v, ¬ stored m k v).
Proof.
  intros Hwf.
  destruct (key_in_index_dec (elemets_ m) (data_ m) k)
    as [(p & s & [k' v] & Hp & Hd & Hk)|Habs].
  - left. exists v, p, s. simpl in Hk. by subst.
  - right. intros v (p & s & Hp & Hd). by apply (Habs p s (k, v)).
Qed.

(** ** Copy assignment *)

(** What is left of the invariants once [reserve_] has resized the index of
    a map that holds entries: the list is intact and every occupied slot
    still refers to a live node, but the slots need not sit where the
    current capacity would put them. *)
Record safe m : Prop := {
  sf_size : size_ m = length (elemets_ m);
  sf_nodup : NoDup (elemets_ m).*1;
  sf_fresh : ∀ n, n ∈ elemets_ m → n.1 < next_node_ m;
  sf_count : occupied_count (data_ m) ≤ size_ m;
  sf_live : ∀ p s, occupied (data_ m) p s →
    is_Some (deref (elemets_ m) (iterator s))
}.

Lemma wf_safe m : wf m → safe m.
Proof.
  intros Hwf. split; try apply Hwf.
  intros p s Hp. destruct (io_live _ _ _ (wf_index _ Hwf) _ _ Hp) as (kv & Hd & _).
  by exists kv.
Qed.

Lemma insert_loop_safe elems :
  ∀ j data p d cur,
    (∀ q s, occupied data q s → is_Some (deref elems (iterator s))) →
    is_Some (deref elems cur) → p < length data →
    vacant data (walk (length data) p j) → j < length data →
    ∃ data',
      (∀ fuel, j < fuel → insert_loop fuel elems data p d cur = Done data') ∧
      length data' = length data ∧
      occupied_count data' ≤ S (occupied_count data) ∧
      (∀ q s, occupied data' q s → is_Some (deref elems (iterator s))).
Proof.
  assert (Hplace : ∀ data p d cur,
    (∀ q s, occupied data q s → is_Some (deref elems (iterator s))) →
    is_Some (deref elems cur) → vacant data p →
    ∃ data',
      (∀ fuel, 0 < fuel → insert_loop fuel elems data p d cur = Done data') ∧
      length data' = length data ∧
      occupied_count data' ≤ S (occupied_count data) ∧
      (∀ q s, occupied data' q s → is_Some (deref elems (iterator s)))).
  { intros data p d cur Hlive Hcur Hv.
    exists (<[p := mkSlot false d cur]> data). split_and!.
    - intros [|fuel] Hf; [lia|]. simpl. by destruct Hv as (s & -> & ->).
    - by rewrite length_insert.
    - destruct Hv as (s & Hs & He).
      pose proof (occupied_count_insert data p (mkSlot false d cur) s Hs) as Hn.
      rewrite He in Hn. simpl in Hn. lia.
    - intros q s Hq.
      apply occupied_insert_inv in Hq as [(-> & -> & _)|[Hne Hq]]; eauto. }
  induction j as [|j IH]; intros data p d cur Hlive Hcur Hp Hv Hj.
  { rewrite walk_0 in Hv by done.
    destruct (Hplace data p d cur Hlive Hcur Hv) as (data' & Hrun & Hrest).
    exists data'. split; [|done]. intros fuel Hf. apply Hrun. lia. }
  destruct (slot_cases _ _ Hp) as [Hvp|(s0 & Hs0)].
  { destruct (Hplace data p d cur Hlive Hcur Hvp) as (data' & Hrun & Hrest).
    exists data'. split; [|done]. intros fuel Hf. apply Hrun. lia. }
  destruct (Hlive _ _ Hs0) as [kv0 Hd0]. destruct Hcur as [kvc Hdc].
  assert (Hne : walk (length data) p (S j) ≠ p).
  { rewrite <- (walk_0 (length data) p) at 2 by done.
    apply not_eq_sym, walk_inj; lia. }
  pose proof (next_lt _ _ Hp) as Hnext.
  destruct (decide (kv0.1 = kvc.1)) as [Hdup|Hnew].
  { exists data. split_and!; [|done|lia|done].
    intros [|fuel] Hf; [lia|]. simpl. destruct Hs0 as [-> ->].
    rewrite Hd0, Hdc. by rewrite decide_True. }
  destruct (decide (distance s0 < d)) as [Hswap|Hkeep].
  - set (data1 := <[p := mkSlot false d cur]> data).
    assert (Hlen1 : length data1 = length data) by apply length_insert.
    destruct (IH data1 (next_ (length data) p) (S (distance s0)) (iterator s0))
      as (data' & Hrun & Hlen & Hcnt & Hlive').
    + intros q s Hq.
      apply occupied_insert_inv in Hq as [(-> & -> & _)|[Hneq Hq]]; eauto.
    + eauto.
    + by rewrite Hlen1.
    + rewrite Hlen1, walk_shift by done. by apply vacant_insert_ne.
    + lia.
    + exists data'. split_and!; [|congruence| |done].
      * intros [|fuel] Hf; [lia|]. simpl.
        destruct Hs0 as [-> ->]. rewrite Hd0, Hdc.
        rewrite decide_False by done. rewrite decide_True by done.
        apply Hrun. lia.
      * destruct Hs0 as [Hl He].
        pose proof (occupied_count_insert data p (mkSlot false d cur) s0 Hl)
          as Hn. rewrite He in Hn. simpl in Hn. fold data1 in Hn. lia.
  - destruct (IH data (next_ (length data) p) (S d) cur)
      as (data' & Hrun & Hrest); [done|eauto|done| |lia|].
    { by rewrite walk_shift. }
    exists data'. split; [|done].
    intros [|fuel] Hf; [lia|]. simpl.
    destruct Hs0 as [-> ->]. rewrite Hd0, Hdc.
    rewrite decide_False by done. rewrite decide_False by done.
    apply Hrun. lia.
Qed.

(** [insert] on such a map still returns: either it rebuilds, which
    restores every invariant, or it probes the index as it is. *)
Lemma insert_safe m kv :
  safe m →
  ∃ m',
    (∀ fuel,
       2 * (2 * length (data_ m) + 3 + 6 * (size_ m + 1) + 3) + 6 ≤ fuel →
       insert fuel m kv = Done m') ∧
    safe m' ∧
    hasher_ m' = hasher_ m ∧
    size_ m' = S (size_ m) ∧
    entries m' = entries m ++ [kv] ∧
    ((wf m' ∧ complete m' ∧
      length (data_ m') ≤ 2 * length (data_ m) + 3 + 6 * size_ m' + 3) ∨
     (length (data_ m') = length (data_ m) ∧
      3 * size_ m' ≤ length (data_ m))).
Proof.
  intros Hsafe. pose proof (sf_size _ Hsafe) as Hsz.
  destruct (decide (length (data_ m) < S (size_ m) * REBUILD_CONSTANT))
    as [Hre|Hroom].
  - destruct (insert_all_spec (entries m ++ [kv]) (rebuild_start m)
                (2 * length (data_ m) + 3) (rebuild_start_wf m))
      as (m' & Hrun & Hwf' & Hh & Hsz' & Hent & Hc & Hcap).
    { simpl. rewrite length_replicate.
      unfold EXTENDED_CONSTANT, EXTENDED_SHIFT. lia. }
    simpl in *. rewrite length_app in *. unfold entries in Hrun, Hsz'.
    rewrite length_fmap in *. simpl in *.
    exists m'. split_and!; try done.
    + intros [|fuel] Hf; [lia|]. rewrite insert_rebuild_eq by done.
      apply Hrun. lia.
    + by apply wf_safe.
    + lia.
    + left. split_and!; [done|apply Hc, rebuild_start_complete|].
      rewrite Hsz' in Hcap. rewrite Hsz'. lia.
  - unfold REBUILD_CONSTANT in Hroom.
    pose proof (sf_count _ Hsafe) as Hcnt.
    set (elems1 := elemets_ m ++ [(next_node_ m, kv)]).
    assert (Hnew : deref elems1 (next_node_ m) = Some kv).
    { unfold elems1. rewrite deref_app_r; [simpl; by rewrite decide_True|].
      apply deref_None. intros n Hn. apply (sf_fresh _ Hsafe) in Hn. lia. }
    destruct (exists_vacant (data_ m)) as [e He]; [lia|].
    destruct (walk_surj (length (data_ m))
                (walk (length (data_ m)) (hasher_ m kv.1) 0) e)
      as (j & Hj & Hwj); [by eapply vacant_lt|].
    destruct (insert_loop_safe elems1 j (data_ m)
                (walk (length (data_ m)) (hasher_ m kv.1) 0) 0 (next_node_ m))
      as (data' & Hrun & Hlen & Hcnt' & Hlive').
    { intros q s Hq. destruct (sf_live _ Hsafe _ _ Hq) as [kv' Hd].
      exists kv'. by apply deref_app_l. }
    { eauto. }
    { apply walk_lt. lia. }
    { by rewrite Hwj. }
    { done. }
    exists {| hasher_ := hasher_ m; data_ := data'; size_ := S (size_ m);
              elemets_ := elems1; next_node_ := S (next_node_ m) |}.
    simpl. split_and!; try done.
    + intros [|fuel] Hf; [lia|]. simpl.
      rewrite decide_False by (unfold REBUILD_CONSTANT; lia).
      rewrite home_walk by lia. simpl. fold elems1.
      rewrite Hrun by lia. done.
    + split; simpl; [ | | |lia|done].
      * unfold elems1. rewrite length_app. simpl. lia.
      * unfold elems1. rewrite fmap_app. simpl. apply NoDup_app. split_and!.
        -- apply (sf_nodup _ Hsafe).
        -- intros i Hi Hi'. apply list_elem_of_singleton in Hi'. subst i.
           apply list_elem_of_fmap in Hi as (n & Hn1 & Hn).
           apply (sf_fresh _ Hsafe) in Hn. lia.
        -- apply NoDup_singleton.
      * intros n Hn. unfold elems1 in Hn.
        apply elem_of_app in Hn as [Hn|Hn].
        -- apply (sf_fresh _ Hsafe) in Hn. lia.
        -- apply list_elem_of_singleton in Hn. subst n. simpl. lia.
    + unfold entries, elems1. simpl. apply entries_snoc.
    + right. split; [done|lia].
Qed.

Lemma insert_all_safe l :
  ∀ m c0, safe m → length (data_ m) = c0 →
    ∃ m',
      (∀ fuel,
         2 * (2 * c0 + 3 + 6 * (size_ m + length l) + 3) + 6 ≤ fuel →
         insert_all fuel m l = Done m') ∧
      hasher_ m' = hasher_ m ∧
      size_ m' = size_ m + length l ∧
      entries m' = entries m ++ l ∧
      ((wf m' ∧ complete m' ∧
        length (data_ m') ≤ 2 * c0 + 3 + 6 * size_ m' + 3) ∨
       3 * size_ m' ≤ c0 ∨ l = []).
Proof.
  induction l as [|kv l IH]; intros m c0 Hsafe Hc0.
  { exists m. split_and!; try done; try (simpl; lia); auto.
    by rewrite app_nil_r. }
  destruct (insert_safe m kv Hsafe)
    as (m1 & Hrun1 & Hsafe1 & Hh1 & Hs1 & He1 & Hcase).
  rewrite Hc0 in Hrun1, Hcase. simpl.
  destruct Hcase as [(Hwf1 & Hcomp1 & Hcap1)|[Hlen1 Hload1]].
  - destruct (insert_all_spec l m1 (2 * c0 + 3) Hwf1 Hcap1)
      as (m' & Hrun & Hwf' & Hh & Hsz & Hent & Hc & Hcap').
    exists m'. split_and!.
    + intros fuel Hf. rewrite insert_all_cons, Hrun1 by lia. simpl.
      apply Hrun. lia.
    + congruence.
    + lia.
    + rewrite Hent, He1. by rewrite <- app_assoc.
    + left. auto.
  - destruct (IH m1 c0 Hsafe1 Hlen1)
      as (m' & Hrun & Hh & Hsz & Hent & Hcase).
    exists m'. split_and!.
    + intros fuel Hf. rewrite insert_all_cons, Hrun1 by lia. simpl.
      apply Hrun. lia.
    + congruence.
    + lia.
    + rewrite Hent, He1. by rewrite <- app_assoc.
    + destruct Hcase as [?|[?| ->]]; [by left|right; by left|].
      right. left. simpl in Hsz. lia.
Qed.

Lemma occupied_count_app data data' :
  occupied_count (data ++ data') = occupied_count data + occupied_count data'.
Proof. unfold occupied_count. by rewrite filter_app, length_app. Qed.

Lemma occupied_count_resize n data :
  occupied_count (resize n HashTableData_new data) ≤ occupied_count data.
Proof.
  rewrite resize_spec, occupied_count_app, occupied_count_replicate.
  rewrite <- (take_drop n data) at 2. rewrite occupied_count_app. lia.
Qed.

Lemma occupied_resize n data p s :
  occupied (resize n HashTableData_new data) p s → occupied data p s.
Proof.
  intros [Hp He]. split; [|done].
  pose proof (lookup_lt_Some _ _ _ Hp) as Hlt. rewrite length_resize in Hlt.
  destruct (decide (p < length data)) as [Hin|Hout].
  - by rewrite lookup_resize in Hp.
  - rewrite lookup_resize_new in Hp by lia. by simplify_eq.
Qed.

(** The map on which the insert loop of [operator=] starts. *)
Definition assign_start (m another : HashMap) : HashMap :=
  reserve_ {| hasher_ := hasher_ another; data_ := data_ m;
              size_ := size_ m; elemets_ := elemets_ m;
              next_node_ := next_node_ m |} (size another).

Lemma assign_start_safe m another : safe m → safe (assign_start m another).
Proof.
  intros Hs. split; simpl; try apply Hs.
  - etrans; [apply occupied_count_resize|apply (sf_count _ Hs)].
  - intros p s Hp%occupied_resize. by apply (sf_live _ Hs p s).
Qed.

Lemma assign_start_wf m another :
  safe m → size_ m = 0 → size another = 0 → wf (assign_start m another).
Proof.
  intros Hsafe Hz Hz'. pose proof (sf_size _ Hsafe) as Hs. rewrite Hz in Hs.
  symmetry in Hs. apply length_zero_iff_nil in Hs.
  split; simpl; rewrite ?Hs, ?Hz, ?Hz'; simpl.
  - done.
  - apply NoDup_nil_2.
  - intros n Hn. by apply elem_of_nil in Hn.
  - rewrite resize_0. simpl. unfold REBUILD_CONSTANT. lia.
  - by rewrite resize_0.
  - by apply index_ok_vacant; rewrite resize_0.
Qed.

(** ** The map that has lost its index *)

(** The state [operator=] leaves behind when the source is empty and the
    destination holds entries: [reserve_(0)] has resized the index to
    length zero, while the list and [size_] are as they were.  The emptiness
    guards of [find] and [erase] test [size_], which is positive, so that
    every member that looks a key up computes
    [hasher_(key) % data_.size()] with [data_.size() == 0]. *)
Definition index_lost m : Prop :=
  safe m ∧ data_ m = [] ∧ size_ m ≠ 0.

Lemma lost_find fuel m key : index_lost m → find fuel m key = Undefined.
Proof.
  intros (_ & Hd & Hs). unfold find. rewrite decide_False by done.
  by rewrite Hd.
Qed.

Lemma lost_erase fuel m key : index_lost m → erase fuel m key = Undefined.
Proof.
  intros (_ & Hd & Hs). unfold erase. rewrite decide_False by done.
  by rewrite Hd.
Qed.

Lemma lost_find_entry fuel m key :
  index_lost m → find_entry fuel m key = Undefined.
Proof. intros Hl. unfold find_entry. by rewrite lost_find. Qed.

Lemma lost_at fuel m key : index_lost m → at_ fuel m key = Undefined.
Proof. intros Hl. unfold at_. by rewrite lost_find. Qed.

Lemma lost_index fuel m key :
  index_lost m → index ValueType_new fuel m key = Undefined.
Proof. intros Hl. unfold index. by rewrite lost_find. Qed.

Lemma clear_keys_Undefined fuel h keys :
  foldl (λ acc key,
           let* d := acc in
           let* position := home h (length d) key in
           clear_run fuel d position)
    Undefined keys = Undefined.
Proof. induction keys as [|key keys IH]; simpl; done. Qed.

Lemma lost_clear fuel m : index_lost m → clear fuel m = Undefined.
Proof.
  intros (Hsafe & Hd & Hs). pose proof (sf_size _ Hsafe) as Hsz.
  unfold clear, clear_keys. rewrite Hd.
  destruct (elemets_ m) as [|n elems]; [simpl in Hsz; lia|].
  simpl. by rewrite clear_keys_Undefined.
Qed.

(** [insert] on such a map rebuilds, and the re-insertions rebuild again:
    it returns a well-formed map whose index holds every key. *)
Lemma lost_insert m kv :
  index_lost m →
  ∃ m',
    (∀ fuel, insert_fuel m ≤ fuel → insert fuel m kv = Done m') ∧
    wf m' ∧ complete m' ∧
    hasher_ m' = hasher_ m ∧
    size_ m' = S (size_ m) ∧
    entries m' = entries m ++ [kv].
Proof.
  intros (Hsafe & Hd & Hs).
  destruct (insert_safe m kv Hsafe)
    as (m' & Hrun & _ & Hh & Hsz & Hent & Hcase).
  rewrite Hd in Hrun, Hcase. simpl in Hrun, Hcase.
  destruct Hcase as [(Hwf & Hc & _)|[_ Hload]]; [|lia].
  exists m'. split_and!; try done.
  intros fuel Hf. apply Hrun. revert Hf.
  unfold insert_fuel, REBUILD_CONSTANT, EXTENDED_CONSTANT, EXTENDED_SHIFT.
  rewrite Hd. simpl. lia.
Qed.

(** Copy assignment, whatever the two maps hold: the result is well formed,
    or has lost its index. *)
Lemma assign_cases fuel m another m' :
  safe m → safe another →
  assign fuel m another = Done m' → wf m' ∨ index_lost m'.
Proof.
  intros Hsafe Hsafeb Hr. unfold size in *.
  assert (Hlb : length (entries another) = size_ another).
  { unfold entries. rewrite length_fmap. symmetry. apply (sf_size _ Hsafeb). }
  destruct (insert_all_safe (entries another) (assign_start m another)
              (2 * size_ another) (assign_start_safe m another Hsafe))
    as (m0 & Hrun & _ & Hsz & _ & Hcase).
  { simpl. by rewrite length_resize. }
  assert (m' = m0) as ->.
  { eapply (outcome_agree
              (λ f, insert_all f (assign_start m another) (entries another)));
      [|exact Hr|exact Hrun].
    intros f f'. apply insert_all_mono. }
  simpl in Hsz. rewrite Hlb in *.
  destruct Hcase as [(Hwf0 & _)|Hstale]; [by left|].
  assert (Hzb : size_ another = 0).
  { destruct Hstale as [Hload|Hnil]; [lia|].
    rewrite Hnil in Hlb. simpl in Hlb. lia. }
  destruct (entries another) eqn:Hent; [|simpl in Hlb; lia].
  specialize (Hrun _ (Nat.le_refl _)). unfold insert_all in Hrun.
  simpl in Hrun. simplify_eq.
  destruct (decide (size_ m = 0)) as [Hza|Hnz].
  - left. by apply assign_start_wf.
  - right. split_and!; [by apply assign_start_safe| |done].
    simpl. unfold size. rewrite Hzb. by rewrite resize_0.
Qed.

(** ** Reachable maps *)

(** The maps a program can build with the constructors, the mutating
    members [insert], [erase], [operator[]] and [clear], and copy
    assignment between two objects.  The second rule is the state of the
    range, initializer-list and copy constructors after their call of
    [reserve_]. *)
Inductive reachable : HashMap → Prop :=
  | reach_new h : reachable (HashMap_new h)
  | reach_reserve h n : reachable (reserve_ (HashMap_new h) n)
  | reach_insert m fuel kv m' :
      reachable m → insert fuel m kv = Done m' → reachable m'
  | reach_erase m fuel key m' :
      reachable m → erase fuel m key = Done m' → reachable m'
  | reach_index m fuel key m' it v :
      reachable m → index ValueType_new fuel m key = Done (m', it, v) →
      reachable m'
  | reach_clear m fuel m' :
      reachable m → clear fuel m = Done m' → reachable m'
  | reach_assign m another fuel m' :
      reachable m → reachable another →
      assign fuel m another = Done m' → reachable m'.

Lemma insert_wf fuel m kv m' : wf m → insert fuel m kv = Done m' → wf m'.
Proof.
  intros Hwf Hr. destruct (insert_spec m kv Hwf) as (m0 & Hrun & Hp).
  rewrite (outcome_agree (λ f, insert f m kv) fuel m' (insert_fuel m) m0);
    [apply (ip_wf _ _ _ Hp)| |done..].
  intros f f'. apply insert_mono.
Qed.

Lemma erase_wf fuel m key m' : wf m → erase fuel m key = Done m' → wf m'.
Proof.
  intros Hwf Hr. destruct (stored_dec m key Hwf) as [[v Hst]|Hns].
  - destruct (erase_stored m key v Hwf Hst) as (m0 & it & Hrun & Hp & _).
    rewrite (outcome_agree (λ f, erase f m key) fuel m'
               (2 * length (data_ m)) m0);
      [apply (ep_wf _ _ _ Hp)| |done..].
    intros f f'. apply erase_mono.
  - rewrite (outcome_agree (λ f, erase f m key) fuel m' (length (data_ m)) m);
      [done| |done|by apply erase_not_stored].
    intros f f'. apply erase_mono.
Qed.

Lemma clear_wf fuel m m' : wf m → clear fuel m = Done m' → wf m'.
Proof.
  intros Hwf Hr. destruct (clear_spec m Hwf) as (m0 & Hrun & Hwf0 & _).
  rewrite (outcome_agree (λ f, clear f m) fuel m' (S (length (data_ m))) m0);
    [done| |done|intros f Hf; apply Hrun; lia].
  intros f f'. apply clear_mono.
Qed.

Lemma index_wf fuel m key m' it v :
  wf m → index ValueType_new fuel m key = Done (m', it, v) → wf m'.
Proof.
  intros Hwf Hr. unfold index in Hr.
  apply bind_Done in Hr as ([i|] & Hfind & Hr).
  - destruct (deref (elemets_ m) i); by simplify_eq.
  - apply bind_Done in Hr as (m1 & Hins & Hr).
    apply bind_Done in Hr as ([i|] & _ & Hr); [|done].
    destruct (deref (elemets_ m1) i); [|done]. simplify_eq.
    by eapply insert_wf.
Qed.

(** A reachable map is well formed, unless it has lost its index. *)
Lemma reachable_cases m : reachable m → wf m ∨ index_lost m.
Proof.
  induction 1 as [h|h n|m fuel kv m' _ [Hwf|Hl] Hr|m fuel key m' _ [Hwf|Hl] Hr
                 |m fuel key m' it v _ [Hwf|Hl] Hr|m fuel m' _ [Hwf|Hl] Hr
                 |m another fuel m' _ IHm _ IHa Hr].
  - left. apply HashMap_new_wf.
  - left. apply reserve_new_wf.
  - left. by eapply insert_wf.
  - left. destruct (lost_insert m kv Hl) as (m0 & Hrun & Hwf0 & _).
    rewrite (outcome_agree (λ f, insert f m kv) fuel m' (insert_fuel m) m0);
      [done| |done..].
    intros f f'. apply insert_mono.
  - left. by eapply erase_wf.
  - rewrite lost_erase in Hr by done. done.
  - left. by eapply index_wf.
  - rewrite lost_index in Hr by done. done.
  - left. by eapply clear_wf.
  - rewrite lost_clear in Hr by done. done.
  - eapply (assign_cases fuel m another); [| |done].
    + destruct IHm as [?|(? & _)]; [by apply wf_safe|done].
    + destruct IHa as [?|(? & _)]; [by apply wf_safe|done].
Qed.

Lemma reachable_safe m : reachable m → safe m.
Proof. intros [?|(? & _)]%reachable_cases; [by apply wf_safe|done]. Qed.

(** The reachable maps that keep the load factor are the well-formed
    ones. *)
Lemma reachable_load m :
  reachable m → 3 * size m ≤ capacity m → wf m.
Proof.
  intros [?|(_ & Hd & Hs)]%reachable_cases; [done|].
  unfold capacity, size. rewrite Hd. simpl. lia.
Qed.

(** A lookup that returns, and an occupied slot, are signs of a well-formed
    map. *)
Lemma reachable_found fuel m key r :
  reachable m → find_entry fuel m key = Done r → wf m.
Proof.
  intros [?|Hl]%reachable_cases Hf; [done|].
  by rewrite lost_find_entry in Hf.
Qed.

Lemma reachable_occupied m p s :
  reachable m → occupied (data_ m) p s → wf m.
Proof.
  intros [?|(_ & Hd & _)]%reachable_cases Hp; [done|].
  rewrite Hd in Hp. by destruct Hp.
Qed.

(** [insert] on a reachable map, with or without its index. *)
Lemma insert_reachable m kv :
  reachable m →
  ∃ m',
    (∀ fuel, insert_fuel m ≤ fuel → insert fuel m kv = Done m') ∧
    wf m' ∧
    hasher_ m' = hasher_ m ∧
    size_ m' = S (size_ m) ∧
    entries m' = entries m ++ [kv] ∧
    length (data_ m) ≤ length (data_ m') ∧
    ((∀ v, (kv.1, v) ∉ entries m) → stored m' kv.1 kv.2).
Proof.
  intros [Hwf|Hl]%reachable_cases.
  - destruct (insert_spec m kv Hwf) as (m' & Hrun & Hp).
    exists m'. split_and!.
    + done.
    + apply (ip_wf _ _ _ Hp).
    + apply (ip_hasher _ _ _ Hp).
    + apply (ip_size _ _ _ Hp).
    + apply (ip_entries _ _ _ Hp).
    + rewrite (ip_capacity _ _ _ Hp).
      unfold EXTENDED_CONSTANT, EXTENDED_SHIFT. case_decide; lia.
    + apply (ip_new _ _ _ Hp).
  - destruct (lost_insert m kv Hl) as (m' & Hrun & Hwf' & Hc & Hh & Hsz & Hent).
    exists m'. split_and!; try done.
    + destruct Hl as (_ & Hd & _). rewrite Hd. simpl. lia.
    + intros Habs. apply Hc. rewrite Hent, assoc_first_app.
      destruct (assoc_first (entries m) kv.1) as [v|] eqn:Ha.
      * apply assoc_first_Some_elem in Ha. destruct (Habs _ Ha).
      * simpl. by rewrite decide_True.
Qed.

Lemma insert_all_reachable fuel l :
  ∀ m m', reachable m → insert_all fuel m l = Done m' → reachable m'.
Proof.
  induction l as [|kv l IH]; intros m m' Hm Hrun.
  - unfold insert_all in Hrun. simpl in Hrun. by simplify_eq.
  - rewrite insert_all_cons in Hrun.
    apply bind_Done in Hrun as (m1 & Hins & Hrun).
    eapply IH; [|done]. by eapply reach_insert.
Qed.

(** The range and initializer-list constructors and the copy constructor
    build reachable maps. *)
Lemma HashMap_of_list_reachable fuel h l m :
  HashMap_of_list fuel h l = Done m → reachable m.
Proof. apply insert_all_reachable, reach_reserve. Qed.

Lemma HashMap_copy_reachable fuel another m :
  HashMap_copy fuel another = Done m → reachable m.
Proof. apply insert_all_reachable, reach_reserve. Qed.

(** ** The specification *)

Lemma NoDup_fst_unique (l : list (KeyType * ValueType)) k v v' :
  NoDup l.*1 → (k, v) ∈ l → (k, v') ∈ l → v = v'.
Proof.
  induction l as [|[k0 v0] l IH]; simpl.
  - intros _ Hin. by apply elem_of_nil in Hin.
  - intros [Hni Hnd]%NoDup_cons [Heq|Hin]%elem_of_cons [Heq'|Hin']%elem_of_cons.
    + by simplify_eq.
    + simplify_eq. destruct Hni. apply list_elem_of_fmap.
      eexists (_, _). split; [|eassumption]. done.
    + simplify_eq. destruct Hni. apply list_elem_of_fmap.
      eexists (_, _). split; [|eassumption]. done.
    + by apply IH.
Qed.

(** C2. For every list of pairs with pairwise-distinct keys, inserting the
    pairs one after the other into a default-constructed map succeeds;
    afterwards [size()] is the number of pairs, iteration from [begin()] to
    [end()] yields exactly these pairs in insertion order, and every key is
    looked up with its value. *)
Theorem insert_distinct_keys h (l : list (KeyType * ValueType)) :
  NoDup l.*1 →
  ∃ m,
    (∀ fuel,
       insert_all (12 * length l + 11 + fuel) (HashMap_new h) l = Done m) ∧
    size m = length l ∧
    entries m = l ∧
    (∀ k v fuel, (k, v) ∈ l → at_ (capacity m + fuel) m k = Done v).
Proof.
  intros Hnd.
  destruct (insert_all_spec l (HashMap_new h) 0 (HashMap_new_wf h))
    as (m & Hrun & Hwf & _ & Hsz & Hent & Hc & _); [simpl; lia|].
  simpl in *. specialize (Hc (HashMap_new_complete h)).
  exists m. split_and!; try done.
  - intros fuel. apply Hrun. lia.
  - intros k v fuel Hin. apply at_stored; [done| |unfold capacity; lia].
    apply Hc. rewrite Hent. apply assoc_first_unique; [done|].
    intros v' Hin'. by eapply NoDup_fst_unique.
Qed.

(** *** Every call of insert *)

(** Growing the index once: [EXTENDED_CONSTANT * data_.size() +
    EXTENDED_SHIFT]. *)
Definition grow (c : nat) : nat := EXTENDED_CONSTANT * c + EXTENDED_SHIFT.

Lemma insert_loop_length fuel :
  ∀ elems data p d cur data',
    insert_loop fuel elems data p d cur = Done data' →
    length data' = length data.
Proof.
  induction fuel as [|fuel IH]; intros elems data p d cur data' Hr; [done|].
  simpl in Hr. destruct (data !! p) as [slot|]; [|done].
  destruct (is_empty slot).
  - simplify_eq. by rewrite length_insert.
  - destruct (deref elems (iterator slot)) as [kv1|]; [|done].
    destruct (deref elems cur) as [kv2|]; [|done].
    repeat case_decide; simplify_eq; [done| |].
    + apply IH in Hr. rewrite Hr. by rewrite length_insert.
    + by apply IH in Hr.
Qed.

Lemma insert_all_grows fuel l :
  (∀ m kv m', insert fuel m kv = Done m' →
     ∃ n, capacity m' = Nat.iter n grow (capacity m)) →
  ∀ m m', insert_all fuel m l = Done m' →
    ∃ n, capacity m' = Nat.iter n grow (capacity m).
Proof.
  intros Hins. induction l as [|kv l IH]; intros m m' Hr.
  - unfold insert_all in Hr. simpl in Hr. simplify_eq. by exists 0.
  - rewrite insert_all_cons in Hr.
    apply bind_Done in Hr as (m1 & Hr1 & Hr).
    destruct (Hins _ _ _ Hr1) as [n1 Hn1].
    destruct (IH _ _ Hr) as [n Hn].
    exists (n + n1). by rewrite Nat.iter_add, <- Hn1.
Qed.

(** Whatever the map, an insert that returns has grown the index by
    rebuild steps only, and by none exactly when it had room. *)
Lemma insert_grows fuel :
  ∀ m kv m',
    insert fuel m kv = Done m' →
    ∃ n, capacity m' = Nat.iter n grow (capacity m) ∧
         (n = 0 ↔ 3 * (size m + 1) ≤ capacity m).
Proof.
  induction fuel as [|fuel IH]; intros m kv m' Hr; [done|].
  destruct (decide (length (data_ m) < S (size_ m) * REBUILD_CONSTANT))
    as [Hre|Hroom].
  - rewrite insert_rebuild_eq in Hr by done.
    destruct (insert_all_grows fuel (entries m ++ [kv])) with
      (m := rebuild_start m) (m' := m') as [n Hn]; [|done|].
    { intros m0 kv0 m0' Hr0. destruct (IH _ _ _ Hr0) as (n & Hn & _).
      by exists n. }
    exists (S n). split.
    + rewrite Nat.iter_succ_r, Hn. unfold capacity, grow. simpl.
      by rewrite length_replicate.
    + unfold capacity, size, REBUILD_CONSTANT in *. split; [done|lia].
  - simpl in Hr. rewrite decide_False in Hr by done.
    apply bind_Done in Hr as (pos & _ & Hr).
    apply bind_Done in Hr as (data' & Hl & Hr). simplify_eq.
    exists 0. unfold capacity, size, REBUILD_CONSTANT in *. simpl. split.
    + by eapply insert_loop_length.
    + split; [intros _; lia|done].
Qed.

(** The maps on which the program calls [insert]: the reachable ones (the
    member [insert] itself, [operator[]], and the first call of a
    constructor), the destination of [operator=] after its [reserve_], the
    fresh map on which [rebuild_] starts re-inserting, and the map an
    earlier call of a loop of inserts has returned. *)
Inductive insert_site : HashMap → Prop :=
  | site_reachable m : reachable m → insert_site m
  | site_assign m another :
      reachable m → reachable another →
      insert_site (assign_start m another)
  | site_rebuild m :
      insert_site m → capacity m < 3 * (size m + 1) →
      insert_site (rebuild_start m)
  | site_next m fuel kv m' :
      insert_site m → insert fuel m kv = Done m' → insert_site m'.

Lemma insert_site_safe m : insert_site m → safe m.
Proof.
  induction 1 as [m Hm|m another Hm _|m _ _ _|m fuel kv m' _ IH Hr].
  - by apply reachable_safe.
  - by apply assign_start_safe, reachable_safe.
  - apply wf_safe, rebuild_start_wf.
  - destruct (insert_safe m kv IH) as (m0 & Hrun & Hsafe0 & _).
    rewrite (outcome_agree (λ f, insert f m kv) fuel m'
               (2 * (2 * length (data_ m) + 3 + 6 * (size_ m + 1) + 3) + 6)
               m0); [done| |done|exact Hrun].
    intros f f'. apply insert_mono.
Qed.

(** C3. Every call of [insert] returns, on whatever map the program makes
    it, the calls inside [operator=] and [rebuild_] included.  Afterwards
    [3 * size() <= capacity] holds for the capacity [data_.size()], and the
    index has a vacant slot.  The capacity has grown by rebuild steps only,
    each from [c] to [2 * c + 3]: by none exactly when the old capacity had
    room for the new size, and by exactly one whenever the load factor held
    before the call. *)
Theorem insert_load_factor m kv :
  insert_site m →
  ∃ m' n,
    (∀ fuel,
       insert (4 * capacity m + 12 * size m + 30 + fuel) m kv = Done m') ∧
    3 * size m' ≤ capacity m' ∧
    capacity m' = Nat.iter n grow (capacity m) ∧
    (n = 0 ↔ 3 * (size m + 1) ≤ capacity m) ∧
    (3 * size m ≤ capacity m → n ≤ 1) ∧
    (∃ p, vacant (data_ m') p).
Proof.
  intros Hsafe%insert_site_safe.
  destruct (insert_safe m kv Hsafe)
    as (m' & Hrun & Hsafe' & _ & Hsz & _ & Hcase).
  assert (Hload : 3 * size_ m' ≤ length (data_ m')).
  { destruct Hcase as [(Hwf & _)|[Hlen Hl]]; [apply (wf_load _ Hwf)|lia]. }
  assert (Hvac : ∃ p, vacant (data_ m') p).
  { apply exists_vacant. pose proof (sf_count _ Hsafe'). lia. }
  assert (Hfuel : ∀ fuel,
    insert (4 * capacity m + 12 * size m + 30 + fuel) m kv = Done m').
  { intros fuel. apply Hrun. unfold capacity, size. lia. }
  destruct (insert_grows _ _ _ _ (Hfuel 0)) as (n & Hn & Hiff).
  destruct (decide (3 * size m ≤ capacity m ∧ n ≠ 0)) as [[Hl Hn0]|Hother].
  - (* the load factor held before, and the insert rebuilds *)
    assert (Hre : length (data_ m) < S (size_ m) * REBUILD_CONSTANT).
    { unfold capacity, size, REBUILD_CONSTANT in *. lia. }
    destruct (insert_all_room (entries m ++ [kv]) (rebuild_start m)
                (rebuild_start_wf m))
      as (m0 & Hrun0 & _ & _ & Hlen0 & _).
    { simpl. rewrite length_app, length_replicate. simpl.
      unfold entries. rewrite length_fmap, <- (sf_size _ Hsafe).
      unfold capacity, size, REBUILD_CONSTANT, EXTENDED_CONSTANT,
        EXTENDED_SHIFT in *. lia. }
    simpl in Hrun0, Hlen0. rewrite length_replicate in Hrun0, Hlen0.
    assert (m' = m0) as ->.
    { apply (outcome_agree (λ f, insert f m kv)
               (4 * capacity m + 12 * size m + 30 + 0) m'
               (S (S (EXTENDED_CONSTANT * length (data_ m) + EXTENDED_SHIFT)))
               m0); [intros f f'; apply insert_mono|apply Hfuel|].
      intros [|f] Hf; [lia|]. rewrite insert_rebuild_eq by done.
      apply Hrun0. unfold EXTENDED_CONSTANT in Hf. lia. }
    exists m0, 1. split_and!; [done|done| | | |done].
    + simpl. unfold capacity, grow, EXTENDED_CONSTANT. lia.
    + unfold capacity, size, REBUILD_CONSTANT in *. lia.
    + intros _. lia.
  - exists m', n. split_and!; [done|done|done|done| |done].
    intros Hl. destruct (decide (n = 0)) as [->|Hn0]; [lia|].
    destruct Hother. by split.
Qed.

(** Erase-then-find on a well-formed map: [erase(k)] returns, and
    afterwards [find(k) == end()]; when [k] is not found beforehand (on an
    empty map in particular), or has no entry in the list at all, the map
    is left exactly as it was. *)
Lemma erase_then_find m k :
  wf m →
  ∃ m',
    (∀ fuel, erase (2 * capacity m + fuel) m k = Done m') ∧
    (∀ fuel, find (capacity m' + fuel) m' k = Done None) ∧
    ((∃ fuel, find fuel m k = Done None) → m' = m) ∧
    ((∀ v, (k, v) ∉ entries m) → m' = m) ∧
    (size m = 0 → m' = m).
Proof.
  intros Hwf. unfold capacity, size.
  destruct (stored_dec m k Hwf) as [[v Hst]|Hns].
  - destruct (erase_stored m k v Hwf Hst) as (m' & it & Hrun & Hp & _).
    exists m'. split_and!.
    + intros fuel. apply Hrun. lia.
    + intros fuel. apply find_not_stored;
        [apply (ep_wf _ _ _ Hp)|apply (ep_gone _ _ _ Hp)|lia].
    + intros [fuel Hf]. exfalso.
      destruct (find_stored m k v Hwf Hst) as (it' & Hfind & _).
      pose proof (find_mono fuel (fuel + length (data_ m)) m k
                    ltac:(lia) _ Hf) as Hf'.
      rewrite Hfind in Hf' by lia. done.
    + intros Habs. destruct (Habs v). by apply stored_entries.
    + intros Hz. by destruct (stored_size _ _ _ Hwf Hst).
  - exists m. split_and!; try done.
    + intros fuel. apply erase_not_stored; [done..|lia].
    + intros fuel. apply find_not_stored; [done..|lia].
Qed.

(** On a well-formed map and a key that has no pair in the list, [at]
    throws [std::out_of_range] (the KeyNotFound condition; [at] is a const
    member and yields no new map), while [operator[]] on the same key
    returns: it appends the pair of the key and a value-initialised value,
    hands back the node that holds it, and [size()] has grown by one. *)
Lemma at_throws_index_inserts m k :
  wf m → (∀ v, (k, v) ∉ entries m) →
  (∀ fuel, at_ (capacity m + fuel) m k = Throw out_of_range) ∧
  ∃ m' it,
    (∀ fuel, index ValueType_new (insert_fuel m + fuel) m k
             = Done (m', it, ValueType_new)) ∧
    deref (elemets_ m') it = Some (k, ValueType_new) ∧
    size m' = size m + 1 ∧
    entries m' = entries m ++ [(k, ValueType_new)].
Proof.
  intros Hwf Habs. unfold capacity, size.
  assert (Hns : ∀ v, ¬ stored m k v).
  { intros v Hs. apply (Habs v). by apply stored_entries. }
  split.
  { intros fuel. apply at_not_stored; [done..|lia]. }
  destruct (insert_spec m (k, ValueType_new) Hwf) as (m' & Hrun & Hp).
  destruct (find_stored m' k ValueType_new (ip_wf _ _ _ Hp))
    as (it & Hfind & Hd); [by apply (ip_new _ _ _ Hp)|].
  pose proof (ip_capacity _ _ _ Hp) as Hcap.
  exists m', it. split_and!.
  - intros fuel. unfold index.
    rewrite (find_not_stored m k Hwf Hns)
      by (rewrite insert_fuel_wf by done; lia).
    simpl. rewrite Hrun by lia. simpl.
    rewrite Hfind.
    + simpl. by rewrite Hd.
    + rewrite Hcap, insert_fuel_wf by done.
      unfold EXTENDED_CONSTANT, EXTENDED_SHIFT. case_decide; lia.
  - done.
  - rewrite (ip_size _ _ _ Hp). lia.
  - apply (ip_entries _ _ _ Hp).
Qed.

(** C8. Robin Hood slot invariant: in every reachable map, an occupied
    slot at position [p] that refers to an entry with key [k] stores the
    displacement [(p - home(k)) mod capacity], where
    [home(k) = hasher_(k) mod capacity]; the reachable maps are closed
    under insert (swapping and rebuilding included), erase (with its
    backward shift), [operator[]] and clear. *)
Theorem robin_hood_invariant m p s k v :
  reachable m →
  occupied (data_ m) p s →
  deref (elemets_ m) (iterator s) = Some (k, v) →
  Z.of_nat (distance s) =
  ((Z.of_nat p - Z.of_nat (hasher_ m k mod capacity m))
   mod Z.of_nat (capacity m))%Z.
Proof.
  intros [Hwf|(_ & Hlost & _)]%reachable_cases Hp Hd; unfold capacity;
    [|rewrite Hlost in Hp; by destruct Hp].
  assert (Hst : stored m k v) by by exists p, s.
  destruct (wf_vacant _ Hwf (stored_size _ _ _ Hwf Hst)) as [e He].
  pose proof (distance_lt_capacity _ _ _ _ _ _ (wf_index _ Hwf) Hp He) as Hlt.
  pose proof (deref_key_walk _ _ _ _ _ _ (wf_index _ Hwf) Hp Hd) as Hw.
  simpl in Hw. unfold walk in Hw.
  rewrite <- Nat.Div0.add_mod_idemp_l in Hw.
  set (cap := length (data_ m)) in *.
  pose proof (Nat.mod_upper_bound (hasher_ m k) cap ltac:(lia)) as Ha.
  set (a := hasher_ m k mod cap) in *.
  destruct (decide (a + distance s < cap)) as [Hsmall|Hwrap].
  - rewrite Nat.mod_small in Hw by done.
    apply (Z.mod_unique_pos _ _ 0%Z); lia.
  - assert (Hp' : p = a + distance s - cap).
    { rewrite <- Hw. symmetry.
      apply (Nat.mod_unique _ _ 1); lia. }
    apply (Z.mod_unique_pos _ _ (-1)%Z); lia.
Qed.

(** [clear()] on a well-formed map returns with [size() == 0], nothing to
    iterate over, every slot of the index vacant and the capacity
    unchanged; a second [clear()] returns the very same map. *)
Lemma clear_idempotent m :
  wf m →
  ∃ m',
    (∀ fuel, clear (capacity m + 1 + fuel) m = Done m') ∧
    size m' = 0 ∧ entries m' = [] ∧
    capacity m' = capacity m ∧
    (∀ p s, data_ m' !! p = Some s → is_empty s = true) ∧
    (∀ fuel, clear fuel m' = Done m').
Proof.
  intros Hwf. unfold capacity, size, entries.
  destruct (clear_spec m Hwf)
    as (m' & Hrun & _ & _ & Hsz & Hel & Hcap & _ & Hall).
  exists m'. split_and!; try done.
  - intros fuel. apply Hrun. lia.
  - by rewrite Hel.
  - intros fuel. unfold clear. rewrite Hel. simpl.
    destruct m'; simpl in *. by subst.
Qed.

(** C10. On a default-constructed map, whose index has length zero, no
    member evaluates [hasher_(key) % data_.size()] (which is undefined
    there): [find] returns [end()], [erase] and [clear] return the map
    unchanged, [at] throws, and [insert] takes the rebuild branch and
    returns a map of capacity three. *)
Theorem default_constructed_safe h key kv fuel :
  capacity (HashMap_new h : HashMap) = 0 ∧
  home h (capacity (HashMap_new h : HashMap)) key = Undefined ∧
  find fuel (HashMap_new h : HashMap) key = Done None ∧
  erase fuel (HashMap_new h : HashMap) key = Done (HashMap_new h : HashMap) ∧
  at_ fuel (HashMap_new h : HashMap) key = Throw out_of_range ∧
  clear fuel (HashMap_new h : HashMap) = Done (HashMap_new h : HashMap) ∧
  ∃ m', insert (5 + fuel) (HashMap_new h : HashMap) kv = Done m' ∧ capacity m' = 3.
Proof.
  split_and!; try done.
  destruct (insert_spec (HashMap_new h) kv (HashMap_new_wf h))
    as (m' & Hrun & Hp).
  exists m'. split.
  - apply Hrun. unfold insert_fuel. simpl. lia.
  - unfold capacity. by rewrite (ip_capacity _ _ _ Hp).
Qed.

(** *** Sequences of inserts and erases *)

Inductive operation : Type :=
  | op_insert (new_value : KeyType * ValueType)
  | op_erase (key : KeyType).

Definition op_key (op : operation) : KeyType :=
  match op with
  | op_insert new_value => new_value.1
  | op_erase key => key
  end.

Definition apply_op (fuel : nat) m (op : operation) : outcome HashMap :=
  match op with
  | op_insert new_value => insert fuel m new_value
  | op_erase key => erase fuel m key
  end.

Definition apply_ops (fuel : nat) m (ops : list operation)
  : outcome HashMap :=
  foldl (λ acc op, let* m' := acc in apply_op fuel m' op) (Done m) ops.

Lemma apply_ops_cons fuel m op ops :
  apply_ops fuel m (op :: ops) =
  let* m' := apply_op fuel m op in apply_ops fuel m' ops.
Proof.
  unfold apply_ops. simpl. destruct (apply_op fuel m op) as [m'| | |]; simpl;
    try done; induction ops as [|x l IH]; simpl; done.
Qed.

(** The entry [(k, v)] is the only one of its key and is indexed. *)
Definition sole_entry m (k : KeyType) (v : ValueType) : Prop :=
  stored m k v ∧ ∀ v', (k, v') ∈ entries m → v' = v.

Lemma apply_ops_other_keys k v ops :
  ∀ m n C,
    wf m → sole_entry m k v → Forall (λ op, op_key op ≠ k) ops →
    size_ m ≤ n → length (data_ m) ≤ C + 6 * n + 3 →
    ∃ m',
      (∀ fuel, 2 * (C + 6 * (n + length ops) + 3) + 5 ≤ fuel →
         apply_ops fuel m ops = Done m') ∧
      wf m' ∧ sole_entry m' k v ∧
      length (data_ m') ≤ C + 6 * (n + length ops) + 3.
Proof.
  induction ops as [|op ops IH]; intros m n C Hwf [Hst Hu] Hall Hn Hcap.
  { exists m. split_and!; try done. simpl. lia. }
  apply Forall_cons in Hall as [Hk Hall].
  assert (Hstep : ∃ m1,
    (∀ fuel, 2 * (C + 6 * n + 3) + 5 ≤ fuel → apply_op fuel m op = Done m1) ∧
    wf m1 ∧ sole_entry m1 k v ∧ size_ m1 ≤ S n ∧
    length (data_ m1) ≤ C + 6 * S n + 3).
  { destruct op as [kv|key]; simpl in *.
    - destruct (insert_spec m kv Hwf) as (m1 & Hrun & Hp).
      exists m1. split_and!.
      + intros fuel Hf. apply Hrun. rewrite insert_fuel_wf by done. lia.
      + apply (ip_wf _ _ _ Hp).
      + split; [by apply (ip_stored _ _ _ Hp)|].
        intros v'. rewrite (ip_entries _ _ _ Hp).
        intros [Hin|Hin]%elem_of_app; [by apply Hu|].
        apply list_elem_of_singleton in Hin. subst kv. done.
      + rewrite (ip_size _ _ _ Hp). lia.
      + rewrite (ip_capacity _ _ _ Hp).
        unfold REBUILD_CONSTANT, EXTENDED_CONSTANT, EXTENDED_SHIFT.
        case_decide; lia.
    - destruct (stored_dec m key Hwf) as [[v' Hst']|Hns].
      + destruct (erase_stored m key v' Hwf Hst')
          as (m1 & it & Hrun & Hp & Hsz & _).
        exists m1. split_and!.
        * intros fuel Hf. apply Hrun. lia.
        * apply (ep_wf _ _ _ Hp).
        * split; [by apply (ep_keep _ _ _ Hp)|].
          intros v'' Hin. by apply Hu, (ep_entries _ _ _ Hp).
        * lia.
        * rewrite (ep_capacity _ _ _ Hp). lia.
      + exists m. split_and!; try done; try lia.
        intros fuel Hf. apply erase_not_stored; [done..|lia]. }
  destruct Hstep as (m1 & Hrun1 & Hwf1 & Hsole1 & Hn1 & Hcap1).
  destruct (IH m1 (S n) C Hwf1 Hsole1 Hall Hn1 Hcap1)
    as (m' & Hrun & Hwf' & Hsole' & Hcap').
  simpl. replace (n + S (length ops)) with (S n + length ops) by lia.
  exists m'. split_and!; try done.
  intros fuel Hf. rewrite apply_ops_cons, Hrun1 by lia. simpl.
  by apply Hrun.
Qed.

(** What copy assignment between two objects does to the list: it is
    [reserve_] followed by an [insert] of every entry of the source in
    source order ([assign] is defined so), and nothing is cleared first;
    the entries of the destination stay in place, those of the source
    follow, and [size()] is the sum of both sizes.  When the source is not
    empty, a lookup afterwards yields the first entry of its key in the
    combined list. *)
Lemma assign_keeps_destination a b :
  safe a → safe b →
  ∃ fuel0 a',
    (∀ fuel, assign (fuel0 + fuel) a b = Done a') ∧
    hash_function a' = hash_function b ∧
    entries a' = entries a ++ entries b ∧
    size a' = size a + size b ∧
    (∀ k v, (k, v) ∈ entries a → (k, v) ∈ entries a') ∧
    (∀ k v v' fuel,
       assoc_first (entries a) k = Some v → (k, v') ∈ entries b →
       at_ (fuel0 + fuel) a' k = Done v) ∧
    (size b ≠ 0 →
     ∀ k fuel,
       at_ (fuel0 + fuel) a' k =
       match assoc_first (entries a ++ entries b) k with
       | Some v => Done v
       | None => Throw out_of_range
       end).
Proof.
  intros Hsafea Hsafeb.
  unfold size, hash_function in *.
  pose proof (sf_size _ Hsafeb) as Hsb.
  assert (Hlb : length (entries b) = size_ b).
  { unfold entries. by rewrite length_fmap. }
  destruct (insert_all_safe (entries b) (assign_start a b) (2 * size_ b)
              (assign_start_safe a b Hsafea))
    as (a' & Hrun & Hh & Hsz & Hent & Hcase).
  { simpl. by rewrite length_resize. }
  simpl in *. rewrite Hlb in *.
  change (entries (assign_start a b)) with (entries a) in *.
  set (fuel0 := 2 * (2 * (2 * size_ b) + 3 + 6 * (size_ a + size_ b) + 3) + 6).
  assert (Hat : size_ b ≠ 0 → ∀ k fuel,
    at_ (fuel0 + fuel) a' k =
    match assoc_first (entries a ++ entries b) k with
    | Some v => Done v
    | None => Throw out_of_range
    end).
  { intros Hnz k fuel.
    destruct Hcase as [(Hwf' & Hc & Hcap)|[Hbad|Hbad]];
      [|lia|rewrite Hbad in Hlb; simpl in Hlb; lia].
    destruct (assoc_first (entries a ++ entries b) k) as [v|] eqn:Ha.
    - apply at_stored; [done| |unfold fuel0; lia].
      apply Hc. by rewrite Hent.
    - apply at_not_stored; [done| |unfold fuel0; lia].
      intros v Hs. apply Hc in Hs. rewrite Hent in Hs. congruence. }
  exists fuel0, a'. split_and!; try done.
  - intros fuel. apply Hrun. unfold fuel0. lia.
  - intros k v Hin. rewrite Hent. apply elem_of_app. by left.
  - intros k v v' fuel Ha Hin. rewrite Hat.
    + by rewrite assoc_first_app, Ha.
    + intros Hz. rewrite Hz in Hlb. apply length_zero_iff_nil in Hlb.
      rewrite Hlb in Hin. by apply elem_of_nil in Hin.
Qed.

(** ** Copy assignment from an empty map *)

(** When the source holds nothing, [operator=] is [reserve_(0)] and not
    one [insert]: the destination keeps its list and its [size_], and its
    index is resized to length zero. *)
Lemma assign_empty_source a b :
  safe a → safe b → size a ≠ 0 → size b = 0 →
  (∀ fuel, assign fuel a b = Done (assign_start a b)) ∧
  index_lost (assign_start a b).
Proof.
  intros Ha Hb Hna Hzb. unfold size in *.
  assert (Hent : entries b = []).
  { pose proof (sf_size _ Hb) as Hs. rewrite Hzb in Hs. symmetry in Hs.
    apply length_zero_iff_nil in Hs. unfold entries. by rewrite Hs. }
  split.
  - intros fuel. unfold assign. by rewrite Hent.
  - split_and!; [by apply assign_start_safe| |done].
    simpl. unfold size. rewrite Hzb. by rewrite resize_0.
Qed.

(** C4. Where erase-then-find breaks.  Copy assignment of an empty map to
    a map that holds entries returns a reachable map with the same entries
    and the same [size()], whose index has length zero.  On this map the
    guard [size_ == 0] of [erase] and of [find] does not fire, and both
    compute [hasher_(key) % data_.size()] with [data_.size() == 0], for
    every key: neither returns. *)
Theorem erase_after_empty_assignment a b :
  reachable a → reachable b → size a ≠ 0 → size b = 0 →
  ∃ a',
    (∀ fuel, assign fuel a b = Done a') ∧
    reachable a' ∧
    entries a' = entries a ∧ size a' = size a ∧ capacity a' = 0 ∧
    (∀ key fuel, erase fuel a' key = Undefined) ∧
    (∀ key fuel, find fuel a' key = Undefined).
Proof.
  intros Ha Hb Hna Hzb.
  destruct (assign_empty_source a b (reachable_safe _ Ha)
              (reachable_safe _ Hb) Hna Hzb) as [Hrun Hlost].
  exists (assign_start a b). split_and!.
  - done.
  - by apply (reach_assign a b 0).
  - done.
  - done.
  - destruct Hlost as (_ & Hd & _). unfold capacity. by rewrite Hd.
  - intros key fuel. by apply lost_erase.
  - intros key fuel. by apply lost_find.
Qed.

(** C7. Where copy assignment does not keep the destination.  When the
    source is empty and the destination holds entries, [operator=] returns
    with every pair of the destination still in the list, but with an
    index of length zero: [find] and [at] of any key, the keys of the
    destination included, compute [hasher_(key) % data_.size()] with
    [data_.size() == 0] and yield no value. *)
Theorem assign_from_empty_loses_index a b :
  reachable a → reachable b → size a ≠ 0 → size b = 0 →
  ∃ a',
    (∀ fuel, assign fuel a b = Done a') ∧
    entries a' = entries a ∧
    (∀ key fuel, find_entry fuel a' key = Undefined) ∧
    (∀ key fuel, at_ fuel a' key = Undefined).
Proof.
  intros Ha Hb Hna Hzb.
  destruct (assign_empty_source a b (reachable_safe _ Ha)
              (reachable_safe _ Hb) Hna Hzb) as [Hrun Hlost].
  exists (assign_start a b). split_and!; [done|done| |].
  - intros key fuel. by apply lost_find_entry.
  - intros key fuel. by apply lost_at.
Qed.

(** C9. Where [clear()] does not return.  On the reachable map that copy
    assignment of an empty map leaves behind when the destination holds
    entries, [clear()] computes [hasher_(key) % data_.size()] for the first
    pair of the list with [data_.size() == 0]: it does not return, and the
    map is not cleared. *)
Theorem clear_after_empty_assignment a b :
  reachable a → reachable b → size a ≠ 0 → size b = 0 →
  ∃ a',
    (∀ fuel, assign fuel a b = Done a') ∧
    reachable a' ∧
    size a' = size a ∧ capacity a' = 0 ∧
    (∀ fuel, clear fuel a' = Undefined).
Proof.
  intros Ha Hb Hna Hzb.
  destruct (assign_empty_source a b (reachable_safe _ Ha)
              (reachable_safe _ Hb) Hna Hzb) as [Hrun Hlost].
  exists (assign_start a b). split_and!.
  - done.
  - by apply (reach_assign a b 0).
  - done.
  - destruct Hlost as (_ & Hd & _). unfold capacity. by rewrite Hd.
  - intros fuel. by apply lost_clear.
Qed.

(** Public sequences of inserts and erases stay among the reachable
    maps. *)
Lemma apply_ops_reachable fuel ops :
  ∀ m m', reachable m → apply_ops fuel m ops = Done m' → reachable m'.
Proof.
  induction ops as [|op ops IH]; intros m m' Hm Hr.
  - unfold apply_ops in Hr. simpl in Hr. by simplify_eq.
  - rewrite apply_ops_cons in Hr.
    apply bind_Done in Hr as (m1 & Hr1 & Hr).
    eapply IH; [|done]. destruct op as [kv|key]; simpl in Hr1.
    + by eapply reach_insert.
    + by eapply reach_erase.
Qed.

(** ** Further properties of the code *)

Lemma find_entry_mono fuel fuel' m key :
  fuel ≤ fuel' →
  outcome_le (find_entry fuel m key) (find_entry fuel' m key).
Proof.
  intros Hle. unfold find_entry.
  apply bind_le; [by apply find_mono|]. intros it. apply outcome_le_refl.
Qed.

(** What [find] returns is what the index stores. *)
Lemma found_stored fuel m k e :
  wf m → find_entry fuel m k = Done (Some e) → e.1 = k ∧ stored m k e.2.
Proof.
  intros Hwf Hf. destruct (stored_dec m k Hwf) as [[v Hst]|Hns].
  - assert (Some e = Some (k, v)) as Heq.
    { eapply (outcome_agree (λ f, find_entry f m k)); [|exact Hf|].
      - intros f f'. apply find_entry_mono.
      - by apply find_entry_stored. }
    by simplify_eq.
  - assert (Some e = None) as Heq; [|done].
    eapply (outcome_agree (λ f, find_entry f m k)); [|exact Hf|].
    + intros f f'. apply find_entry_mono.
    + by apply find_entry_not_stored.
Qed.

Lemma list_erase_split (elems : list node) it e :
  NoDup elems.*1 → deref elems it = Some e →
  ∃ l1 l2, elems = l1 ++ (it, e) :: l2 ∧ list_erase elems it = l1 ++ l2.
Proof.
  unfold list_erase. induction elems as [|[i x] elems IH]; simpl; [done|].
  intros [Hni Hnd]%NoDup_cons Hd. rewrite filter_cons. simpl in *.
  case_decide as Hi; simpl in *.
  - simplify_eq. exists [], elems. split; [done|].
    rewrite decide_False by (intros ?; done). simpl.
    clear IH Hnd. induction elems as [|[j y] elems IH]; [done|].
    rewrite filter_cons. simpl in *. rewrite decide_True.
    + f_equal. apply IH. intros Hin. apply Hni.
      by apply list_elem_of_further.
    + intros ->. apply Hni. apply list_elem_of_here.
  - destruct (IH Hnd Hd) as (l1 & l2 & -> & Heq).
    exists ((i, x) :: l1), l2. split; [done|].
    rewrite decide_True by done. simpl. by rewrite Heq.
Qed.

Lemma snoc_eq_middle {A : Type} (l l1 l2 : list A) x :
  x ∉ l → l ++ [x] = l1 ++ x :: l2 → l2 = [] ∧ l = l1.
Proof.
  intros Hx Heq. destruct l2 as [|y l2 _] using rev_ind.
  - split; [done|]. by apply app_inj_tail in Heq as [? _].
  - exfalso. apply Hx.
    replace (l1 ++ x :: l2 ++ [y]) with ((l1 ++ x :: l2) ++ [y]) in Heq
      by (by rewrite <- app_assoc).
    apply app_inj_tail in Heq as [-> _].
    apply elem_of_app. right. apply list_elem_of_here.
Qed.

(** Nodes allocated while a list of entries is inserted into a map with
    room for them: the old nodes stay, the new ones get fresh addresses. *)
Lemma insert_all_room_nodes l :
  ∀ m, wf m →
    REBUILD_CONSTANT * (size_ m + length l) ≤ length (data_ m) →
    ∃ m' new,
      (∀ fuel, length (data_ m) < fuel → insert_all fuel m l = Done m') ∧
      elemets_ m' = elemets_ m ++ new ∧
      (∀ n, n ∈ new → next_node_ m ≤ n.1).
Proof.
  induction l as [|kv l IH]; intros m Hwf Hroom.
  - exists m, []. split_and!; [done|by rewrite app_nil_r|].
    intros n Hn. by apply elem_of_nil in Hn.
  - simpl in Hroom.
    destruct (insert_probe m kv Hwf)
      as (m1 & Hrun1 & Hwf1 & _ & Hlen1 & Hs1 & Hel1 & Hnx1 & _);
      [unfold REBUILD_CONSTANT in *; lia|].
    destruct (IH m1 Hwf1) as (m' & new & Hrun & Hel & Hnew).
    { rewrite Hlen1, Hs1. unfold REBUILD_CONSTANT in *. lia. }
    exists m', ((next_node_ m, kv) :: new). split_and!.
    + intros fuel Hf. rewrite insert_all_cons, Hrun1 by done. simpl.
      apply Hrun. by rewrite Hlen1.
    + rewrite Hel, Hel1. by rewrite <- app_assoc.
    + intros n [->|Hn]%elem_of_cons; [done|].
      apply Hnew in Hn. lia.
Qed.

Lemma reserve_new_complete h n : complete (reserve_ (HashMap_new h) n).
Proof.
  intros k v. simpl. split; [|done].
  intros (p & s & [Hp He] & _). simpl in Hp. rewrite resize_nil in Hp.
  apply lookup_replicate_new in Hp. congruence.
Qed.

(** Lookups in a map whose index holds the first entry of every key. *)
Lemma at_complete m k fuel :
  wf m → complete m → length (data_ m) ≤ fuel →
  at_ fuel m k =
  match assoc_first (entries m) k with
  | Some v => Done v
  | None => Throw out_of_range
  end.
Proof.
  intros Hwf Hc Hf. destruct (assoc_first (entries m) k) as [v|] eqn:Ha.
  - apply at_stored; [done| |done]. by apply Hc.
  - apply at_not_stored; [done| |done].
    intros v Hs. apply Hc in Hs. congruence.
Qed.

(** X1. The range and initializer-list constructors return for every
    input, duplicates included.  The map iterates over exactly the given
    pairs in the given order and counts all of them; it keeps the load
    factor; and [at] yields, for each key, the value of the first pair with
    that key, and throws for a key that does not occur. *)
Theorem constructor_first_value_wins h (l : list (KeyType * ValueType)) :
  ∃ m,
    (∀ fuel, HashMap_of_list (16 * length l + 11 + fuel) h l = Done m) ∧
    hash_function m = h ∧
    entries m = l ∧
    size m = length l ∧
    3 * size m ≤ capacity m ∧
    (∀ k fuel,
       at_ (capacity m + fuel) m k =
       match assoc_first l k with
       | Some v => Done v
       | None => Throw out_of_range
       end).
Proof.
  destruct (insert_all_spec l (reserve_ (HashMap_new h) (length l))
              (2 * length l) (reserve_new_wf h (length l)))
    as (m & Hrun & Hwf & Hh & Hsz & Hent & Hc & _).
  { simpl. rewrite length_resize. unfold EXTENDED_CONSTANT. lia. }
  simpl in *. specialize (Hc (reserve_new_complete h (length l))).
  exists m. unfold hash_function, size, capacity. split_and!; try done.
  - intros fuel. unfold HashMap_of_list. apply Hrun. lia.
  - apply (wf_load _ Hwf).
  - intros k fuel. rewrite <- Hent. apply at_complete; [done..|lia].
Qed.

(** X2. The copy constructor returns for every reachable source.  The copy
    has the hash function of the source, iterates over the same pairs in
    the same order, has the same size, and looks every key up with the
    value of its first pair in the source. *)
Theorem copy_constructor_copies another :
  reachable another →
  ∃ m,
    (∀ fuel, HashMap_copy (16 * size another + 11 + fuel) another = Done m) ∧
    hash_function m = hash_function another ∧
    entries m = entries another ∧
    size m = size another ∧
    (∀ k fuel,
       at_ (capacity m + fuel) m k =
       match assoc_first (entries another) k with
       | Some v => Done v
       | None => Throw out_of_range
       end).
Proof.
  intros Hsafeb%reachable_safe. unfold hash_function, size, capacity.
  assert (Hlb : length (entries another) = size_ another).
  { unfold entries. rewrite length_fmap. symmetry.
    apply (sf_size _ Hsafeb). }
  destruct (insert_all_spec (entries another)
              (reserve_ (HashMap_new (hasher_ another)) (size_ another))
              (2 * size_ another)
              (reserve_new_wf (hasher_ another) (size_ another)))
    as (m & Hrun & Hwf & Hh & Hsz & Hent & Hc & _).
  { simpl. rewrite length_resize. unfold EXTENDED_CONSTANT. lia. }
  simpl in *. rewrite Hlb in *.
  specialize (Hc (reserve_new_complete (hasher_ another) (size_ another))).
  exists m. split_and!; try done.
  - intros fuel. unfold HashMap_copy. apply Hrun. lia.
  - intros k fuel. rewrite <- Hent. apply at_complete; [done..|lia].
Qed.

(** X5. In every reachable map [size()] is the number of pairs between
    [begin()] and [end()], and [empty()] holds exactly when there is none. *)
Theorem size_counts_entries m :
  reachable m →
  size m = length (entries m) ∧ (empty m = true ↔ entries m = []).
Proof.
  intros Hsafe%reachable_safe. unfold size, empty, entries.
  rewrite length_fmap. pose proof (sf_size _ Hsafe) as Hs. split; [done|].
  rewrite bool_decide_eq_true, Hs. split.
  - intros Hz. apply length_zero_iff_nil in Hz. by rewrite Hz.
  - intros Hn. apply fmap_nil_inv in Hn. by rewrite Hn.
Qed.

(** X6. In a reachable map, an iterator returned by [find(key)] other than
    [end()] points to a pair with that very key, which is one of the pairs
    of the iteration; [at(key)] then returns the value of this pair. *)
Theorem find_is_sound m key fuel0 e :
  reachable m →
  find_entry fuel0 m key = Done (Some e) →
  e.1 = key ∧ e ∈ entries m ∧
  (∀ fuel, at_ (capacity m + fuel) m key = Done e.2).
Proof.
  intros Hm Hf. pose proof (reachable_found _ _ _ _ Hm Hf) as Hwf.
  destruct (found_stored _ _ _ _ Hwf Hf) as [Hk Hst]. split_and!.
  - done.
  - apply stored_entries in Hst. destruct e; simpl in *. by subst.
  - intros fuel. apply at_stored; [done..|unfold capacity; lia].
Qed.

(** X7. In a reachable map a stored key is found within as many probes as
    its slot is displaced, plus one: no key or distance comparison beyond
    the slot is made. *)
Theorem find_within_displacement m p s k v :
  reachable m →
  occupied (data_ m) p s →
  deref (elemets_ m) (iterator s) = Some (k, v) →
  find (S (distance s)) m k = Done (Some (iterator s)) ∧
  distance s < capacity m.
Proof.
  intros Hm Hp Hd. pose proof (reachable_occupied _ _ _ Hm Hp) as Hwf.
  assert (Hst : stored m k v) by by exists p, s.
  pose proof (stored_size _ _ _ Hwf Hst) as Hsz.
  destruct (wf_vacant _ Hwf Hsz) as [e He].
  pose proof (wf_index _ Hwf) as Hok.
  pose proof (distance_lt_capacity _ _ _ _ _ _ Hok Hp He) as Hlt.
  split; [|done]. unfold find. rewrite decide_False by done.
  rewrite home_walk by lia. cbn [bind].
  eapply (find_loop_present m k p s (k, v) e Hok Hp Hd eq_refl He
            (distance s) 0); lia.
Qed.

(** X8. What the probe index never does in a reachable map: no occupied
    slot refers to an erased node, no two slots refer to pairs with the
    same key, and there are never more occupied slots than [size()].  The
    load factor [3 * size() <= capacity] holds after every member, not only
    after [insert], with one exception: the index may have length zero
    while the map holds entries (copy assignment from an empty map leaves
    it so). *)
Theorem index_refers_to_distinct_live_entries m :
  reachable m →
  (∀ p s, occupied (data_ m) p s →
     ∃ e, deref (elemets_ m) (iterator s) = Some e ∧ e ∈ entries m) ∧
  (∀ p q s t e e',
     occupied (data_ m) p s → occupied (data_ m) q t →
     deref (elemets_ m) (iterator s) = Some e →
     deref (elemets_ m) (iterator t) = Some e' →
     e.1 = e'.1 → p = q) ∧
  occupied_count (data_ m) ≤ size m ∧
  (3 * size m ≤ capacity m ∨ capacity m = 0).
Proof.
  intros [Hwf|(Hsafe & Hd & _)]%reachable_cases.
  - pose proof (wf_index _ Hwf) as Hok. split_and!.
    + intros p s Hp. destruct (io_live _ _ _ Hok _ _ Hp) as (e & Hd & _).
      exists e. split; [done|]. by eapply deref_entries.
    + apply (io_uniq _ _ _ Hok).
    + apply (wf_count _ Hwf).
    + left. apply (wf_load _ Hwf).
  - unfold capacity. rewrite Hd. split_and!.
    + intros p s Hp. by destruct Hp.
    + intros p q s t e e' Hp. by destruct Hp.
    + unfold occupied_count. simpl. lia.
    + by right.
Qed.

(** X4. [operator[]] on a key that [find] finds inserts nothing: it returns
    the node and the value of the pair found and leaves the map exactly as
    it was. *)
Theorem index_of_present_key m key v fuel0 :
  reachable m →
  find_entry fuel0 m key = Done (Some (key, v)) →
  ∃ it,
    (∀ fuel, index ValueType_new (capacity m + fuel) m key
             = Done (m, it, v)) ∧
    deref (elemets_ m) it = Some (key, v).
Proof.
  intros Hm Hf. pose proof (reachable_found _ _ _ _ Hm Hf) as Hwf.
  destruct (found_stored _ _ _ _ Hwf Hf) as [_ Hst]. simpl in Hst.
  destruct (find_stored m key v Hwf Hst) as (it & Hfind & Hd).
  exists it. split; [|done]. intros fuel. unfold index.
  rewrite Hfind by (unfold capacity; lia). simpl. by rewrite Hd.
Qed.

(** X3. [erase] of a key that [find] finds removes exactly the pair found:
    the other pairs keep their order, their nodes and their values, every
    other key is found as before, [size()] drops by one, and capacity and
    hash function are unchanged.  Only iterators to the erased node are
    invalidated. *)
Theorem erase_removes_one_pair m key v fuel0 :
  reachable m →
  find_entry fuel0 m key = Done (Some (key, v)) →
  ∃ m' it l1 l2,
    (∀ fuel, erase (2 * capacity m + fuel) m key = Done m') ∧
    entries m = l1 ++ (key, v) :: l2 ∧
    entries m' = l1 ++ l2 ∧
    size m' + 1 = size m ∧
    capacity m' = capacity m ∧
    hash_function m' = hash_function m ∧
    deref (elemets_ m) it = Some (key, v) ∧
    deref (elemets_ m') it = None ∧
    (∀ it', it' ≠ it → deref (elemets_ m') it' = deref (elemets_ m) it') ∧
    (∀ k e fuel1 fuel,
       k ≠ key → find_entry fuel1 m k = Done (Some e) →
       find_entry (capacity m + fuel) m' k = Done (Some e)).
Proof.
  intros Hm Hf. pose proof (reachable_found _ _ _ _ Hm Hf) as Hwf.
  unfold capacity, size, hash_function.
  destruct (found_stored _ _ _ _ Hwf Hf) as [_ Hst]. simpl in Hst.
  destruct (erase_stored m key v Hwf Hst)
    as (m' & it & Hrun & Hp & Hsz & Hd & Hel & _).
  destruct (list_erase_split _ _ _ (wf_nodup _ Hwf) Hd)
    as (n1 & n2 & Hsplit & Herase).
  exists m', it, n1.*2, n2.*2. split_and!.
  - intros fuel. apply Hrun. lia.
  - unfold entries. rewrite Hsplit, fmap_app. done.
  - unfold entries. rewrite Hel, Herase, fmap_app. done.
  - lia.
  - apply (ep_capacity _ _ _ Hp).
  - apply (ep_hasher _ _ _ Hp).
  - done.
  - rewrite Hel. apply deref_erase_same.
  - intros it' Hne. rewrite Hel. by apply deref_erase.
  - intros k [k' v'] fuel1 fuel Hk Hfk.
    destruct (found_stored _ _ _ _ Hwf Hfk) as [Hk' Hstk]. simpl in *.
    subst k'. apply find_entry_stored; [apply (ep_wf _ _ _ Hp)| |].
    + by apply (ep_keep _ _ _ Hp).
    + rewrite (ep_capacity _ _ _ Hp). lia.
Qed.

Lemma fresh_map_wf h c nx :
  wf {| hasher_ := h; data_ := replicate c HashTableData_new; size_ := 0;
        elemets_ := []; next_node_ := nx |}.
Proof.
  split; simpl.
  - done.
  - apply NoDup_nil_2.
  - intros n Hn. by apply elem_of_nil in Hn.
  - unfold REBUILD_CONSTANT. lia.
  - by rewrite occupied_count_replicate.
  - apply index_ok_vacant. apply lookup_replicate_new.
Qed.

Lemma fresh_map_complete h c nx :
  complete {| hasher_ := h; data_ := replicate c HashTableData_new;
              size_ := 0; elemets_ := []; next_node_ := nx |}.
Proof.
  intros k v. simpl. split; [|done].
  intros (p & s & [Hp He] & _). simpl in Hp.
  apply lookup_replicate_new in Hp. congruence.
Qed.

(** X9. [rebuild_], called on a reachable map whose index has been replaced
    by a fresh vector with room for its pairs, returns; the map then
    iterates over the same pairs in the same order, has the same size and
    the capacity of the fresh vector, and looks every key up with the value
    of its first pair. *)
Theorem rebuild_reindexes m c :
  reachable m → 3 * size m ≤ c →
  ∃ m',
    (∀ fuel,
       rebuild_ (c + 1 + fuel)
         {| hasher_ := hasher_ m;
            data_ := replicate c HashTableData_new;
            size_ := size_ m; elemets_ := elemets_ m;
            next_node_ := next_node_ m |} = Done m') ∧
    entries m' = entries m ∧
    size m' = size m ∧
    capacity m' = c ∧
    hash_function m' = hash_function m ∧
    (∀ k fuel,
       at_ (c + fuel) m' k =
       match assoc_first (entries m) k with
       | Some v => Done v
       | None => Throw out_of_range
       end).
Proof.
  intros Hsafe%reachable_safe Hc. unfold size, capacity, hash_function in *.
  pose proof (sf_size _ Hsafe) as Hs.
  destruct (insert_all_room (entries m)
              {| hasher_ := hasher_ m;
                 data_ := replicate c HashTableData_new; size_ := 0;
                 elemets_ := []; next_node_ := next_node_ m |}
              (fresh_map_wf _ _ _))
    as (m' & Hrun & Hwf' & Hh & Hlen & Hsz & Hent & Hcomp).
  { simpl. rewrite length_replicate. unfold entries. rewrite length_fmap.
    unfold REBUILD_CONSTANT. lia. }
  simpl in *. rewrite length_replicate in *.
  specialize (Hcomp (fresh_map_complete _ _ _)).
  exists m'. split_and!; try done.
  - intros fuel. unfold rebuild_, rebuild_with. simpl.
    apply Hrun. lia.
  - rewrite Hsz. unfold entries. rewrite length_fmap. lia.
  - intros k fuel. rewrite <- Hent. apply at_complete; [done..|lia].
Qed.

(** X10. [next_] stays inside the index and walks it cyclically: [i] calls
    lead from [position] to [(position + i) % capacity], so every slot is
    visited and [capacity] calls lead back to the start. *)
Theorem next_cycles cap position :
  position < cap →
  next_ cap position < cap ∧
  (∀ i, Nat.iter i (next_ cap) position = (position + i) mod cap) ∧
  Nat.iter cap (next_ cap) position = position ∧
  (∀ target, target < cap →
     ∃ i, i < cap ∧ Nat.iter i (next_ cap) position = target).
Proof.
  intros Hp.
  assert (Hiter : ∀ i, Nat.iter i (next_ cap) position = walk cap position i).
  { induction i as [|i IH]; simpl.
    - by rewrite walk_0.
    - rewrite IH. symmetry. apply walk_next. lia. }
  split_and!.
  - by apply next_lt.
  - apply Hiter.
  - rewrite Hiter. by apply walk_full.
  - intros target Ht. destruct (walk_surj cap position target Ht)
      as (i & Hi & Hw). exists i. by rewrite Hiter.
Qed.

(** X11. A cleared map is as good as new.  On a reachable map that keeps
    the load factor [3 * size() <= capacity] (every reachable map but the
    one that copy assignment from an empty map has left without index),
    [clear()] returns; inserting any list of pairs afterwards returns, the
    map iterates over exactly these pairs in order, and each key is looked
    up with the value of its first pair; nothing of the former contents is
    found. *)
Theorem clear_then_insert m (l : list (KeyType * ValueType)) :
  reachable m → 3 * size m ≤ capacity m →
  ∃ m0 m',
    (∀ fuel, clear (capacity m + 1 + fuel) m = Done m0) ∧
    (∀ fuel,
       insert_all (2 * (capacity m + 6 * length l + 3) + 5 + fuel) m0 l
       = Done m') ∧
    entries m' = l ∧
    size m' = length l ∧
    (∀ k fuel,
       at_ (capacity m' + fuel) m' k =
       match assoc_first l k with
       | Some v => Done v
       | None => Throw out_of_range
       end).
Proof.
  intros Hm Hload. pose proof (reachable_load _ Hm Hload) as Hwf.
  clear Hload. unfold capacity, size.
  destruct (clear_spec m Hwf)
    as (m0 & Hrun0 & Hwf0 & _ & Hsz0 & Hel0 & Hcap0 & _ & Hall).
  assert (Hc0 : complete m0).
  { intros k v. unfold entries. rewrite Hel0. simpl. split; [|done].
    intros (p & s & [Hp He] & _). apply Hall in Hp. congruence. }
  destruct (insert_all_spec l m0 (length (data_ m)) Hwf0)
    as (m' & Hrun & Hwf' & _ & Hsz & Hent & Hc & _); [lia|].
  specialize (Hc Hc0). rewrite Hsz0 in *. unfold entries in Hent at 2.
  rewrite Hel0 in Hent. simpl in *.
  exists m0, m'. split_and!; try done.
  - intros fuel. apply Hrun0. lia.
  - intros fuel. apply Hrun. lia.
  - intros k fuel. rewrite <- Hent. apply at_complete; [done..|lia].
Qed.

(** X12. Insert followed by erase is a round trip on the contents: for a
    key without a pair in a reachable map, [insert] of a pair and [erase]
    of its key leave the pairs of the iteration and [size()] as they were,
    and the key is not found. *)
Theorem insert_then_erase m k v :
  reachable m → (∀ v', (k, v') ∉ entries m) →
  ∃ m1 m2,
    (∀ fuel, insert (insert_fuel m + fuel) m (k, v) = Done m1) ∧
    (∀ fuel, erase (2 * capacity m1 + fuel) m1 k = Done m2) ∧
    entries m2 = entries m ∧
    size m2 = size m ∧
    (∀ fuel, find (capacity m2 + fuel) m2 k = Done None).
Proof.
  intros Hm Habs. unfold capacity, size.
  destruct (insert_reachable m (k, v) Hm)
    as (m1 & Hrun1 & Hwf1 & _ & Hsz1 & Hent1 & _ & Hnew).
  destruct (erase_stored m1 k v Hwf1)
    as (m2 & it & Hrun2 & Hp2 & Hsz & Hd & Hel & _); [by apply Hnew|].
  destruct (list_erase_split _ _ _ (wf_nodup _ Hwf1) Hd)
    as (n1 & n2 & Hsplit & Herase).
  unfold entries in Hent1 at 1.
  rewrite Hsplit, fmap_app, fmap_cons in Hent1. symmetry in Hent1.
  apply snoc_eq_middle in Hent1 as [Hn2 Hn1]; [|apply Habs].
  exists m1, m2. split_and!.
  - intros fuel. apply Hrun1. lia.
  - intros fuel. apply Hrun2. lia.
  - unfold entries at 1. rewrite Hel, Herase, fmap_app, Hn2, app_nil_r.
    done.
  - lia.
  - intros fuel. apply find_not_stored;
      [apply (ep_wf _ _ _ Hp2)|apply (ep_gone _ _ _ Hp2)|lia].
Qed.

(** X13. Insert-if-absent in any reachable map: when [find] finds the key
    and the pair found is the only one of its key, an [insert] of another
    value under that key returns and leaves the key looked up with the old
    value, whether or not the insert rebuilds. *)
Theorem insert_existing_keeps_value m k v v2 fuel0 :
  reachable m →
  find_entry fuel0 m k = Done (Some (k, v)) →
  (∀ v', (k, v') ∈ entries m → v' = v) →
  ∃ m',
    (∀ fuel, insert (insert_fuel m + fuel) m (k, v2) = Done m') ∧
    (∀ fuel, find_entry (capacity m' + fuel) m' k = Done (Some (k, v))) ∧
    (∀ fuel, at_ (capacity m' + fuel) m' k = Done v).
Proof.
  intros Hm Hf Hu. pose proof (reachable_found _ _ _ _ Hm Hf) as Hwf.
  unfold capacity.
  destruct (found_stored _ _ _ _ Hwf Hf) as [_ Hst]. simpl in Hst.
  destruct (insert_spec m (k, v2) Hwf) as (m' & Hrun & Hp).
  pose proof (ip_stored _ _ _ Hp k v Hst Hu) as Hst'.
  exists m'. split_and!; intros fuel.
  - apply Hrun. lia.
  - apply find_entry_stored; [apply (ip_wf _ _ _ Hp)|done|lia].
  - apply at_stored; [apply (ip_wf _ _ _ Hp)|done|lia].
Qed.

(** X14. In every reachable map [insert] returns, whatever the key: it
    appends its pair after the pairs already there, which keep their order
    across a rebuild, [size()] grows by one, the hash function stays, and
    the capacity does not shrink. *)
Theorem insert_appends m kv :
  reachable m →
  ∃ m',
    (∀ fuel, insert (insert_fuel m + fuel) m kv = Done m') ∧
    entries m' = entries m ++ [kv] ∧
    size m' = size m + 1 ∧
    hash_function m' = hash_function m ∧
    capacity m ≤ capacity m'.
Proof.
  intros Hm. unfold capacity, size, hash_function.
  destruct (insert_reachable m kv Hm)
    as (m' & Hrun & _ & Hh & Hsz & Hent & Hcap & _).
  exists m'. split_and!; [|done|lia|done|done].
  intros fuel. apply Hrun. lia.
Qed.

(** X15. An [insert] that does not rebuild keeps the capacity and every
    node of the list: an iterator obtained before still points to the same
    pair. *)
Theorem insert_keeps_nodes m kv :
  reachable m → 3 * (size m + 1) ≤ capacity m →
  ∃ m',
    (∀ fuel, insert (capacity m + 1 + fuel) m kv = Done m') ∧
    capacity m' = capacity m ∧
    (∀ it e, deref (elemets_ m) it = Some e →
       deref (elemets_ m') it = Some e).
Proof.
  intros Hm Hroom.
  assert (Hwf : wf m) by (apply (reachable_load _ Hm); lia).
  unfold capacity, size in *.
  destruct (insert_probe m kv Hwf)
    as (m' & Hrun & _ & _ & Hlen & _ & Hel & _);
    [unfold REBUILD_CONSTANT; lia|].
  exists m'. split_and!.
  - intros fuel. apply Hrun. lia.
  - done.
  - intros it e Hd. rewrite Hel. by apply deref_app_l.
Qed.

(** X16. On a reachable map that keeps the load factor
    [3 * size() <= capacity] (every reachable map but the one that copy
    assignment from an empty map has left without index), an [insert] that
    rebuilds moves every pair to a new node: the capacity becomes
    [2 * capacity + 3], the pairs and their order are kept, and no node of
    the old list is left, so every iterator obtained before the insert
    dangles. *)
Theorem insert_rebuild_moves_nodes m kv :
  reachable m → 3 * size m ≤ capacity m → capacity m < 3 * (size m + 1) →
  ∃ m',
    (∀ fuel, insert (insert_fuel m + fuel) m kv = Done m') ∧
    capacity m' = 2 * capacity m + 3 ∧
    entries m' = entries m ++ [kv] ∧
    (∀ it, is_Some (deref (elemets_ m) it) → deref (elemets_ m') it = None).
Proof.
  intros Hm Hload Hre. pose proof (reachable_load _ Hm Hload) as Hwf.
  clear Hload. unfold capacity, size in *.
  assert (Hre' : length (data_ m) < S (size_ m) * REBUILD_CONSTANT)
    by (unfold REBUILD_CONSTANT; lia).
  destruct (insert_spec m kv Hwf) as (m' & Hrun & Hp).
  destruct (insert_all_room_nodes (entries m ++ [kv]) (rebuild_start m)
              (rebuild_start_wf m))
    as (m'' & new & Hrun' & Hel & Hnew).
  { simpl. rewrite length_app, length_replicate. simpl.
    pose proof (wf_load _ Hwf) as Hl. pose proof (wf_size _ Hwf) as Hs.
    unfold entries. rewrite length_fmap.
    unfold REBUILD_CONSTANT, EXTENDED_CONSTANT, EXTENDED_SHIFT in *. lia. }
  simpl in Hrun', Hel, Hnew. rewrite length_replicate in Hrun'.
  assert (m'' = m') as ->.
  { specialize (Hrun (S (insert_fuel m)) ltac:(lia)).
    rewrite insert_rebuild_eq in Hrun by done.
    rewrite Hrun' in Hrun; [by simplify_eq|].
    rewrite insert_fuel_wf by done.
    unfold EXTENDED_CONSTANT, EXTENDED_SHIFT. lia. }
  exists m'. split_and!.
  - intros fuel. apply Hrun. lia.
  - rewrite (ip_capacity _ _ _ Hp). rewrite decide_True by done.
    unfold EXTENDED_CONSTANT, EXTENDED_SHIFT. lia.
  - apply (ip_entries _ _ _ Hp).
  - intros it [e Hd]. rewrite Hel. apply deref_None. intros n Hn.
    apply Hnew in Hn. apply deref_Some_elem in Hd.
    apply (wf_fresh _ Hwf) in Hd. simpl in Hd. lia.
Qed.

(** *** Maps built without duplicate keys *)

(** The maps built like the reachable ones, except that [insert] is only
    called with a key that has no pair yet, and that there is no
    assignment. *)
Inductive duplicate_free : HashMap → Prop :=
  | df_new h : duplicate_free (HashMap_new h)
  | df_reserve h n : duplicate_free (reserve_ (HashMap_new h) n)
  | df_insert m fuel kv m' :
      duplicate_free m → (∀ v, (kv.1, v) ∉ entries m) →
      insert fuel m kv = Done m' → duplicate_free m'
  | df_erase m fuel key m' :
      duplicate_free m → erase fuel m key = Done m' → duplicate_free m'
  | df_index m fuel key m' it v :
      duplicate_free m →
      index ValueType_new fuel m key = Done (m', it, v) →
      duplicate_free m'
  | df_clear m fuel m' :
      duplicate_free m → clear fuel m = Done m' → duplicate_free m'.

Lemma NoDup_fst_middle (l1 l2 : list (KeyType * ValueType)) x :
  NoDup (l1 ++ x :: l2).*1 →
  NoDup (l1 ++ l2).*1 ∧ ∀ v, (x.1, v) ∉ l1 ++ l2.
Proof.
  rewrite !fmap_app, fmap_cons. intros Hnd.
  apply NoDup_app in Hnd as (Hn1 & Hdisj & Hn2).
  apply NoDup_cons in Hn2 as [Hx2 Hn2]. split.
  - apply NoDup_app. split_and!; [done| |done].
    intros y Hy1 Hy2. apply (Hdisj y Hy1). by apply list_elem_of_further.
  - intros v [Hin|Hin]%elem_of_app.
    + apply (Hdisj x.1).
      * apply list_elem_of_fmap. by exists (x.1, v).
      * apply list_elem_of_here.
    + apply Hx2. apply list_elem_of_fmap. by exists (x.1, v).
Qed.

Lemma assoc_first_NoDup (l : list (KeyType * ValueType)) k v :
  NoDup l.*1 → assoc_first l k = Some v ↔ (k, v) ∈ l.
Proof.
  intros Hnd. split; [apply assoc_first_Some_elem|].
  intros Hin. apply assoc_first_unique; [done|].
  intros v' Hin'. by eapply NoDup_fst_unique.
Qed.

(** What such a map keeps: the invariants of a reachable map, an index
    that holds every pair, and pairwise distinct keys. *)
Definition tidy m : Prop :=
  wf m ∧ complete m ∧ NoDup (entries m).*1.

Lemma tidy_insert fuel m kv m' :
  tidy m → (∀ v, (kv.1, v) ∉ entries m) →
  insert fuel m kv = Done m' → tidy m'.
Proof.
  intros (Hwf & Hc & Hnd) Habs Hr.
  destruct (insert_spec m kv Hwf) as (m0 & Hrun & Hp).
  assert (m' = m0) as ->.
  { eapply (outcome_agree (λ f, insert f m kv)); [|exact Hr|exact Hrun].
    intros f f'. apply insert_mono. }
  split_and!.
  - apply (ip_wf _ _ _ Hp).
  - by apply (ip_complete _ _ _ Hp).
  - rewrite (ip_entries _ _ _ Hp), fmap_app. simpl.
    apply NoDup_app. split_and!; [done| |apply NoDup_singleton].
    intros y Hy Hy'. apply list_elem_of_singleton in Hy'. subst y.
    apply list_elem_of_fmap in Hy as ([k v] & Hk & Hin). simpl in Hk.
    apply (Habs v). by rewrite Hk.
Qed.

Lemma tidy_erase fuel m key m' :
  tidy m → erase fuel m key = Done m' → tidy m'.
Proof.
  intros (Hwf & Hc & Hnd) Hr.
  destruct (stored_dec m key Hwf) as [[v Hst]|Hns].
  - destruct (erase_stored m key v Hwf Hst)
      as (m0 & it & Hrun & Hp & _ & Hd & Hel & _).
    assert (m' = m0) as ->.
    { eapply (outcome_agree (λ f, erase f m key)); [|exact Hr|exact Hrun].
      intros f f'. apply erase_mono. }
    destruct (list_erase_split _ _ _ (wf_nodup _ Hwf) Hd)
      as (n1 & n2 & Hsplit & Herase).
    assert (He : entries m = n1.*2 ++ (key, v) :: n2.*2).
    { unfold entries. by rewrite Hsplit, fmap_app. }
    assert (He0 : entries m0 = n1.*2 ++ n2.*2).
    { unfold entries. by rewrite Hel, Herase, fmap_app. }
    rewrite He in Hnd. apply NoDup_fst_middle in Hnd as [Hnd0 Hgone].
    rewrite <- He0 in Hnd0, Hgone. simpl in Hgone.
    split_and!; [apply (ep_wf _ _ _ Hp)| |done].
    intros k v'. rewrite (assoc_first_NoDup _ _ _ Hnd0). split.
    + intros Hs. pose proof (ep_back _ _ _ Hp _ _ Hs) as Hs0.
      apply stored_entries in Hs0. rewrite He in Hs0. rewrite He0.
      apply elem_of_app in Hs0 as [?|[Heq|?]%elem_of_cons];
        [apply elem_of_app; by left| |apply elem_of_app; by right].
      simplify_eq. destruct (ep_gone _ _ _ Hp _ Hs).
    + intros Hin. assert (k ≠ key) by (intros ->; by apply (Hgone v')).
      apply (ep_keep _ _ _ Hp); [done|]. apply Hc.
      apply assoc_first_unique.
      * rewrite He. rewrite He0 in Hin.
        apply elem_of_app in Hin as [?|?];
          [apply elem_of_app; by left|].
        apply elem_of_app. right. by apply list_elem_of_further.
      * intros v'' Hin''. rewrite He in Hin''. rewrite He0 in Hin.
        assert (Hin0 : (k, v'') ∈ n1.*2 ++ n2.*2).
        { apply elem_of_app in Hin'' as [?|[Heq|?]%elem_of_cons];
            [apply elem_of_app; by left|by simplify_eq
            |apply elem_of_app; by right]. }
        rewrite <- He0 in Hin0, Hin. by eapply NoDup_fst_unique.
  - assert (m' = m) as ->; [|done].
    eapply (outcome_agree (λ f, erase f m key) fuel m' (length (data_ m)));
      [|exact Hr|by apply erase_not_stored].
    intros f f'. apply erase_mono.
Qed.

Lemma tidy_clear fuel m m' : tidy m → clear fuel m = Done m' → tidy m'.
Proof.
  intros (Hwf & _) Hr.
  destruct (clear_spec m Hwf)
    as (m0 & Hrun & Hwf0 & _ & _ & Hel0 & _ & _ & Hall).
  assert (m' = m0) as ->.
  { eapply (outcome_agree (λ f, clear f m) fuel m' (S (length (data_ m))));
      [|exact Hr|intros f Hf; apply Hrun; lia].
    intros f f'. apply clear_mono. }
  split_and!; [done| |].
  - intros k v. unfold entries. rewrite Hel0. simpl. split; [|done].
    intros (p & s & [Hp He] & _). apply Hall in Hp. congruence.
  - unfold entries. rewrite Hel0. apply NoDup_nil_2.
Qed.

Lemma tidy_index fuel m key m' it v :
  tidy m → index ValueType_new fuel m key = Done (m', it, v) → tidy m'.
Proof.
  intros Ht Hr. pose proof Ht as (Hwf & Hc & Hnd). unfold index in Hr.
  apply bind_Done in Hr as ([i|] & Hfind & Hr).
  - destruct (deref (elemets_ m) i); by simplify_eq.
  - apply bind_Done in Hr as (m1 & Hins & Hr).
    apply bind_Done in Hr as ([i|] & _ & Hr); [|done].
    destruct (deref (elemets_ m1) i); [|done]. simplify_eq.
    eapply tidy_insert; [done| |done]. simpl. intros v' Hin.
    assert (Hst : stored m key v').
    { apply Hc. by apply assoc_first_NoDup. }
    destruct (find_stored m key v' Hwf Hst) as (it' & Hfind' & _).
    pose proof (find_mono fuel (fuel + length (data_ m)) m key
                  ltac:(lia) _ Hfind) as Hf'.
    rewrite Hfind' in Hf' by lia. done.
Qed.

Lemma duplicate_free_tidy m : duplicate_free m → tidy m.
Proof.
  induction 1.
  - split_and!; [apply HashMap_new_wf|apply HashMap_new_complete|].
    apply NoDup_nil_2.
  - split_and!; [apply reserve_new_wf|apply reserve_new_complete|].
    apply NoDup_nil_2.
  - by eapply tidy_insert.
  - by eapply tidy_erase.
  - by eapply tidy_index.
  - by eapply tidy_clear.
Qed.

(** X17. Iteration and lookup agree as long as no key is inserted twice:
    in a map built by the constructors, [insert] of keys that have no pair
    yet, [erase], [operator[]] and [clear], the keys of the iteration are
    pairwise distinct, and a pair is among those of the iteration exactly
    when [find] of its key returns it. *)
Theorem duplicate_free_consistent m :
  duplicate_free m →
  NoDup (entries m).*1 ∧
  (∀ k v,
     (k, v) ∈ entries m ↔
     ∀ fuel, find_entry (capacity m + fuel) m k = Done (Some (k, v))).
Proof.
  intros (Hwf & Hc & Hnd)%duplicate_free_tidy. split; [done|].
  intros k v. split.
  - intros Hin fuel. apply find_entry_stored; [done| |unfold capacity; lia].
    apply Hc. by apply assoc_first_NoDup.
  - intros Hf. specialize (Hf 0).
    destruct (found_stored _ _ _ _ Hwf Hf) as [_ Hst].
    by apply stored_entries in Hst.
Qed.

(** X18. Replacing a value by [erase] and [insert]: in a map built without
    duplicate keys, when [find] finds the key, erasing it and inserting a
    pair with a new value for it returns; the key is then found with the
    new value, [size()] is as before, and the other pairs keep their
    order, the new pair coming last. *)
Theorem erase_then_insert_replaces m k v0 v fuel0 :
  duplicate_free m →
  find_entry fuel0 m k = Done (Some (k, v0)) →
  ∃ m1 m2 l1 l2,
    (∀ fuel, erase (2 * capacity m + fuel) m k = Done m1) ∧
    (∀ fuel, insert (insert_fuel m1 + fuel) m1 (k, v) = Done m2) ∧
    entries m = l1 ++ (k, v0) :: l2 ∧
    entries m2 = l1 ++ l2 ++ [(k, v)] ∧
    size m2 = size m ∧
    (∀ fuel, find_entry (capacity m2 + fuel) m2 k = Done (Some (k, v))).
Proof.
  intros (Hwf & Hc & Hnd)%duplicate_free_tidy Hf. unfold capacity, size.
  destruct (found_stored _ _ _ _ Hwf Hf) as [_ Hst]. simpl in Hst.
  destruct (erase_stored m k v0 Hwf Hst)
    as (m1 & it & Hrun1 & Hp1 & Hsz1 & Hd & Hel & _).
  destruct (list_erase_split _ _ _ (wf_nodup _ Hwf) Hd)
    as (n1 & n2 & Hsplit & Herase).
  assert (He : entries m = n1.*2 ++ (k, v0) :: n2.*2).
  { unfold entries. by rewrite Hsplit, fmap_app. }
  assert (He1 : entries m1 = n1.*2 ++ n2.*2).
  { unfold entries. by rewrite Hel, Herase, fmap_app. }
  rewrite He in Hnd. apply NoDup_fst_middle in Hnd as [_ Hgone].
  rewrite <- He1 in Hgone. simpl in Hgone.
  destruct (insert_spec m1 (k, v) (ep_wf _ _ _ Hp1)) as (m2 & Hrun2 & Hp2).
  exists m1, m2, n1.*2, n2.*2. split_and!.
  - intros fuel. apply Hrun1. lia.
  - intros fuel. apply Hrun2. lia.
  - done.
  - rewrite (ip_entries _ _ _ Hp2), He1. by rewrite <- app_assoc.
  - rewrite (ip_size _ _ _ Hp2). lia.
  - intros fuel. apply find_entry_stored; [apply (ip_wf _ _ _ Hp2)| |lia].
    by apply (ip_new _ _ _ Hp2).
Qed.

End Index.

Arguments reachable {KeyType ValueType _} ValueType_new m.
Arguments duplicate_free {KeyType ValueType _} ValueType_new m.
Arguments insert_site {KeyType ValueType _} ValueType_new m.

(** * Scenarios on maps from integers to strings *)

(** [std::hash<int>] of libstdc++ is the identity. *)
Definition identity_hash : nat → nat := λ key, key.

(** [std::string()] *)
Definition string_new : string := ""%string.

Definition IntMap_new : HashMap nat string := HashMap_new identity_hash.

(** The map after [insert({1, "a"})] on a default-constructed map. *)
Definition IntMap_one : HashMap nat string :=
  {| hasher_ := identity_hash;
     data_ := [HashTableData_new; mkSlot false 0 2; HashTableData_new];
     size_ := 1;
     elemets_ := [(2, (1, "a"%string))];
     next_node_ := 3 |}.

Lemma IntMap_one_insert : insert 5 IntMap_new (1, "a"%string) = Done IntMap_one.
Proof. reflexivity. Qed.

Lemma IntMap_one_reachable : reachable string_new IntMap_one.
Proof.
  apply (reach_insert string_new IntMap_new 5 (1, "a"%string)).
  - apply reach_new.
  - reflexivity.
Defined.

(** What the surplus pair of a duplicate insert does later.  After
    [insert({1, "a"})], [insert({1, "b"})] and [erase(1)] the pair
    [(1, "b")] is still in the list and counted, though [find(1)] is
    [end()]; the rebuild triggered by the fourth entry indexes it, so that
    [operator[]] on key 1 returns ["b"], and a pair [(1, "c")] inserted in
    between is found at first and shadowed after the rebuild. *)
Lemma duplicate_insert_aftermath :
  ∃ m2 m3 m4,
    insert 11 IntMap_one (1, "b"%string) = Done m2 ∧
    erase 18 m2 1 = Done m3 ∧
    entries m3 = [(1, "b"%string)] ∧ size m3 = 1 ∧
    find 9 m3 1 = Done None ∧
    insert_all 50 m3 [(2, "x"%string); (3, "y"%string)] = Done m4 ∧
    at_ 9 m4 1 = Throw out_of_range ∧
    (∃ m5 it, index string_new 50 m4 1 = Done (m5, it, "b"%string)) ∧
    (∃ m5 m6,
       insert 50 m3 (1, "c"%string) = Done m5 ∧
       find_entry 9 m5 1 = Done (Some (1, "c"%string)) ∧
       insert_all 50 m5 [(2, "x"%string); (3, "y"%string)] = Done m6 ∧
       find_entry 21 m6 1 = Done (Some (1, "b"%string))).
Proof.
  do 3 eexists.
  split; [vm_compute; reflexivity|].
  split; [vm_compute; reflexivity|].
  split; [vm_compute; reflexivity|].
  split; [vm_compute; reflexivity|].
  split; [vm_compute; reflexivity|].
  split; [vm_compute; reflexivity|].
  split; [vm_compute; reflexivity|].
  split.
  - do 2 eexists. vm_compute. reflexivity.
  - do 2 eexists.
    split; [vm_compute; reflexivity|].
    split; [vm_compute; reflexivity|].
    split; [vm_compute; reflexivity|].
    vm_compute. reflexivity.
Qed.

(** C1. What the code does on a duplicate insert.  For every key type,
    hash function, key and values: after [insert({k, v1})] and
    [insert({k, v2})] on a default-constructed map, [at(k)] is [v1], but the
    second insert has counted and appended its pair before it met the
    stored key, so that [size()] is 2 and iteration yields both pairs.  In
    scenario B: [at(1)] is ["a"], [size()] is 2, not 1. *)
Theorem insert_duplicate_key :
  (∀ (KeyType ValueType : Type) `(EqDecision KeyType)
     (h : KeyType → nat) (k : KeyType) (v1 v2 : ValueType),
     ∃ m1 m2 : HashMap KeyType ValueType,
       (∀ fuel, insert (5 + fuel) (HashMap_new h) (k, v1) = Done m1) ∧
       (∀ fuel, insert (11 + fuel) m1 (k, v2) = Done m2) ∧
       (∀ fuel, at_ (9 + fuel) m2 k = Done v1) ∧
       size m2 = 2 ∧ entries m2 = [(k, v1); (k, v2)]) ∧
  (∃ m,
     insert 11 IntMap_one (1, "b"%string) = Done m ∧
     at_ 9 m 1 = Done "a"%string ∧
     size m = 2 ∧
     entries m = [(1, "a"%string); (1, "b"%string)]).
Proof.
  split.
  { intros KeyType ValueType ? h k v1 v2.
    destruct (insert_spec (HashMap_new h) (k, v1) (HashMap_new_wf h))
      as (m1 & Hrun1 & Hp1).
    destruct (insert_spec m1 (k, v2) (ip_wf _ _ _ Hp1)) as (m2 & Hrun2 & Hp2).
    pose proof (ip_capacity _ _ _ Hp1) as Hc1.
    pose proof (ip_size _ _ _ Hp1) as Hs1.
    pose proof (ip_capacity _ _ _ Hp2) as Hc2.
    pose proof (ip_entries _ _ _ Hp1) as He1.
    pose proof (ip_entries _ _ _ Hp2) as He2.
    simpl in Hc1, Hs1, He1. rewrite Hc1, Hs1 in Hc2. simpl in Hc2.
    rewrite He1 in He2. simpl in He2.
    unfold EXTENDED_SHIFT in *.
    exists m1, m2. split_and!.
    - intros fuel. apply Hrun1. unfold insert_fuel. simpl. lia.
    - intros fuel. apply Hrun2. unfold insert_fuel. rewrite Hc1. simpl. lia.
    - intros fuel. apply at_stored; [apply (ip_wf _ _ _ Hp2)| |lia].
      apply (ip_complete _ _ _ Hp2).
      + apply (ip_complete _ _ _ Hp1), HashMap_new_complete.
      + rewrite He2. simpl. by rewrite decide_True.
    - unfold size. by rewrite (ip_size _ _ _ Hp2), Hs1.
    - done. }
  eexists. split; [reflexivity|]. by vm_compute.
Qed.

(** ** Scenario C, for any hash function and any values *)

(** The pairs [(1, f 1), ..., (10, f 10)]. *)
Definition one_to_ten {ValueType : Type} (f : nat → ValueType)
  : list (nat * ValueType) :=
  (λ i, (i, f i)) <$> seq 1 10.

(** Insert the keys 1..10 into a default-constructed map, then erase 5:
    [find(5)] is [end()], [size()] is 9, and each of the other nine keys is
    found with its original value. *)
Definition scenario_C {ValueType : Type} (h : nat → nat)
    (f : nat → ValueType) : Prop :=
  ∃ m10 m9 : HashMap nat ValueType,
    (∀ fuel, insert_all (131 + fuel) (HashMap_new h) (one_to_ten f)
             = Done m10) ∧
    (∀ fuel, erase (126 + fuel) m10 5 = Done m9) ∧
    (∀ fuel, find_entry (126 + fuel) m9 5 = Done None) ∧
    size m9 = 9 ∧
    (∀ k fuel, k ∈ [1; 2; 3; 4; 6; 7; 8; 9; 10] →
       find_entry (126 + fuel) m9 k = Done (Some (k, f k))).

(** Where the round trip holds.  In any well-formed map, over any key type
    and hash function: a pair inserted under a key that has no pair in the
    list yet is found by [find], which then points to exactly this pair,
    after any further inserts and erases of other keys; and once the key
    itself is erased it is found no more.  In particular scenario C holds,
    whatever the hash function and the values. *)
Lemma round_trip :
  (∀ (KeyType ValueType : Type) `(EqDecision KeyType)
     (m : HashMap KeyType ValueType)
     (k : KeyType) (v : ValueType) (ops : list operation),
     wf m →
     (∀ v', (k, v') ∉ entries m) →
     Forall (λ op, op_key op ≠ k) ops →
     ∃ fuel0 m1 m2 m3,
       (∀ fuel, insert (fuel0 + fuel) m (k, v) = Done m1) ∧
       (∀ fuel, apply_ops (fuel0 + fuel) m1 ops = Done m2) ∧
       (∀ fuel, find_entry (fuel0 + fuel) m2 k = Done (Some (k, v))) ∧
       (∀ fuel, erase (fuel0 + fuel) m2 k = Done m3) ∧
       (∀ fuel, find_entry (fuel0 + fuel) m3 k = Done None)) ∧
  (∀ (ValueType : Type) (h : nat → nat) (f : nat → ValueType),
     scenario_C h f).
Proof.
  split.
  { intros KeyType ValueType ? m k v ops Hwf Habs Hall.
    destruct (insert_spec m (k, v) Hwf) as (m1 & Hrun1 & Hp1).
    assert (Hsole1 : sole_entry m1 k v).
    { split; [by apply (ip_new _ _ _ Hp1)|].
      intros v'. rewrite (ip_entries _ _ _ Hp1).
      intros [Hin|Hin]%elem_of_app; [by destruct (Habs v')|].
      apply list_elem_of_singleton in Hin. by simplify_eq. }
    destruct (apply_ops_other_keys k v ops m1 (size_ m1) (length (data_ m1))
                (ip_wf _ _ _ Hp1) Hsole1 Hall)
      as (m2 & Hrun2 & Hwf2 & [Hst2 Hu2] & Hcap2); [lia..|].
    destruct (erase_stored m2 k v Hwf2 Hst2) as (m3 & it & Hrun3 & Hp3 & _).
    exists (insert_fuel m +
            2 * (length (data_ m1) + 6 * (size_ m1 + length ops) + 3) + 5),
      m1, m2, m3.
    split_and!; intros fuel.
    - apply Hrun1. lia.
    - apply Hrun2. lia.
    - apply find_entry_stored; [done..|lia].
    - apply Hrun3. lia.
    - apply find_entry_not_stored;
        [apply (ep_wf _ _ _ Hp3)|apply (ep_gone _ _ _ Hp3)|].
      rewrite (ep_capacity _ _ _ Hp3). lia. }
  { intros ValueType h f.
    destruct (insert_all_spec (one_to_ten f) (HashMap_new h) 0
                (HashMap_new_wf h))
      as (m10 & Hrun & Hwf & _ & Hsz & Hent & Hc & Hcap); [simpl; lia|].
    simpl in *. specialize (Hc (HashMap_new_complete h)).
    assert (Hst : ∀ k, k ∈ seq 1 10 → stored m10 k (f k)).
    { intros k Hk. apply Hc. rewrite Hent.
      repeat (apply elem_of_cons in Hk as [->|Hk]; [reflexivity|]).
      by apply elem_of_nil in Hk. }
    destruct (erase_stored m10 5 (f 5) Hwf) as (m9 & it & Hrun9 & Hp & Hs9 & _).
    { apply Hst. simpl. repeat constructor. }
    exists m10, m9. split_and!.
    - intros fuel. apply Hrun. lia.
    - intros fuel. apply Hrun9. lia.
    - intros fuel. apply find_entry_not_stored;
        [apply (ep_wf _ _ _ Hp)|apply (ep_gone _ _ _ Hp)|].
      rewrite (ep_capacity _ _ _ Hp). lia.
    - unfold size. lia.
    - intros k fuel Hk. apply find_entry_stored; [apply (ep_wf _ _ _ Hp)| |].
      + apply (ep_keep _ _ _ Hp).
        * intros ->. repeat (apply elem_of_cons in Hk as [?|Hk]; [done|]).
          by apply elem_of_nil in Hk.
        * apply Hst. simpl.
          repeat (apply elem_of_cons in Hk as [->|Hk];
                  [by repeat constructor|]).
          by apply elem_of_nil in Hk.
      + rewrite (ep_capacity _ _ _ Hp). lia. }
Qed.

(** ** What the surplus pair of a duplicate insert does later *)

(** C6. Where the round trip breaks.  After [insert({1, "a"})],
    [insert({1, "b"})] and [erase(1)] on a default-constructed map, key 1
    is not found ([find(1) == end()]), while the pair [(1, "b")] of the
    second insert is still in the list.  Insert [(1, "c")]: [find(1)]
    points to [(1, "c")].  Insert the other keys 2 and 3: the second of
    these inserts rebuilds the index from the list, where [(1, "b")] comes
    first, and [find(1)] now points to [(1, "b")], though key 1 has not
    been erased. *)
Theorem round_trip_shadowed :
  ∃ m m1 m2 : HashMap nat string,
    apply_ops 20 IntMap_new
      [op_insert (1, "a"%string); op_insert (1, "b"%string); op_erase 1]
    = Done m ∧
    reachable string_new m ∧
    find 9 m 1 = Done None ∧
    insert 20 m (1, "c"%string) = Done m1 ∧
    find_entry 9 m1 1 = Done (Some (1, "c"%string)) ∧
    apply_ops 50 m1 [op_insert (2, "x"%string); op_insert (3, "y"%string)]
    = Done m2 ∧
    find_entry 21 m2 1 = Done (Some (1, "b"%string)).
Proof.
  do 3 eexists.
  split; [vm_compute; reflexivity|].
  split.
  { eapply (apply_ops_reachable string_new 20
              [op_insert (1, "a"%string); op_insert (1, "b"%string);
               op_erase 1] IntMap_new);
      [apply reach_new|vm_compute; reflexivity]. }
  split; [vm_compute; reflexivity|].
  split; [vm_compute; reflexivity|].
  split; [vm_compute; reflexivity|].
  split; [vm_compute; reflexivity|].
  vm_compute. reflexivity.
Qed.

(** C5. Where [operator[]] does not hand back a fresh value.  After
    [insert({1, "a"})], [insert({1, "b"})], [erase(1)], [insert({2, "x"})]
    and [insert({3, "y"})] on a default-constructed map, [at(1)] throws:
    key 1 is absent.  [operator[]] on key 1 then appends
    [(1, std::string())] and counts it, but its insert rebuilds the index
    from the list, in which the pair [(1, "b")] of the second insert comes
    first: the reference returned is to the value ["b"] of that pair, not
    to the value-initialised one.  And on the map that copy assignment of
    an empty map leaves behind, [at] and [operator[]] of the absent key 2
    compute a remainder by zero. *)
Theorem index_returns_surplus_value :
  (∃ (m m' : HashMap nat string) it,
     apply_ops 20 IntMap_new
       [op_insert (1, "a"%string); op_insert (1, "b"%string); op_erase 1;
        op_insert (2, "x"%string); op_insert (3, "y"%string)]
     = Done m ∧
     reachable string_new m ∧
     at_ 9 m 1 = Throw out_of_range ∧
     index string_new 50 m 1 = Done (m', it, "b"%string) ∧
     deref (elemets_ m') it = Some (1, "b"%string) ∧
     entries m' = [(1, "b"%string); (2, "x"%string); (3, "y"%string);
                   (1, string_new)] ∧
     size m' = size m + 1) ∧
  (∃ a' : HashMap nat string,
     assign 0 IntMap_one IntMap_new = Done a' ∧
     reachable string_new a' ∧
     entries a' = [(1, "a"%string)] ∧
     (∀ fuel, at_ fuel a' 2 = Undefined) ∧
     (∀ fuel, index string_new fuel a' 2 = Undefined)).
Proof.
  split.
  - do 3 eexists.
    split; [vm_compute; reflexivity|].
    split.
    { eapply (apply_ops_reachable string_new 20
                [op_insert (1, "a"%string); op_insert (1, "b"%string);
                 op_erase 1; op_insert (2, "x"%string);
                 op_insert (3, "y"%string)] IntMap_new);
        [apply reach_new|vm_compute; reflexivity]. }
    split; [vm_compute; reflexivity|].
    split; [vm_compute; reflexivity|].
    split; [vm_compute; reflexivity|].
    split; [vm_compute; reflexivity|].
    vm_compute. reflexivity.
  - eexists.
    split; [reflexivity|].
    split.
    { apply (reach_assign string_new IntMap_one IntMap_new 0);
        [exact IntMap_one_reachable|apply reach_new|reflexivity]. }
    split; [reflexivity|].
    split; intros fuel; reflexivity.
Qed.

(** The surplus pair and copy assignment.  In the destination, key 1 is
    looked up with ["c"], and the pair [(1, "b")] of an earlier duplicate
    insert is in the list before it; the source holds key 2 only.  The
    inserts of [operator=] rebuild the index of the destination from its
    list, and key 1 is looked up with ["b"] afterwards. *)
Lemma assign_surplus_pair :
  ∃ a b a' : HashMap nat string,
    apply_ops 20 IntMap_new
      [op_insert (1, "a"%string); op_insert (1, "b"%string); op_erase 1;
       op_insert (1, "c"%string)]
    = Done a ∧
    insert 5 IntMap_new (2, "x"%string) = Done b ∧
    at_ 9 a 1 = Done "c"%string ∧
    assign 50 a b = Done a' ∧
    at_ 50 a' 1 = Done "b"%string.
Proof.
  do 3 eexists.
  split; [vm_compute; reflexivity|].
  split; [vm_compute; reflexivity|].
  split; [vm_compute; reflexivity|].
  split; [vm_compute; reflexivity|].
  vm_compute. reflexivity.
Qed.

(** ** The theorems at work on concrete maps *)

Definition abc : list (nat * string) :=
  [(1, "a"%string); (2, "b"%string); (3, "c"%string)].

(** Scenario A. *)
Lemma insert_distinct_keys_abc :
  NoDup abc.*1 ∧
  ∃ m,
    (∀ fuel, insert_all (12 * length abc + 11 + fuel) IntMap_new abc
             = Done m) ∧
    size m = length abc ∧
    entries m = abc ∧
    (∀ k v fuel, (k, v) ∈ abc → at_ (capacity m + fuel) m k = Done v).
Proof.
  assert (H : NoDup abc.*1)
    by (apply (bool_decide_unpack (NoDup abc.*1)); vm_compute; exact I).
  split; [exact H|]. apply (insert_distinct_keys identity_hash abc H).
Defined.

(** The map after [insert({1, "a"})] and [insert({2, "b"})] on a
    default-constructed map: the second insert has rebuilt the index. *)
Definition IntMap_two : HashMap nat string :=
  {| hasher_ := identity_hash;
     data_ := [HashTableData_new; mkSlot false 0 4; mkSlot false 0 5;
               HashTableData_new; HashTableData_new; HashTableData_new;
               HashTableData_new; HashTableData_new; HashTableData_new];
     size_ := 2;
     elemets_ := [(4, (1, "a"%string)); (5, (2, "b"%string))];
     next_node_ := 6 |}.

Lemma IntMap_two_reachable : reachable string_new IntMap_two.
Proof.
  apply (reach_insert string_new IntMap_one 11 (2, "b"%string)).
  - exact IntMap_one_reachable.
  - reflexivity.
Defined.

(** The map that holds key 1 after a default-constructed map has been
    assigned to it: [a = b] with [b] empty. *)
Definition IntMap_lost : HashMap nat string :=
  {| hasher_ := identity_hash;
     data_ := [];
     size_ := 1;
     elemets_ := [(2, (1, "a"%string))];
     next_node_ := 3 |}.

Lemma IntMap_lost_reachable : reachable string_new IntMap_lost.
Proof.
  apply (reach_assign string_new IntMap_one IntMap_new 0).
  - exact IntMap_one_reachable.
  - apply reach_new.
  - reflexivity.
Defined.

Lemma IntMap_one_size : size IntMap_one ≠ 0.
Proof. discriminate. Defined.

Lemma IntMap_new_size : size IntMap_new = 0.
Proof. reflexivity. Defined.

(** An insert into the map without index rebuilds twice: the capacity
    goes from 0 to 3 and, while the two pairs are re-inserted, to 9. *)
Lemma insert_after_empty_assignment :
  ∃ m,
    insert 9 IntMap_lost (2, "b"%string) = Done m ∧
    capacity m = 9 ∧ capacity m = grow (grow (capacity IntMap_lost)) ∧
    entries m = [(1, "a"%string); (2, "b"%string)].
Proof. eexists. split_and!; reflexivity. Qed.

Lemma insert_load_factor_lost :
  insert_site string_new IntMap_lost ∧
  ∃ m' n,
    (∀ fuel,
       insert (4 * capacity IntMap_lost + 12 * size IntMap_lost + 30 + fuel)
         IntMap_lost (2, "b"%string) = Done m') ∧
    3 * size m' ≤ capacity m' ∧
    capacity m' = Nat.iter n grow (capacity IntMap_lost) ∧
    (n = 0 ↔ 3 * (size IntMap_lost + 1) ≤ capacity IntMap_lost) ∧
    (3 * size IntMap_lost ≤ capacity IntMap_lost → n ≤ 1) ∧
    (∃ p, vacant (data_ m') p).
Proof.
  assert (Hs : insert_site string_new IntMap_lost)
    by exact (site_reachable string_new IntMap_lost IntMap_lost_reachable).
  split; [exact Hs|].
  apply (insert_load_factor string_new IntMap_lost (2, "b"%string) Hs).
Defined.

Lemma erase_after_empty_assignment_one :
  (reachable string_new IntMap_one ∧ reachable string_new IntMap_new ∧
   size IntMap_one ≠ 0 ∧ size IntMap_new = 0) ∧
  ∃ a',
    (∀ fuel, assign fuel IntMap_one IntMap_new = Done a') ∧
    reachable string_new a' ∧
    entries a' = entries IntMap_one ∧ size a' = size IntMap_one ∧
    capacity a' = 0 ∧
    (∀ key fuel, erase fuel a' key = Undefined) ∧
    (∀ key fuel, find fuel a' key = Undefined).
Proof.
  split; [split_and!; [exact IntMap_one_reachable|apply reach_new
                      |exact IntMap_one_size|exact IntMap_new_size]|].
  apply (erase_after_empty_assignment string_new IntMap_one IntMap_new).
  - exact IntMap_one_reachable.
  - apply reach_new.
  - exact IntMap_one_size.
  - exact IntMap_new_size.
Defined.

(** Key 1 is looked up with ["a"] in the destination before the
    assignment, and with nothing after it. *)
Lemma assign_from_empty_loses_index_one :
  (reachable string_new IntMap_one ∧ reachable string_new IntMap_new ∧
   size IntMap_one ≠ 0 ∧ size IntMap_new = 0) ∧
  at_ 3 IntMap_one 1 = Done "a"%string ∧
  ∃ a',
    (∀ fuel, assign fuel IntMap_one IntMap_new = Done a') ∧
    entries a' = entries IntMap_one ∧
    (∀ key fuel, find_entry fuel a' key = Undefined) ∧
    (∀ key fuel, at_ fuel a' key = Undefined).
Proof.
  split; [split_and!; [exact IntMap_one_reachable|apply reach_new
                      |exact IntMap_one_size|exact IntMap_new_size]|].
  split; [reflexivity|].
  apply (assign_from_empty_loses_index string_new IntMap_one IntMap_new).
  - exact IntMap_one_reachable.
  - apply reach_new.
  - exact IntMap_one_size.
  - exact IntMap_new_size.
Defined.

Lemma clear_after_empty_assignment_one :
  (reachable string_new IntMap_one ∧ reachable string_new IntMap_new ∧
   size IntMap_one ≠ 0 ∧ size IntMap_new = 0) ∧
  ∃ a',
    (∀ fuel, assign fuel IntMap_one IntMap_new = Done a') ∧
    reachable string_new a' ∧
    size a' = size IntMap_one ∧ capacity a' = 0 ∧
    (∀ fuel, clear fuel a' = Undefined).
Proof.
  split; [split_and!; [exact IntMap_one_reachable|apply reach_new
                      |exact IntMap_one_size|exact IntMap_new_size]|].
  apply (clear_after_empty_assignment string_new IntMap_one IntMap_new).
  - exact IntMap_one_reachable.
  - apply reach_new.
  - exact IntMap_one_size.
  - exact IntMap_new_size.
Defined.

Lemma robin_hood_invariant_one :
  (reachable string_new IntMap_one ∧
   occupied (data_ IntMap_one) 1 (mkSlot false 0 2) ∧
   deref (elemets_ IntMap_one) (iterator (mkSlot false 0 2))
   = Some (1, "a"%string)) ∧
  Z.of_nat (distance (mkSlot false 0 2)) =
  ((Z.of_nat 1%nat
    - Z.of_nat (hasher_ IntMap_one 1%nat mod capacity IntMap_one))
   mod Z.of_nat (capacity IntMap_one))%Z.
Proof.
  assert (Ho : occupied (data_ IntMap_one) 1 (mkSlot false 0 2))
    by (split; reflexivity).
  assert (Hd : deref (elemets_ IntMap_one) (iterator (mkSlot false 0 2))
               = Some (1, "a"%string)) by reflexivity.
  split; [split_and!; [exact IntMap_one_reachable|exact Ho|exact Hd]|].
  apply (robin_hood_invariant string_new IntMap_one 1 (mkSlot false 0 2) 1
           "a"%string IntMap_one_reachable Ho Hd).
Defined.

(** The one assignment after which the index is lost.  Key 1 is in the
    destination with value ["a"]; [operator=] from a default-constructed
    map calls [reserve_(0)], which resizes the index of the destination to
    length zero while [size_] stays 1.  The entry is still in the list, but
    every later lookup of the key computes a remainder by zero. *)
Lemma assign_from_empty_source :
  ∃ a',
    at_ 3 IntMap_one 1 = Done "a"%string ∧
    assign 0 IntMap_one IntMap_new = Done a' ∧
    entries a' = [(1, "a"%string)] ∧
    size a' = 1 ∧ capacity a' = 0 ∧
    (∀ fuel, at_ fuel a' 1 = Undefined) ∧
    (∀ fuel, find fuel a' 1 = Undefined).
Proof.
  eexists. split_and!; [reflexivity..| |]; intros fuel; reflexivity.
Qed.

(** ** The further properties on concrete maps *)

Lemma IntMap_one_no_2 : ∀ v, (2, v) ∉ entries IntMap_one.
Proof.
  intros v Hin. apply list_elem_of_singleton in Hin. discriminate Hin.
Defined.

Lemma IntMap_one_load : 3 * size IntMap_one ≤ capacity IntMap_one.
Proof. vm_compute. lia. Defined.

Lemma IntMap_one_finds_1 :
  find_entry 3 IntMap_one 1 = Done (Some (1, "a"%string)).
Proof. reflexivity. Defined.

Lemma IntMap_one_slot : occupied (data_ IntMap_one) 1 (mkSlot false 0 2).
Proof. split; reflexivity. Defined.

Lemma IntMap_one_sole : ∀ v', (1, v') ∈ entries IntMap_one → v' = "a"%string.
Proof.
  intros v' Hin. apply list_elem_of_singleton in Hin.
  injection Hin as Hv. exact Hv.
Defined.

Lemma IntMap_one_duplicate_free : duplicate_free string_new IntMap_one.
Proof.
  apply (df_insert string_new IntMap_new 5 (1, "a"%string)).
  - apply df_new.
  - intros v Hin. apply elem_of_nil in Hin. exact Hin.
  - reflexivity.
Defined.

Lemma copy_constructor_copies_one :
  reachable string_new IntMap_one ∧
  ∃ m,
    (∀ fuel, HashMap_copy (16 * size IntMap_one + 11 + fuel) IntMap_one
             = Done m) ∧
    hash_function m = hash_function IntMap_one ∧
    entries m = entries IntMap_one ∧
    size m = size IntMap_one ∧
    (∀ k fuel,
       at_ (capacity m + fuel) m k =
       match assoc_first (entries IntMap_one) k with
       | Some v => Done v
       | None => Throw out_of_range
       end).
Proof.
  split; [exact IntMap_one_reachable|].
  apply (copy_constructor_copies string_new IntMap_one).
  exact IntMap_one_reachable.
Defined.

Lemma erase_removes_one_pair_one :
  (reachable string_new IntMap_one ∧
   find_entry 3 IntMap_one 1 = Done (Some (1, "a"%string))) ∧
  ∃ m' it l1 l2,
    (∀ fuel, erase (2 * capacity IntMap_one + fuel) IntMap_one 1 = Done m') ∧
    entries IntMap_one = l1 ++ (1, "a"%string) :: l2 ∧
    entries m' = l1 ++ l2 ∧
    size m' + 1 = size IntMap_one ∧
    capacity m' = capacity IntMap_one ∧
    hash_function m' = hash_function IntMap_one ∧
    deref (elemets_ IntMap_one) it = Some (1, "a"%string) ∧
    deref (elemets_ m') it = None ∧
    (∀ it', it' ≠ it →
       deref (elemets_ m') it' = deref (elemets_ IntMap_one) it') ∧
    (∀ k e fuel1 fuel,
       k ≠ 1 → find_entry fuel1 IntMap_one k = Done (Some e) →
       find_entry (capacity IntMap_one + fuel) m' k = Done (Some e)).
Proof.
  split; [split; [exact IntMap_one_reachable|exact IntMap_one_finds_1]|].
  apply (erase_removes_one_pair string_new IntMap_one 1 "a"%string 3).
  - exact IntMap_one_reachable.
  - exact IntMap_one_finds_1.
Defined.

Lemma index_of_present_key_one :
  (reachable string_new IntMap_one ∧
   find_entry 3 IntMap_one 1 = Done (Some (1, "a"%string))) ∧
  ∃ it,
    (∀ fuel, index string_new (capacity IntMap_one + fuel) IntMap_one 1
             = Done (IntMap_one, it, "a"%string)) ∧
    deref (elemets_ IntMap_one) it = Some (1, "a"%string).
Proof.
  split; [split; [exact IntMap_one_reachable|exact IntMap_one_finds_1]|].
  apply (index_of_present_key string_new IntMap_one 1 "a"%string 3).
  - exact IntMap_one_reachable.
  - exact IntMap_one_finds_1.
Defined.

Lemma size_counts_entries_one :
  reachable string_new IntMap_one ∧
  size IntMap_one = length (entries IntMap_one) ∧
  (empty IntMap_one = true ↔ entries IntMap_one = []).
Proof.
  split; [exact IntMap_one_reachable|].
  apply (size_counts_entries string_new IntMap_one).
  exact IntMap_one_reachable.
Defined.

Lemma find_is_sound_one :
  (reachable string_new IntMap_one ∧
   find_entry 3 IntMap_one 1 = Done (Some (1, "a"%string))) ∧
  (1, "a"%string).1 = 1 ∧ (1, "a"%string) ∈ entries IntMap_one ∧
  (∀ fuel, at_ (capacity IntMap_one + fuel) IntMap_one 1
           = Done (1, "a"%string).2).
Proof.
  split; [split; [exact IntMap_one_reachable|exact IntMap_one_finds_1]|].
  apply (find_is_sound string_new IntMap_one 1 3 (1, "a"%string)).
  - exact IntMap_one_reachable.
  - exact IntMap_one_finds_1.
Defined.

Lemma find_within_displacement_one :
  (reachable string_new IntMap_one ∧
   occupied (data_ IntMap_one) 1 (mkSlot false 0 2) ∧
   deref (elemets_ IntMap_one) (iterator (mkSlot false 0 2))
   = Some (1, "a"%string)) ∧
  find (S (distance (mkSlot false 0 2))) IntMap_one 1
  = Done (Some (iterator (mkSlot false 0 2))) ∧
  distance (mkSlot false 0 2) < capacity IntMap_one.
Proof.
  assert (Hd : deref (elemets_ IntMap_one) (iterator (mkSlot false 0 2))
               = Some (1, "a"%string)) by reflexivity.
  split; [split_and!;
          [exact IntMap_one_reachable|exact IntMap_one_slot|exact Hd]|].
  apply (find_within_displacement string_new IntMap_one 1 (mkSlot false 0 2)
           1 "a"%string IntMap_one_reachable IntMap_one_slot Hd).
Defined.

Lemma index_refers_to_distinct_live_entries_two :
  reachable string_new IntMap_two ∧
  (∀ p s, occupied (data_ IntMap_two) p s →
     ∃ e, deref (elemets_ IntMap_two) (iterator s) = Some e ∧
          e ∈ entries IntMap_two) ∧
  (∀ p q s t e e',
     occupied (data_ IntMap_two) p s → occupied (data_ IntMap_two) q t →
     deref (elemets_ IntMap_two) (iterator s) = Some e →
     deref (elemets_ IntMap_two) (iterator t) = Some e' →
     e.1 = e'.1 → p = q) ∧
  occupied_count (data_ IntMap_two) ≤ size IntMap_two ∧
  (3 * size IntMap_two ≤ capacity IntMap_two ∨ capacity IntMap_two = 0).
Proof.
  split; [exact IntMap_two_reachable|].
  apply (index_refers_to_distinct_live_entries string_new IntMap_two).
  exact IntMap_two_reachable.
Defined.

Lemma rebuild_reindexes_one :
  (reachable string_new IntMap_one ∧ 3 * size IntMap_one ≤ 9) ∧
  ∃ m',
    (∀ fuel,
       rebuild_ (9 + 1 + fuel)
         {| hasher_ := hasher_ IntMap_one;
            data_ := replicate 9 HashTableData_new;
            size_ := size_ IntMap_one; elemets_ := elemets_ IntMap_one;
            next_node_ := next_node_ IntMap_one |} = Done m') ∧
    entries m' = entries IntMap_one ∧
    size m' = size IntMap_one ∧
    capacity m' = 9 ∧
    hash_function m' = hash_function IntMap_one ∧
    (∀ k fuel,
       at_ (9 + fuel) m' k =
       match assoc_first (entries IntMap_one) k with
       | Some v => Done v
       | None => Throw out_of_range
       end).
Proof.
  assert (Hc : 3 * size IntMap_one ≤ 9) by (simpl; lia).
  split; [split; [exact IntMap_one_reachable|exact Hc]|].
  apply (rebuild_reindexes string_new IntMap_one 9 IntMap_one_reachable Hc).
Defined.

Lemma next_cycles_9 :
  8 < 9 ∧
  next_ 9 8 < 9 ∧
  (∀ i, Nat.iter i (next_ 9) 8 = (8 + i) mod 9) ∧
  Nat.iter 9 (next_ 9) 8 = 8 ∧
  (∀ target, target < 9 →
     ∃ i, i < 9 ∧ Nat.iter i (next_ 9) 8 = target).
Proof.
  assert (H8 : 8 < 9) by lia.
  split; [exact H8|]. apply (next_cycles 9 8 H8).
Defined.

Lemma clear_then_insert_one :
  (reachable string_new IntMap_one ∧
   3 * size IntMap_one ≤ capacity IntMap_one) ∧
  ∃ m0 m',
    (∀ fuel, clear (capacity IntMap_one + 1 + fuel) IntMap_one = Done m0) ∧
    (∀ fuel,
       insert_all (2 * (capacity IntMap_one + 6 * length abc + 3) + 5 + fuel)
         m0 abc = Done m') ∧
    entries m' = abc ∧
    size m' = length abc ∧
    (∀ k fuel,
       at_ (capacity m' + fuel) m' k =
       match assoc_first abc k with
       | Some v => Done v
       | None => Throw out_of_range
       end).
Proof.
  split; [split; [exact IntMap_one_reachable|exact IntMap_one_load]|].
  apply (clear_then_insert string_new IntMap_one abc).
  - exact IntMap_one_reachable.
  - exact IntMap_one_load.
Defined.

Lemma insert_then_erase_one :
  (reachable string_new IntMap_one ∧ ∀ v', (2, v') ∉ entries IntMap_one) ∧
  ∃ m1 m2,
    (∀ fuel, insert (insert_fuel IntMap_one + fuel) IntMap_one
               (2, "b"%string) = Done m1) ∧
    (∀ fuel, erase (2 * capacity m1 + fuel) m1 2 = Done m2) ∧
    entries m2 = entries IntMap_one ∧
    size m2 = size IntMap_one ∧
    (∀ fuel, find (capacity m2 + fuel) m2 2 = Done None).
Proof.
  split; [split; [exact IntMap_one_reachable|exact IntMap_one_no_2]|].
  apply (insert_then_erase string_new IntMap_one 2 "b"%string).
  - exact IntMap_one_reachable.
  - exact IntMap_one_no_2.
Defined.

Lemma insert_existing_keeps_value_one :
  (reachable string_new IntMap_one ∧
   find_entry 3 IntMap_one 1 = Done (Some (1, "a"%string)) ∧
   ∀ v', (1, v') ∈ entries IntMap_one → v' = "a"%string) ∧
  ∃ m',
    (∀ fuel, insert (insert_fuel IntMap_one + fuel) IntMap_one
               (1, "b"%string) = Done m') ∧
    (∀ fuel, find_entry (capacity m' + fuel) m' 1
             = Done (Some (1, "a"%string))) ∧
    (∀ fuel, at_ (capacity m' + fuel) m' 1 = Done "a"%string).
Proof.
  split; [split_and!; [exact IntMap_one_reachable|exact IntMap_one_finds_1
                      |exact IntMap_one_sole]|].
  apply (insert_existing_keeps_value string_new IntMap_one 1 "a"%string
           "b"%string 3).
  - exact IntMap_one_reachable.
  - exact IntMap_one_finds_1.
  - exact IntMap_one_sole.
Defined.

Lemma insert_appends_one :
  reachable string_new IntMap_one ∧
  ∃ m',
    (∀ fuel, insert (insert_fuel IntMap_one + fuel) IntMap_one
               (1, "b"%string) = Done m') ∧
    entries m' = entries IntMap_one ++ [(1, "b"%string)] ∧
    size m' = size IntMap_one + 1 ∧
    hash_function m' = hash_function IntMap_one ∧
    capacity IntMap_one ≤ capacity m'.
Proof.
  split; [exact IntMap_one_reachable|].
  apply (insert_appends string_new IntMap_one (1, "b"%string)).
  exact IntMap_one_reachable.
Defined.

(** The map with keys 1 and 2 has capacity 9 and room for a third pair:
    the nodes 4 and 5 of its two pairs stay. *)
Lemma insert_keeps_nodes_two :
  (reachable string_new IntMap_two ∧
   3 * (size IntMap_two + 1) ≤ capacity IntMap_two) ∧
  ∃ m',
    (∀ fuel, insert (capacity IntMap_two + 1 + fuel) IntMap_two
               (3, "c"%string) = Done m') ∧
    capacity m' = capacity IntMap_two ∧
    (∀ it e, deref (elemets_ IntMap_two) it = Some e →
       deref (elemets_ m') it = Some e).
Proof.
  assert (Hc : 3 * (size IntMap_two + 1) ≤ capacity IntMap_two)
    by (vm_compute; lia).
  split; [split; [exact IntMap_two_reachable|exact Hc]|].
  apply (insert_keeps_nodes string_new IntMap_two (3, "c"%string)
           IntMap_two_reachable Hc).
Defined.

Lemma insert_rebuild_moves_nodes_one :
  (reachable string_new IntMap_one ∧
   3 * size IntMap_one ≤ capacity IntMap_one ∧
   capacity IntMap_one < 3 * (size IntMap_one + 1)) ∧
  ∃ m',
    (∀ fuel, insert (insert_fuel IntMap_one + fuel) IntMap_one
               (2, "b"%string) = Done m') ∧
    capacity m' = 2 * capacity IntMap_one + 3 ∧
    entries m' = entries IntMap_one ++ [(2, "b"%string)] ∧
    (∀ it, is_Some (deref (elemets_ IntMap_one) it) →
       deref (elemets_ m') it = None).
Proof.
  assert (Hc : capacity IntMap_one < 3 * (size IntMap_one + 1))
    by (vm_compute; lia).
  split; [split_and!; [exact IntMap_one_reachable|exact IntMap_one_load
                      |exact Hc]|].
  apply (insert_rebuild_moves_nodes string_new IntMap_one (2, "b"%string)
           IntMap_one_reachable IntMap_one_load Hc).
Defined.

Lemma duplicate_free_consistent_one :
  duplicate_free string_new IntMap_one ∧
  NoDup (entries IntMap_one).*1 ∧
  (∀ k v,
     (k, v) ∈ entries IntMap_one ↔
     ∀ fuel, find_entry (capacity IntMap_one + fuel) IntMap_one k
             = Done (Some (k, v))).
Proof.
  split; [exact IntMap_one_duplicate_free|].
  apply (duplicate_free_consistent string_new IntMap_one).
  exact IntMap_one_duplicate_free.
Defined.

Lemma erase_then_insert_replaces_one :
  (duplicate_free string_new IntMap_one ∧
   find_entry 3 IntMap_one 1 = Done (Some (1, "a"%string))) ∧
  ∃ m1 m2 l1 l2,
    (∀ fuel, erase (2 * capacity IntMap_one + fuel) IntMap_one 1 = Done m1) ∧
    (∀ fuel, insert (insert_fuel m1 + fuel) m1 (1, "b"%string) = Done m2) ∧
    entries IntMap_one = l1 ++ (1, "a"%string) :: l2 ∧
    entries m2 = l1 ++ l2 ++ [(1, "b"%string)] ∧
    size m2 = size IntMap_one ∧
    (∀ fuel, find_entry (capacity m2 + fuel) m2 1
             = Done (Some (1, "b"%string))).
Proof.
  split; [split; [exact IntMap_one_duplicate_free
                 |exact IntMap_one_finds_1]|].
  apply (erase_then_insert_replaces string_new IntMap_one 1 "a"%string
           "b"%string 3).
  - exact IntMap_one_duplicate_free.
  - exact IntMap_one_finds_1.
Defined.
